(** * PhotoVault album store: tree operations, navigation and backend sync

    A shallow embedding of the album manager component (the [App]
    component with reducer [albumReducer], drag-and-drop ingestion and the
    MockAPI sync client), followed by the properties of its specification. *)

From Stdlib Require Import String Ascii List Arith Bool Lia.
From stdpp Require Import base option list gmap strings pretty.
Import ListNotations.

Local Open Scope string_scope.
Local Open Scope list_scope.
Local Open Scope nat_scope.

(** ** Data model *)

(** [{ id, name, url, size }] as built by [handleFileUpload] and
    [processEntry]. *)
Record Image := mkImage {
  image_id : string;
  image_name : string;
  image_url : string;
  image_size : string
}.

(** [{ id, name, images, subAlbums }].  The two array fields are optional:
    the code guards every read with [item.images || []] or
    [if (item.subAlbums)], because trees also come from the remote store.
    [None] stands for a missing (falsy) field, [Some []] for the empty
    array, which is truthy in JavaScript. *)
#[warnings="-register-all"]
Inductive Album := mkAlbum {
  album_id : string;
  album_name : string;
  images : option (list Image);
  subAlbums : option (list Album)
}.

(** Structural induction that also descends into [subAlbums]. *)
Section AlbumInduction.
Variable P : Album → Prop.
Hypothesis step : ∀ i n im subs,
  Forall P (default [] subs) → P (mkAlbum i n im subs).

Fixpoint Album_nested_ind (a : Album) : P a :=
  match a with
  | mkAlbum i n im subs =>
      step i n im subs
        (match subs as s return Forall P (default [] s) with
         | Some l =>
             (fix go (l : list Album) : Forall P l :=
                match l with
                | [] => @List.Forall_nil _ P
                | x :: r => @List.Forall_cons _ P x r (Album_nested_ind x) (go r)
                end) l
         | None => @List.Forall_nil _ P
         end)
  end.
End AlbumInduction.

(** ** Navigation helpers *)

(** [list.find(a => a.id === id)]; [None] is JavaScript's [undefined]. *)
Definition find_by_id (i : string) (lst : list Album) : option Album :=
  List.find (λ a, String.eqb (album_id a) i) lst.

(** [getCurrentDirectory]: a segment that is not found leaves [current]
    where it was. *)
Definition getCurrentDirectory (albums : list Album) (currentPath : list string)
  : list Album :=
  fold_left
    (λ current i,
       match find_by_id i current with
       | Some folder => default [] (subAlbums folder)
       | None => current
       end)
    currentPath albums.

(** One iteration of the loop of [getCurrentAlbum] on the pair
    [(current, lst)]: [current?.subAlbums || []]. *)
Definition album_step (st : option Album * list Album) (i : string)
  : option Album * list Album :=
  let current := find_by_id i (snd st) in
  (current, default [] (current ≫= subAlbums)).

(** [getCurrentAlbum].  The result is [null] for the empty path and may be
    [undefined] afterwards; both are falsy and every caller only tests
    truthiness ([!album], [currentAlbum?.name]), so both are [None]. *)
Definition getCurrentAlbum (albums : list Album) (currentPath : list string)
  : option Album :=
  match currentPath with
  | [] => None
  | _ => fst (fold_left album_step currentPath (None, albums))
  end.

(** An image as shown in the grid: the nested view adds [folderName]. *)
Record Photo := mkPhoto {
  photo_image : Image;
  folderName : option string
}.

Definition plain (img : Image) : Photo := mkPhoto img None.

Definition tagged (currentName : string) (img : Image) : Photo :=
  mkPhoto img (Some currentName).

(** [getAllPhotosRecursive(album, pathName = "")]. *)
Fixpoint getAllPhotosRecursive (album : Album) (pathName : string) : list Photo :=
  let currentName :=
    match pathName with
    | EmptyString => album_name album
    | _ => pathName +:+ " / " +:+ album_name album
    end in
  let photos := map (tagged currentName) (default [] (images album)) in
  match subAlbums album with
  | Some subs =>
      fold_left (λ photos sub, photos ++ getAllPhotosRecursive sub currentName)
        subs photos
  | None => photos
  end.

(** [activePhotos]. *)
Definition activePhotos (showAllNested : bool) (albums : list Album)
    (currentPath : list string) : list Photo :=
  match getCurrentAlbum albums currentPath with
  | None => []
  | Some album =>
      if showAllNested then getAllPhotosRecursive album ""
      else map plain (default [] (images album))
  end.

(** The folder cards of the grid: [!showAllNested && currentItems.map(...)]
    with [currentItems = getCurrentDirectory()]. *)
Definition visibleAlbums (showAllNested : bool) (albums : list Album)
    (currentPath : list string) : list Album :=
  if showAllNested then [] else getCurrentDirectory albums currentPath.

(** ** Tree rewrites (the values they return) *)

(** [{ ...item, subAlbums: subs }]. *)
Definition with_subAlbums (item : Album) (subs : option (list Album)) : Album :=
  mkAlbum (album_id item) (album_name item) (images item) subs.

(** [{ ...item, images: imgs }]. *)
Definition with_images (item : Album) (imgs : option (list Image)) : Album :=
  mkAlbum (album_id item) (album_name item) imgs (subAlbums item).

(** The callback of [list.map] in [updateRecursive] of [createAlbum];
    [target] is [currentPath[currentPath.length - 1]]. *)
Fixpoint createAlbum_item (target : string) (newAlbum : Album) (item : Album)
  : Album :=
  if String.eqb (album_id item) target then
    with_subAlbums item (Some (default [] (subAlbums item) ++ [newAlbum]))
  else
    match subAlbums item with
    | Some subs =>
        with_subAlbums item (Some (map (createAlbum_item target newAlbum) subs))
    | None => item
    end.

(** [updateRecursive] of [createAlbum]. *)
Definition createAlbum_updateRecursive (target : string) (newAlbum : Album)
    (lst : list Album) : list Album :=
  map (createAlbum_item target newAlbum) lst.

(** The callback of [list.map] in [updateRecursive] of [handleFileUpload]. *)
Fixpoint handleFileUpload_item (target : string) (newImages : list Image)
    (item : Album) : Album :=
  if String.eqb (album_id item) target then
    with_images item (Some (default [] (images item) ++ newImages))
  else
    match subAlbums item with
    | Some subs =>
        with_subAlbums item
          (Some (map (handleFileUpload_item target newImages) subs))
    | None => item
    end.

(** [updateRecursive] of [handleFileUpload]. *)
Definition handleFileUpload_updateRecursive (target : string)
    (newImages : list Image) (lst : list Album) : list Album :=
  map (handleFileUpload_item target newImages) lst.

(** What a kept item looks like after the callback of [list.filter] in
    [deleteRecursive] ran on it: [item.subAlbums = deleteRecursive(...)]. *)
Fixpoint deleteRecursive_item (i : string) (item : Album) : Album :=
  match subAlbums item with
  | Some subs =>
      with_subAlbums item
        (Some
           ((fix deleteRecursive (lst : list Album) : list Album :=
               match lst with
               | [] => []
               | x :: rest =>
                   if String.eqb (album_id x) i then deleteRecursive rest
                   else deleteRecursive_item i x :: deleteRecursive rest
               end) subs))
  | None => item
  end.

(** [deleteRecursive] of [deleteAlbum], as the tree it returns. *)
Fixpoint deleteRecursive (i : string) (lst : list Album) : list Album :=
  match lst with
  | [] => []
  | x :: rest =>
      if String.eqb (album_id x) i then deleteRecursive i rest
      else deleteRecursive_item i x :: deleteRecursive i rest
  end.

(** [img => img.id !== imageId]. *)
Definition keeps_image (imageId : string) (img : Image) : bool :=
  negb (String.eqb (image_id img) imageId).

(** The callback of [list.map] in [deleteFromRecursive]. *)
Fixpoint deleteFromRecursive_item (imageId : string) (item : Album) : Album :=
  mkAlbum (album_id item) (album_name item)
    (match images item with
     | Some imgs => Some (List.filter (keeps_image imageId) imgs)
     | None => None
     end)
    (match subAlbums item with
     | Some subs => Some (map (deleteFromRecursive_item imageId) subs)
     | None => None
     end).

(** [deleteFromRecursive] of [deleteImage]. *)
Definition deleteFromRecursive (imageId : string) (lst : list Album)
  : list Album :=
  map (deleteFromRecursive_item imageId) lst.

(** ** Reducer *)

Inductive Status := idle | loading | succeeded | failed.

Record State := mkState {
  items : list Album;
  status : Status;
  error : option string;
  syncing : bool
}.

Definition initialState : State := mkState [] idle None false.

Inductive Action :=
  | FETCH_START
  | FETCH_SUCCESS (payload : list Album)
  | FETCH_ERROR (payload : string)
  | SYNC_START
  | SYNC_END
  | SET_ITEMS (payload : list Album).

Definition albumReducer (state : State) (action : Action) : State :=
  match action with
  | FETCH_START => mkState (items state) loading (error state) (syncing state)
  | FETCH_SUCCESS payload =>
      mkState payload succeeded (error state) (syncing state)
  | FETCH_ERROR payload =>
      mkState (items state) failed (Some payload) (syncing state)
  | SYNC_START => mkState (items state) (status state) (error state) true
  | SYNC_END => mkState (items state) (status state) (error state) false
  | SET_ITEMS payload =>
      mkState payload (status state) (error state) (syncing state)
  end.

(** ** The remote store and the host environment *)

Definition API_BASE : string :=
  "https://694d4185ad0f8c8e6e203206.mockapi.io/albums".

Inductive Method := GET | PUT | POST.

(** The bodies the component sends: none, [{ data }] and [{ id, data }]. *)
Inductive Body :=
  | NoBody
  | DataBody (data : list Album)
  | IdDataBody (record : string) (data : list Album).

Record Request := mkRequest {
  req_method : Method;
  req_url : string;
  req_body : Body
}.

(** A record of the remote collection; [data] may be missing. *)
Record RemoteRecord := mkRemoteRecord {
  record_id : string;
  record_data : option (list Album)
}.

(** What one call of [fetch] does: it rejects (transport failure), or it
    resolves to a response with a status and a body; [json = None] is a
    body on which [response.json()] rejects. *)
Inductive FetchOutcome :=
  | NetworkError
  | Response (http_status : nat) (json : option (list RemoteRecord)).

(** [response.ok]. *)
Definition ok (http_status : nat) : bool :=
  (200 <=? http_status)%nat && (http_status <=? 299)%nat.

(** The component together with its environment.  [net n] is the outcome
    of the [n]-th call of [fetch] and [random n] the [n]-th value of
    [Math.random().toString(36).substr(2, 9)]; [fetched] and [timeouts]
    record the requests issued and the [setTimeout] delays awaited, oldest
    first. *)
Record World := mkWorld {
  state : State;
  currentPath : list string;
  newAlbumName : string;
  isCreatingAlbum : bool;
  showAllNested : bool;
  net : nat → FetchOutcome;
  fetched : list Request;
  timeouts : list nat;
  random : nat → string;
  drawn : nat
}.

Definition dispatch (action : Action) (w : World) : World :=
  mkWorld (albumReducer (state w) action) (currentPath w) (newAlbumName w)
    (isCreatingAlbum w) (showAllNested w) (net w) (fetched w) (timeouts w)
    (random w) (drawn w).

Definition setNewAlbumName (s : string) (w : World) : World :=
  mkWorld (state w) (currentPath w) s (isCreatingAlbum w) (showAllNested w)
    (net w) (fetched w) (timeouts w) (random w) (drawn w).

Definition setIsCreatingAlbum (b : bool) (w : World) : World :=
  mkWorld (state w) (currentPath w) (newAlbumName w) b (showAllNested w)
    (net w) (fetched w) (timeouts w) (random w) (drawn w).

Definition setCurrentPath (p : list string) (w : World) : World :=
  mkWorld (state w) p (newAlbumName w) (isCreatingAlbum w) (showAllNested w)
    (net w) (fetched w) (timeouts w) (random w) (drawn w).

(** [await fetch(url, options)]. *)
Definition fetch (req : Request) (w : World) : FetchOutcome * World :=
  (net w (length (fetched w)),
   mkWorld (state w) (currentPath w) (newAlbumName w) (isCreatingAlbum w)
     (showAllNested w) (net w) (fetched w ++ [req]) (timeouts w) (random w)
     (drawn w)).

(** [await new Promise(resolve => setTimeout(resolve, ms))]. *)
Definition setTimeout (ms : nat) (w : World) : World :=
  mkWorld (state w) (currentPath w) (newAlbumName w) (isCreatingAlbum w)
    (showAllNested w) (net w) (fetched w) (timeouts w ++ [ms]) (random w)
    (drawn w).

(** [Math.random().toString(36).substr(2, 9)]. *)
Definition random_id (w : World) : string * World :=
  (random w (drawn w),
   mkWorld (state w) (currentPath w) (newAlbumName w) (isCreatingAlbum w)
     (showAllNested w) (net w) (fetched w) (timeouts w) (random w)
     (S (drawn w))).

(** How a [try] block ends. *)
Inductive Completion (A : Type) :=
  | Returned (a : A)
  | Thrown.
Arguments Returned {A} a.
Arguments Thrown {A}.

(** ** Sync client *)

(** The [try] block of [fetchWithRetry] on the outcome of its [fetch]. *)
Definition fetchWithRetry_try (outcome : FetchOutcome)
  : Completion (option (list RemoteRecord)) :=
  match outcome with
  | NetworkError => Thrown
  | Response http_status json =>
      if (http_status =? 404)%nat then Returned None
      else if negb (ok http_status) then Thrown
      else match json with
           | Some data => Returned (Some data)
           | None => Thrown
           end
  end.

(** [fetchWithRetry(url, options, retries, backoff)]. *)
Fixpoint fetchWithRetry (req : Request) (retries backoff : nat) (w : World)
  : Completion (option (list RemoteRecord)) * World :=
  let '(outcome, w1) := fetch req w in
  match fetchWithRetry_try outcome with
  | Returned data => (Returned data, w1)
  | Thrown =>
      match retries with
      | S retries' =>
          fetchWithRetry req retries' (backoff * 2) (setTimeout backoff w1)
      | O => (Thrown, w1)
      end
  end.

Definition fetch_error_message : string :=
  "Failed to connect to backend storage. Please check your MockAPI endpoint.".

(** [fetchAlbums], with the default [retries = 3] and [backoff = 500]. *)
Definition fetchAlbums (w : World) : World :=
  let w1 := dispatch FETCH_START w in
  match fetchWithRetry (mkRequest GET API_BASE NoBody) 3 500 w1 with
  | (Returned data, w2) =>
      match data with
      | None | Some [] => dispatch (FETCH_SUCCESS []) w2
      | Some records =>
          let remoteEntry :=
            List.find (λ item, String.eqb (record_id item) "1") records in
          dispatch (FETCH_SUCCESS (default [] (remoteEntry ≫= record_data))) w2
      end
  | (Thrown, w2) => dispatch (FETCH_ERROR fetch_error_message) w2
  end.

Definition put_request (newAlbums : list Album) : Request :=
  mkRequest PUT (API_BASE +:+ "/1") (DataBody newAlbums).

Definition post_request (newAlbums : list Album) : Request :=
  mkRequest POST API_BASE (IdDataBody "1" newAlbums).

(** The [try] block of [syncToBackend]: it throws when a [fetch] rejects. *)
Definition syncToBackend_try (newAlbums : list Album) (w : World)
  : Completion unit * World :=
  let '(outcome, w1) := fetch (put_request newAlbums) w in
  match outcome with
  | NetworkError => (Thrown, w1)
  | Response http_status _ =>
      if negb (ok http_status) then
        let '(outcome2, w2) := fetch (post_request newAlbums) w1 in
        match outcome2 with
        | NetworkError => (Thrown, w2)
        | Response _ _ => (Returned (), w2)
        end
      else (Returned (), w1)
  end.

(** [syncToBackend]: [catch] logs the exception to the console and
    [finally] dispatches [SYNC_END]; the completion is that of the whole
    function. *)
Definition syncToBackend (newAlbums : list Album) (w : World)
  : Completion unit * World :=
  let '(completion, w1) := syncToBackend_try newAlbums (dispatch SYNC_START w) in
  let caught :=
    match completion with
    | Returned _ => Returned ()
    | Thrown => Returned ()
    end in
  (caught, dispatch SYNC_END w1).

(** [persistChanges] does not await [syncToBackend].  Here the save that
    it starts runs to its end at once, as it does when nothing else
    happens meanwhile; [interleave] below lets other saves and answers come
    in between. *)
Definition persistChanges (newAlbums : list Album) (w : World) : World :=
  snd (syncToBackend newAlbums (dispatch (SET_ITEMS newAlbums) w)).

(** ** Event handlers *)

(** A JavaScript string is held as the UTF-8 encoding of its code points,
    one [ascii] per byte; two strings are equal exactly when their
    encodings are.  [byte c] is the value of a byte. *)
Definition byte (c : ascii) : N := N_of_ascii c.

(** The code points that [String.prototype.trim] strips: WhiteSpace (TAB,
    VT, FF, ZWNBSP and the category Zs: SPACE, NO-BREAK SPACE, U+1680,
    U+2000 to U+200A, U+202F, U+205F, U+3000) and LineTerminator (LF, CR,
    U+2028, U+2029) of ECMAScript. *)
Definition is_whitespace (cp : N) : bool :=
  (((0x9 <=? cp) && (cp <=? 0xD)) || (cp =? 0x20) || (cp =? 0xA0) ||
   (cp =? 0x1680) || ((0x2000 <=? cp) && (cp <=? 0x200A)) ||
   (cp =? 0x2028) || (cp =? 0x2029) || (cp =? 0x202F) || (cp =? 0x205F) ||
   (cp =? 0x3000) || (cp =? 0xFEFF))%N.

(** A byte [10xxxxxx]. *)
Definition continuation (c : ascii) : bool :=
  ((0x80 <=? byte c) && (byte c <? 0xC0))%N.

(** The code point that the two bytes [110xxxxx 10xxxxxx] encode. *)
Definition code_point2 (c1 c2 : ascii) : option N :=
  let cp := ((byte c1 - 0xC0) * 64 + (byte c2 - 0x80))%N in
  if ((0xC0 <=? byte c1) && (byte c1 <? 0xE0) && continuation c2 &&
      (0x80 <=? cp))%N
  then Some cp else None.

(** The code point that the three bytes [1110xxxx 10xxxxxx 10xxxxxx]
    encode.  Code points from U+10000 on take four bytes and none of them
    is white space. *)
Definition code_point3 (c1 c2 c3 : ascii) : option N :=
  let cp :=
    ((byte c1 - 0xE0) * 4096 + (byte c2 - 0x80) * 64 + (byte c3 - 0x80))%N in
  if ((0xE0 <=? byte c1) && (byte c1 <? 0xF0) && continuation c2 &&
      continuation c3 && (0x800 <=? cp))%N
  then Some cp else None.

Definition strips (cp : option N) : bool :=
  match cp with
  | Some cp => is_whitespace cp
  | None => false
  end.

(** [s.trimStart()]: the code points at the start are dropped as long as
    they are white space. *)
Fixpoint trimStart (s : string) : string :=
  match s with
  | EmptyString => EmptyString
  | String c1 r1 =>
      if (byte c1 <? 0x80)%N && is_whitespace (byte c1) then trimStart r1
      else
        match r1 with
        | EmptyString => s
        | String c2 r2 =>
            if strips (code_point2 c1 c2) then trimStart r2
            else
              match r2 with
              | EmptyString => s
              | String c3 r3 =>
                  if strips (code_point3 c1 c2 c3) then trimStart r3 else s
              end
        end
  end.

(** [s.trimEnd()]: the string is cut where only white space follows.  A
    suffix that starts inside the encoding of a code point starts with a
    continuation byte, which [trimStart] does not drop. *)
Fixpoint trimEnd (s : string) : string :=
  match s with
  | EmptyString => EmptyString
  | String c rest =>
      match trimStart s with
      | EmptyString => EmptyString
      | String _ _ => String c (trimEnd rest)
      end
  end.

Definition trim (s : string) : string := trimEnd (trimStart s).

(** JavaScript truthiness of a string. *)
Definition truthy (s : string) : bool :=
  match s with
  | EmptyString => false
  | String _ _ => true
  end.

(** [createAlbum]; [last (currentPath w)] is
    [currentPath[currentPath.length - 1]] and is [None] exactly when
    [currentPath.length === 0]. *)
Definition createAlbum (w : World) : World :=
  if negb (truthy (trim (newAlbumName w))) then w
  else
    let '(rid, w1) := random_id w in
    let newAlbum := mkAlbum rid (newAlbumName w) (Some []) (Some []) in
    let albums := items (state w) in
    let nextAlbums :=
      match last (currentPath w) with
      | None => albums ++ [newAlbum]
      | Some target => createAlbum_updateRecursive target newAlbum albums
      end in
    setIsCreatingAlbum false (setNewAlbumName "" (persistChanges nextAlbums w1)).

(** [deleteAlbum(e, id)]. *)
Definition deleteAlbum (i : string) (w : World) : World :=
  persistChanges (deleteRecursive i (items (state w))) w.

(** [deleteImage(e, imageId)]. *)
Definition deleteImage (imageId : string) (w : World) : World :=
  persistChanges (deleteFromRecursive imageId (items (state w))) w.

(** A [File] of the host.  [file_kb] is [(file.size / 1024).toFixed(1)] and
    [object_url] the URL that [URL.createObjectURL(file)] returns. *)
Record File := mkFile {
  file_name : string;
  file_type : string;
  file_kb : string;
  object_url : string
}.

(** The image object both ingestion paths build for a file. *)
Definition image_of_file (rid : string) (file : File) : Image :=
  mkImage rid (file_name file) (object_url file) (file_kb file +:+ " KB").

(** [simulateUpload]: six steps of 100 ms ([i = 0, 20, ..., 100]). *)
Definition simulateUpload (w : World) : World :=
  fold_left (λ w _, setTimeout 100 w) (seq 0 6) w.

(** [files.map(file => ({ id: Math.random()..., ... }))]. *)
Fixpoint newImages_of (files : list File) (w : World) : list Image * World :=
  match files with
  | [] => ([], w)
  | file :: rest =>
      let '(rid, w1) := random_id w in
      let '(imgs, w2) := newImages_of rest w1 in
      (image_of_file rid file :: imgs, w2)
  end.

(** [handleFileUpload], on the files of the input element. *)
Definition handleFileUpload (files : list File) (w : World) : World :=
  match files, last (currentPath w) with
  | [], _ | _, None => w
  | _ :: _, Some target =>
      let w1 := simulateUpload w in
      let '(newImages, w2) := newImages_of files w1 in
      persistChanges
        (handleFileUpload_updateRecursive target newImages (items (state w)))
        w2
  end.

(** ** Folder drop *)

(** A [FileSystemEntry]: a file, or a directory with the entries that
    [readEntries] yields. *)
#[warnings="-register-all"]
Inductive Entry :=
  | FileEntry (file : File)
  | DirectoryEntry (name : string) (entries : list Entry).

(** Structural induction that also descends into the entries of a
    directory. *)
Section EntryInduction.
Variable P : Entry → Prop.
Hypothesis file_case : ∀ file, P (FileEntry file).
Hypothesis directory_case : ∀ name entries,
  Forall P entries → P (DirectoryEntry name entries).

Fixpoint Entry_nested_ind (e : Entry) : P e :=
  match e with
  | FileEntry file => file_case file
  | DirectoryEntry name entries =>
      directory_case name entries
        ((fix go (l : list Entry) : Forall P l :=
            match l with
            | [] => @List.Forall_nil _ P
            | x :: r => @List.Forall_cons _ P x r (Entry_nested_ind x) (go r)
            end) entries)
  end.
End EntryInduction.

(** A [DataTransferItem]: its [kind] and what [webkitGetAsEntry()]
    returns. *)
Record DataTransferItem := mkItem {
  kind : string;
  entry : option Entry
}.

(** [targetList.subAlbums] once [folder], which was found there by name
    or else pushed, has been filled in place. *)
Fixpoint put_folder (name : string) (folder : Album) (subs : list Album)
  : list Album :=
  match subs with
  | [] => [folder]
  | f :: rest =>
      if String.eqb (album_name f) name then folder :: rest
      else f :: put_folder name folder rest
  end.

(** [processEntry(entry, targetList)], on the copy of the tree that
    [handleDrop] makes: the result is [targetList] as the call leaves it.
    [Thrown] is the [TypeError] of [targetList.images.push] or
    [targetList.subAlbums.find] on a missing array. *)
Fixpoint processEntry (entry : Entry) (targetList : Album) (w : World)
  : Completion Album * World :=
  match entry with
  | FileEntry file =>
      if String.prefix "image/" (file_type file) then
        match images targetList with
        | Some imgs =>
            let '(rid, w1) := random_id w in
            (Returned
               (with_images targetList (Some (imgs ++ [image_of_file rid file]))),
             w1)
        | None => (Thrown, w)
        end
      else (Returned targetList, w)
  | DirectoryEntry name entries =>
      match subAlbums targetList with
      | None => (Thrown, w)
      | Some subs =>
          let '(folder, w1) :=
            match List.find (λ f, String.eqb (album_name f) name) subs with
            | Some folder => (folder, w)
            | None =>
                let '(rid, w1) := random_id w in
                (mkAlbum rid name (Some []) (Some []), w1)
            end in
          let '(filled, w2) :=
            (fix each (entries : list Entry) (folder : Album) (w : World)
               : Completion Album * World :=
               match entries with
               | [] => (Returned folder, w)
               | childEntry :: rest =>
                   match processEntry childEntry folder w with
                   | (Returned folder', w') => each rest folder' w'
                   | (Thrown, w') => (Thrown, w')
                   end
               end) entries folder w1 in
          match filled with
          | Returned folder' =>
              (Returned
                 (with_subAlbums targetList
                    (Some (put_folder name folder' subs))),
               w2)
          | Thrown => (Thrown, w2)
          end
      end
  end.

(** The loop [for (const childEntry of entries)] of [processEntry]. *)
Fixpoint processEntries (entries : list Entry) (folder : Album) (w : World)
  : Completion Album * World :=
  match entries with
  | [] => (Returned folder, w)
  | childEntry :: rest =>
      match processEntry childEntry folder w with
      | (Returned folder', w') => processEntries rest folder' w'
      | (Thrown, w') => (Thrown, w')
      end
  end.

(** The loop of [handleDrop] over [e.dataTransfer.items]. *)
Fixpoint processItems (dropped : list DataTransferItem) (targetNode : Album)
    (w : World) : Completion Album * World :=
  match dropped with
  | [] => (Returned targetNode, w)
  | item :: rest =>
      match (if String.eqb (kind item) "file" then entry item else None) with
      | Some e =>
          match processEntry e targetNode w with
          | (Returned targetNode', w') => processItems rest targetNode' w'
          | (Thrown, w') => (Thrown, w')
          end
      | None => processItems rest targetNode w
      end
  end.

(** [current.find(a => a.id === id)] with the index of what it finds. *)
Fixpoint find_index_by_id (i : string) (lst : list Album)
  : option (nat * Album) :=
  match lst with
  | [] => None
  | a :: rest =>
      if String.eqb (album_id a) i then Some (0, a)
      else (λ r, (S r.1, r.2)) <$> find_index_by_id i rest
  end.

(** The loop of [handleDrop] over [currentPath].  [current] is [None] once
    it is [undefined], and then [current.find] throws; [here] is where
    the array [current] sits in the tree and the result is where [found]
    does, both as indices from the root. *)
Fixpoint drop_walk (path : list string) (current : option (list Album))
    (here : list nat) (found : option (list nat))
  : Completion (option (list nat)) :=
  match path with
  | [] => Returned found
  | i :: rest =>
      match current with
      | None => Thrown
      | Some cur =>
          match find_index_by_id i cur with
          | Some (k, a) =>
              drop_walk rest (subAlbums a) (here ++ [k]) (Some (here ++ [k]))
          | None => drop_walk rest current here None
          end
      end
  end.

(** Running [process] on the album at the indices [position], in place. *)
Fixpoint processAt (position : list nat)
    (process : Album → World → Completion Album * World)
    (lst : list Album) (w : World) : Completion (list Album) * World :=
  match position with
  | [] => (Returned lst, w)
  | k :: deeper =>
      match lst !! k with
      | None => (Returned lst, w)
      | Some a =>
          match deeper with
          | [] =>
              match process a w with
              | (Returned a', w') => (Returned (<[k := a']> lst), w')
              | (Thrown, w') => (Thrown, w')
              end
          | _ :: _ =>
              match subAlbums a with
              | None => (Returned lst, w)
              | Some subs =>
                  match processAt deeper process subs w with
                  | (Returned subs', w') =>
                      (Returned (<[k := with_subAlbums a (Some subs')]> lst), w')
                  | (Thrown, w') => (Thrown, w')
                  end
              end
          end
      end
  end.

(** [handleDrop].  [JSON.parse(JSON.stringify(albums))] is a copy that
    shares nothing with the state, so the writes of [processEntry] are
    rewrites of that copy.  At the root [targetNode] is
    [{ subAlbums: nextAlbums, images: [] }], which has no id and no name;
    a [TypeError] rejects the promise before [persistChanges]. *)
Definition handleDrop (dropped : option (list DataTransferItem)) (w : World)
  : World :=
  match dropped with
  | None => w
  | Some dropped =>
      let w1 := simulateUpload w in
      let nextAlbums := items (state w) in
      match drop_walk (currentPath w) (Some nextAlbums) [] None with
      | Thrown => w1
      | Returned None =>
          match
            processItems dropped (mkAlbum "" "" (Some []) (Some nextAlbums)) w1
          with
          | (Returned targetNode, w2) =>
              persistChanges (default [] (subAlbums targetNode)) w2
          | (Thrown, w2) => w2
          end
      | Returned (Some position) =>
          match processAt position (processItems dropped) nextAlbums w1 with
          | (Returned nextAlbums', w2) => persistChanges nextAlbums' w2
          | (Thrown, w2) => w2
          end
      end
  end.

(** ** Sequences of operations *)

(** The operations on the tree, each with the path and the input the user
    gives it. *)
Inductive Operation :=
  | CreateAlbum (path : list string) (name : string)
  | UploadImages (path : list string) (files : list File)
  | DropEntries (path : list string) (dropped : option (list DataTransferItem))
  | DeleteAlbum (i : string)
  | DeleteImage (imageId : string).

Definition perform (w : World) (op : Operation) : World :=
  match op with
  | CreateAlbum path name =>
      createAlbum (setNewAlbumName name (setCurrentPath path w))
  | UploadImages path files => handleFileUpload files (setCurrentPath path w)
  | DropEntries path dropped => handleDrop dropped (setCurrentPath path w)
  | DeleteAlbum i => deleteAlbum i w
  | DeleteImage imageId => deleteImage imageId w
  end.

Definition run (ops : list Operation) (w : World) : World :=
  fold_left perform ops w.

(** ** Albums as objects

    The rewrites above give the tree a handler returns.  JavaScript
    albums are objects held by reference, and [deleteRecursive] assigns to
    a field of the objects it visits, so what happens to the tree a
    handler was given is a matter of the heap.  Here albums are objects
    at locations and [subAlbums] holds locations.  Arrays and images stay
    values: no handler writes into an array or an image that is reachable
    from the state ([filter], [map] and spread build new arrays). *)

Abbreviation loc := nat (only parsing).

Record AlbumObject := mkObject {
  object_id : string;
  object_name : string;
  object_images : option (list Image);
  object_subAlbums : option (list loc)
}.

Abbreviation heap := (gmap loc AlbumObject) (only parsing).

(** [item.subAlbums = subs]. *)
Definition set_subAlbums (subs : option (list loc)) (o : AlbumObject)
  : AlbumObject :=
  mkObject (object_id o) (object_name o) (object_images o) subs.

(** [item.images = imgs]. *)
Definition set_images (imgs : option (list Image)) (o : AlbumObject)
  : AlbumObject :=
  mkObject (object_id o) (object_name o) imgs (object_subAlbums o).

(** An object literal, spread included, makes a new object. *)
Definition alloc (o : AlbumObject) (h : heap) : loc * heap :=
  let l := fresh (dom h) in (l, <[l := o]> h).

(** [lst.map(callback)] for a callback that may allocate and write;
    [None] is a reference to no object or a recursion deeper than the
    fuel. *)
Fixpoint mapH (callback : loc → heap → option (loc * heap))
    (lst : list loc) (h : heap) : option (list loc * heap) :=
  match lst with
  | [] => Some ([], h)
  | l :: rest =>
      '(l', h1) ← callback l h;
      '(rest', h2) ← mapH callback rest h1;
      Some (l' :: rest', h2)
  end.

(** [lst.filter(callback)], likewise. *)
Fixpoint filterH (callback : loc → heap → option (bool * heap))
    (lst : list loc) (h : heap) : option (list loc * heap) :=
  match lst with
  | [] => Some ([], h)
  | l :: rest =>
      '(keep, h1) ← callback l h;
      '(rest', h2) ← filterH callback rest h1;
      Some (if keep : bool then l :: rest' else rest', h2)
  end.

(** The callback of [deleteRecursive] on objects: it reports whether the
    item is kept and assigns to [item.subAlbums].  [fuel] bounds the depth
    of the recursion. *)
Fixpoint deleteRecursiveH_item (fuel : nat) (i : string) (l : loc) (h : heap)
  : option (bool * heap) :=
  match fuel with
  | O => None
  | S fuel' =>
      item ← h !! l;
      if String.eqb (object_id item) i then Some (false, h)
      else
        match object_subAlbums item with
        | Some subs =>
            '(subs', h1) ← filterH (deleteRecursiveH_item fuel' i) subs h;
            Some (true, alter (set_subAlbums (Some subs')) l h1)
        | None => Some (true, h)
        end
  end.

(** [deleteRecursive] of [deleteAlbum] on objects. *)
Definition deleteRecursiveH (fuel : nat) (i : string) (lst : list loc)
    (h : heap) : option (list loc * heap) :=
  filterH (deleteRecursiveH_item fuel i) lst h.

(** The callback of [deleteFromRecursive] on objects: [newItem] is a new
    object and the two assignments write to it. *)
Fixpoint deleteFromRecursiveH_item (fuel : nat) (imageId : string) (l : loc)
    (h : heap) : option (loc * heap) :=
  match fuel with
  | O => None
  | S fuel' =>
      item ← h !! l;
      let '(newItem, h1) := alloc item h in
      let h2 :=
        match object_images item with
        | Some imgs =>
            alter (set_images (Some (List.filter (keeps_image imageId) imgs)))
              newItem h1
        | None => h1
        end in
      match object_subAlbums item with
      | Some subs =>
          '(subs', h3) ← mapH (deleteFromRecursiveH_item fuel' imageId) subs h2;
          Some (newItem, alter (set_subAlbums (Some subs')) newItem h3)
      | None => Some (newItem, h2)
      end
  end.

(** [deleteFromRecursive] of [deleteImage] on objects. *)
Definition deleteFromRecursiveH (fuel : nat) (imageId : string)
    (lst : list loc) (h : heap) : option (list loc * heap) :=
  mapH (deleteFromRecursiveH_item fuel imageId) lst h.

(** The callback of [updateRecursive] of [createAlbum] on objects;
    [newAlbum] is the location of the new album. *)
Fixpoint createAlbumH_item (fuel : nat) (target : string) (newAlbum : loc)
    (l : loc) (h : heap) : option (loc * heap) :=
  match fuel with
  | O => None
  | S fuel' =>
      item ← h !! l;
      if String.eqb (object_id item) target then
        Some (alloc
                (set_subAlbums
                   (Some (default [] (object_subAlbums item) ++ [newAlbum]))
                   item) h)
      else
        match object_subAlbums item with
        | Some subs =>
            '(subs', h1) ← mapH (createAlbumH_item fuel' target newAlbum) subs h;
            Some (alloc (set_subAlbums (Some subs') item) h1)
        | None => Some (l, h)
        end
  end.

(** [updateRecursive] of [createAlbum] on objects. *)
Definition createAlbum_updateRecursiveH (fuel : nat) (target : string)
    (newAlbum : loc) (lst : list loc) (h : heap) : option (list loc * heap) :=
  mapH (createAlbumH_item fuel target newAlbum) lst h.

(** The callback of [updateRecursive] of [handleFileUpload] on objects. *)
Fixpoint handleFileUploadH_item (fuel : nat) (target : string)
    (newImages : list Image) (l : loc) (h : heap) : option (loc * heap) :=
  match fuel with
  | O => None
  | S fuel' =>
      item ← h !! l;
      if String.eqb (object_id item) target then
        Some (alloc
                (set_images
                   (Some (default [] (object_images item) ++ newImages))
                   item) h)
      else
        match object_subAlbums item with
        | Some subs =>
            '(subs', h1) ←
              mapH (handleFileUploadH_item fuel' target newImages) subs h;
            Some (alloc (set_subAlbums (Some subs') item) h1)
        | None => Some (l, h)
        end
  end.

(** [updateRecursive] of [handleFileUpload] on objects. *)
Definition handleFileUpload_updateRecursiveH (fuel : nat) (target : string)
    (newImages : list Image) (lst : list loc) (h : heap)
  : option (list loc * heap) :=
  mapH (handleFileUploadH_item fuel target newImages) lst h.

(** The tree rewrite of [createAlbum] on objects: the object literal
    [newAlbum], then [[...albums, newAlbum]] or [updateRecursive(albums)];
    [target] is the last segment of the path, if any. *)
Definition createAlbumH (fuel : nat) (rid name : string)
    (target : option string) (albums : list loc) (h : heap)
  : option (list loc * heap) :=
  let '(newAlbum, h1) := alloc (mkObject rid name (Some []) (Some [])) h in
  match target with
  | None => Some (albums ++ [newAlbum], h1)
  | Some t => createAlbum_updateRecursiveH fuel t newAlbum albums h1
  end.

(** The album that the reference [l] denotes in [h], when it is at most
    [fuel] levels deep. *)
Fixpoint read_album (fuel : nat) (h : heap) (l : loc) : option Album :=
  match fuel with
  | O => None
  | S fuel' =>
      item ← h !! l;
      subs ← match object_subAlbums item with
             | Some ls => Some <$> mapM (read_album fuel' h) ls
             | None => Some None
             end;
      Some (mkAlbum (object_id item) (object_name item) (object_images item)
              subs)
  end.

(** The tree that the array [lst] of references denotes in [h]. *)
Definition read_forest (fuel : nat) (h : heap) (lst : list loc)
  : option (list Album) :=
  mapM (read_album fuel h) lst.

(** The locations that [read_album] visits from [l], parents first. *)
Fixpoint locations (fuel : nat) (h : heap) (l : loc) : list loc :=
  match fuel with
  | O => []
  | S fuel' =>
      l :: match h !! l ≫= object_subAlbums with
           | Some ls => flat_map (locations fuel' h) ls
           | None => []
           end
  end.

Definition locations_forest (fuel : nat) (h : heap) (lst : list loc)
  : list loc :=
  flat_map (locations fuel h) lst.

(** The objects of a tree, as [JSON.parse] or the handlers make them: one
    new object for every album. *)
Fixpoint store_album (a : Album) (h : heap) : loc * heap :=
  let '(subs, h1) :=
    match subAlbums a with
    | Some l =>
        let '(ls, h') :=
          (fix store_list (l : list Album) (h : heap) : list loc * heap :=
             match l with
             | [] => ([], h)
             | x :: r =>
                 let '(lx, h1) := store_album x h in
                 let '(lr, h2) := store_list r h1 in
                 (lx :: lr, h2)
             end) l h in
        (Some ls, h')
    | None => (None, h)
    end in
  alloc (mkObject (album_id a) (album_name a) (images a) subs) h1.

Fixpoint store_forest (lst : list Album) (h : heap) : list loc * heap :=
  match lst with
  | [] => ([], h)
  | x :: r =>
      let '(lx, h1) := store_album x h in
      let '(lr, h2) := store_forest r h1 in
      (lx :: lr, h2)
  end.

(** ** Vocabulary of the specification *)

(** Every album of a forest, parents before children, in display order. *)
Fixpoint albums_of (a : Album) : list Album :=
  a :: match subAlbums a with
       | Some subs => flat_map albums_of subs
       | None => []
       end.

Definition all_albums (lst : list Album) : list Album :=
  flat_map albums_of lst.

Definition album_ids (lst : list Album) : list string :=
  map album_id (all_albums lst).

(** The images of an album, a missing array read as the empty one. *)
Definition images_list (a : Album) : list Image := default [] (images a).

Definition image_ids (lst : list Album) : list string :=
  flat_map (λ a, map image_id (images_list a)) (all_albums lst).

(** The identifiers of a forest: of every album, followed by those of its
    images. *)
Definition all_ids (lst : list Album) : list string :=
  flat_map (λ a, album_id a :: map image_id (images_list a)) (all_albums lst).

(** The identifiers below an album: of its images and of the forest of
    its sub-albums. *)
Definition ids_below (a : Album) : list string :=
  map image_id (images_list a) ++ all_ids (default [] (subAlbums a)).

(** [at_most l1 l2]: no identifier occurs more often in [l1] than in
    [l2]. *)
Definition at_most (l1 l2 : list string) : Prop :=
  ∀ x, count_occ string_dec l1 x ≤ count_occ string_dec l2 x.

(** The identifiers that [Math.random] yields from draw [from] up to, and
    without, draw [to]. *)
Definition draws (random : nat → string) (from to : nat) : list string :=
  map random (seq from (to - from)).

(** What the ingestion of a drop does to a target album, as far as
    identifiers go: the reducer state and [Math.random] are left alone,
    draws are only consumed, and when the call returns the target has its
    id and, below it, no identifier more often than before except those
    drawn meanwhile. *)
Definition adds_drawn_ids
    (process : Album → World → Completion Album * World) : Prop :=
  ∀ t w,
    let r := process t w in
    state r.2 = state w ∧ random r.2 = random w ∧ drawn w ≤ drawn r.2 ∧
    ∀ t', r.1 = Returned t' →
          album_id t' = album_id t ∧
          at_most (ids_below t')
            (ids_below t ++ draws (random w) (drawn w) (drawn r.2)).

(** "Identifiers are unique across the whole forest", and every one of
    them is a value that [Math.random] has yielded so far. *)
Definition unique_drawn_ids (w : World) : Prop :=
  NoDup (all_ids (items (state w))) ∧
  ∀ i, i ∈ all_ids (items (state w)) → ∃ k, k < drawn w ∧ random w k = i.

(** "A path is valid only if each id resolves within its parent's
    [subAlbums] at each step": [resolves lst path a] says that [path] is
    valid from [lst] and addresses [a]. *)
Inductive resolves : list Album → list string → Album → Prop :=
  | resolves_last lst i a :
      find_by_id i lst = Some a → resolves lst [i] a
  | resolves_step lst i a rest b :
      find_by_id i lst = Some a →
      resolves (default [] (subAlbums a)) rest b →
      resolves lst (i :: rest) b.

(** "The deepest successfully-resolved album": the album reached by the
    longest prefix of the path that resolves, [current] when not even the
    first segment does. *)
Fixpoint deepest_resolved (current : option Album) (lst : list Album)
    (path : list string) : option Album :=
  match path with
  | [] => current
  | i :: rest =>
      match find_by_id i lst with
      | Some a => deepest_resolved (Some a) (default [] (subAlbums a)) rest
      | None => current
      end
  end.

(** "With entries matching the given id removed": [without_id imageId
    imgs imgs'] says that [imgs'] is [imgs] without the images whose id is
    [imageId], the others in their order. *)
Inductive without_id (imageId : string) : list Image → list Image → Prop :=
  | without_id_nil : without_id imageId [] []
  | without_id_drop img imgs imgs' :
      image_id img = imageId →
      without_id imageId imgs imgs' →
      without_id imageId (img :: imgs) imgs'
  | without_id_keep img imgs imgs' :
      image_id img ≠ imageId →
      without_id imageId imgs imgs' →
      without_id imageId (img :: imgs) (img :: imgs').

(** "Only images lists change": same id, same name, the images without
    those of the given id (a missing array stays missing), and the same
    sub-albums in the same order, each related in the same way. *)
#[warnings="-register-all"]
Inductive images_removed (imageId : string) : Album → Album → Prop :=
  | images_removed_intro a b :
      album_id b = album_id a →
      album_name b = album_name a →
      option_Forall2 (without_id imageId) (images a) (images b) →
      option_Forall2 (Forall2 (images_removed imageId))
        (subAlbums a) (subAlbums b) →
      images_removed imageId a b.

(** "The addressed folder gets the new images after its own and every
    other folder keeps its images": how an album [a] and the album [a'] at
    its place afterwards are related. *)
Definition images_added (target : string) (newImages : list Image)
    (a a' : Album) : Prop :=
  album_id a' = album_id a ∧
  if String.eqb (album_id a) target
  then images_list a' = images_list a ++ newImages
  else images a' = images a.

(** The UTF-8 encoding of a code point, and of a sequence of them. *)
Definition utf8 (cp : N) : string :=
  (if cp <? 0x80 then String (ascii_of_N cp) ""
   else if cp <? 0x800 then
     String (ascii_of_N (0xC0 + cp / 64))
       (String (ascii_of_N (0x80 + cp mod 64)) "")
   else if cp <? 0x10000 then
     String (ascii_of_N (0xE0 + cp / 4096))
       (String (ascii_of_N (0x80 + (cp / 64) mod 64))
          (String (ascii_of_N (0x80 + cp mod 64)) ""))
   else
     String (ascii_of_N (0xF0 + cp / 262144))
       (String (ascii_of_N (0x80 + (cp / 4096) mod 64))
          (String (ascii_of_N (0x80 + (cp / 64) mod 64))
             (String (ascii_of_N (0x80 + cp mod 64)) ""))))%N.

Definition utf8_string (cps : list N) : string :=
  fold_right (λ cp s, utf8 cp +:+ s) "" cps.

(** The white space of JavaScript, code point by code point: TAB, LF, VT,
    FF, CR, SPACE, NO-BREAK SPACE, OGHAM SPACE MARK, EN QUAD to HAIR SPACE,
    LINE SEPARATOR, PARAGRAPH SEPARATOR, NARROW NO-BREAK SPACE, MEDIUM
    MATHEMATICAL SPACE, IDEOGRAPHIC SPACE and ZERO WIDTH NO-BREAK SPACE. *)
Definition white_space : list N :=
  [0x9; 0xA; 0xB; 0xC; 0xD; 0x20; 0xA0; 0x1680;
   0x2000; 0x2001; 0x2002; 0x2003; 0x2004; 0x2005; 0x2006; 0x2007; 0x2008;
   0x2009; 0x200A; 0x2028; 0x2029; 0x202F; 0x205F; 0x3000; 0xFEFF]%N.

(** "Empty or consisting only of whitespace": the string is a sequence,
    that may be empty, of white-space code points. *)
Definition whitespace_only (s : string) : Prop :=
  ∃ cps, Forall (λ cp, cp ∈ white_space) cps ∧ s = utf8_string cps.

(** A name typed with a space, an em space, an ideographic space, a byte
    order mark and a line separator. *)
Definition blank_name : string :=
  utf8_string [0x20; 0x2003; 0x3000; 0xFEFF; 0x2028]%N.

(** A response "of the 500 class": neither 2xx nor 404. *)
Definition server_error (outcome : FetchOutcome) : Prop :=
  ∃ http_status json,
    outcome = Response http_status json ∧
    ok http_status = false ∧ http_status ≠ 404.

(** "Tree in, tree out" for a rewrite on objects.  [result] is what the
    rewrite returned when started in the heap [hbig], of which the part
    [h] holds the input tree, and [read'] reads the output.  The rewrite
    has to return; every object that existed is as it was; and the
    output, which is the expected one, is made of objects of [h] and of
    new objects only. *)
Definition tree_in_tree_out {B C : Type} (h hbig : heap)
    (result : option (C * heap)) (read' : heap → C → option B)
    (expected : B) : Prop :=
  ∃ c hbig' h',
    result = Some (c, hbig') ∧
    h ⊆ h' ∧ h' ⊆ hbig' ∧ hbig ⊆ hbig' ∧
    (∀ k, k ∈ dom h' → k ∈ dom h ∨ k ∉ dom hbig) ∧
    read' h' c = Some expected.

(** The number of levels of a forest. *)
Fixpoint depth_album (a : Album) : nat :=
  S (match subAlbums a with
     | Some subs => list_max (map depth_album subs)
     | None => 0
     end).

Definition depth (lst : list Album) : nat := list_max (map depth_album lst).

(** "A rooted forest (no cycles, no shared ownership)" on objects: no
    album object is reached twice from the array [lst]. *)
Definition unshared (fuel : nat) (h : heap) (lst : list loc) : Prop :=
  NoDup (locations_forest fuel h lst).

(** What [deleteRecursive] makes of the tree it was given: an item with
    the id stays as it is, since it is dropped before anything is written
    to it, and every other item has the albums with the id removed below
    it. *)
Definition deleteRecursive_leaves (i : string) (T : list Album) : list Album :=
  map (λ a, if String.eqb (album_id a) i then a else deleteRecursive_item i a)
    T.

(** ** Sample data *)

Definition sample_image (i : string) : Image :=
  mkImage i (i +:+ ".png") ("blob:" +:+ i) "1.0 KB".

Definition sample_leaf : Album :=
  mkAlbum "b" "Beach" (Some [sample_image "p"]) (Some []).

Definition sample_root : Album :=
  mkAlbum "a" "Holidays" (Some [sample_image "q"]) (Some [sample_leaf]).

Definition sample_forest : list Album := [sample_root].

(** A [Math.random] that never repeats itself. *)
Definition numbered_id (n : nat) : string := "id" +:+ pretty n.

(** A [Math.random] that yields the same value every time. *)
Definition stuck_id (n : nat) : string := "r".

Definition sample_world (albums : list Album) (path : list string)
    (net : nat → FetchOutcome) : World :=
  mkWorld (mkState albums succeeded None false) path "" false false net [] []
    numbered_id 0.

Definition sample_file (n : string) : File :=
  mkFile n "image/png" "2.5" ("blob:" +:+ n).

(** The component as it is mounted, before [fetchAlbums] ran. *)
Definition initial_world (net : nat → FetchOutcome) (random : nat → string)
  : World :=
  mkWorld initialState [] "" false false net [] [] random 0.

(** A store that answers 500 three times and then serves record ["1"]. *)
Definition recovering : nat → FetchOutcome :=
  λ n, if (n <? 3)%nat then Response 500 None
       else Response 200 (Some [mkRemoteRecord "1" (Some sample_forest)]).

(** A store that answers 500 to everything. *)
Definition failing : nat → FetchOutcome := λ _, Response 500 None.

Definition offline : nat → FetchOutcome := λ _, NetworkError.

(** What the ingestion of a drop leaves in place: when the call returns,
    the target has its id, and neither among its images nor in the forest
    of its sub-albums does an identifier occur less often than before. *)
Definition keeps_ids
    (process : Album → World → Completion Album * World) : Prop :=
  ∀ t w t',
    (process t w).1 = Returned t' →
    album_id t' = album_id t ∧
    at_most (map image_id (images_list t)) (map image_id (images_list t')) ∧
    at_most (all_ids (default [] (subAlbums t)))
      (all_ids (default [] (subAlbums t'))).

(** The item of a drop for a plain file. *)
Definition file_item (file : File) : DataTransferItem :=
  mkItem "file" (Some (FileEntry file)).

(** ** Saves in flight

    [persistChanges] calls [syncToBackend] without awaiting it: control
    returns to the component once the PUT is issued, and what
    [syncToBackend] does with the answer runs later, when other saves may
    have been started.  A session is the component together with the
    requests whose answer has been dealt with, by their position in
    [fetched]; [net w i] is the answer to request [i]. *)

(** [persistChanges] up to the first [await] of [syncToBackend]:
    [SET_ITEMS], [SYNC_START], and the PUT is issued. *)
Definition persistChanges_issue (newAlbums : list Album) (w : World) : World :=
  snd (fetch (put_request newAlbums)
         (dispatch SYNC_START (dispatch (SET_ITEMS newAlbums) w))).

Record Session := mkSession {
  world : World;
  settled : list nat
}.

(** What [syncToBackend] goes on with when the answer to request [i]
    arrives.  After its PUT: the POST is issued when the response is not
    ok, otherwise, and when the PUT was rejected, [finally] dispatches
    [SYNC_END].  After its POST: [SYNC_END].  [newAlbums] of the call is
    the tree its PUT carries.  A request that was answered before, or
    that is not of a save, starts nothing. *)
Definition settle (i : nat) (s : Session) : Session :=
  let w := world s in
  if bool_decide (i ∈ settled s) then s
  else
    match fetched w !! i with
    | Some request =>
        match req_method request, req_body request with
        | PUT, DataBody newAlbums =>
            match net w i with
            | Response http_status _ =>
                if negb (ok http_status) then
                  mkSession (snd (fetch (post_request newAlbums) w))
                    (i :: settled s)
                else mkSession (dispatch SYNC_END w) (i :: settled s)
            | NetworkError => mkSession (dispatch SYNC_END w) (i :: settled s)
            end
        | POST, _ => mkSession (dispatch SYNC_END w) (i :: settled s)
        | _, _ => s
        end
    | None => s
    end.

(** What happens to the sync client: [persistChanges] is called, or the
    answer to a request arrives. *)
Inductive Event :=
  | Save (newAlbums : list Album)
  | Answer (i : nat).

Definition step (s : Session) (ev : Event) : Session :=
  match ev with
  | Save newAlbums =>
      mkSession (persistChanges_issue newAlbums (world s)) (settled s)
  | Answer i => settle i s
  end.

Definition interleave (evs : list Event) (s : Session) : Session :=
  fold_left step evs s.


(** A store that has no record 1 yet. *)
Definition empty_store : nat → FetchOutcome := λ _, Response 404 None.

(** ** Navigation handlers and the photo viewer *)

Definition setShowAllNested (b : bool) (w : World) : World :=
  mkWorld (state w) (currentPath w) (newAlbumName w) (isCreatingAlbum w) b
    (net w) (fetched w) (timeouts w) (random w) (drawn w).

(** [navigateUp]; [prev.slice(0, -1)] is [removelast prev]. *)
Definition navigateUp (w : World) : World :=
  setShowAllNested false (setCurrentPath (removelast (currentPath w)) w).

(** The [onClick] of a folder card:
    [setCurrentPath([...currentPath, album.id]); setShowAllNested(false)]. *)
Definition openAlbum (i : string) (w : World) : World :=
  setShowAllNested false (setCurrentPath (currentPath w ++ [i]) w).

(** The [onClick] of the logo and of the "Root" crumb. *)
Definition goToRoot (w : World) : World :=
  setShowAllNested false (setCurrentPath [] w).

(** [activePhotos] as the component computes it from its own state. *)
Definition photos (w : World) : list Photo :=
  activePhotos (showAllNested w) (items (state w)) (currentPath w).

(** [currentItems], the folder cards of the component. *)
Definition cards (w : World) : list Album :=
  visibleAlbums (showAllNested w) (items (state w)) (currentPath w).

(** [navigateViewer(direction)] as the next [viewerIndex]; [None] is
    [null].  The indices are integers far below 2^53, on which the
    remainder operator of JavaScript is [Z.rem] (the sign of the result is
    that of the dividend). *)
Definition navigateViewer (direction : Z) (viewerIndex : option Z) (w : World)
  : option Z :=
  match viewerIndex with
  | None => None
  | Some prev =>
      let n := Z.of_nat (length (photos w)) in
      if (n =? 0)%Z then viewerIndex
      else Some (Z.rem (prev + direction + n) n)
  end.

(** [handleKeyDown] on [e.key], as the next [viewerIndex] and world. *)
Definition handleKeyDown (key : string) (viewerIndex : option Z) (w : World)
  : option Z * World :=
  let '(closed, w1) :=
    if String.eqb key "Escape" then (None, setIsCreatingAlbum false w)
    else (viewerIndex, w) in
  match viewerIndex with
  | Some _ =>
      if String.eqb key "ArrowRight" then (navigateViewer 1 closed w1, w1)
      else if String.eqb key "ArrowLeft" then
        (navigateViewer (-1) closed w1, w1)
      else (closed, w1)
  | None => (closed, w1)
  end.

(** A [viewerIndex] that the grid can have set, or [null]. *)
Definition index_in_range (viewerIndex : option Z) (w : World) : Prop :=
  match viewerIndex with
  | None => True
  | Some k => (0 ≤ k < Z.of_nat (length (photos w)))%Z
  end.

(** ** The second album manager

    The variant with persistent image URLs has the same [fetchWithRetry];
    its reducer and its [fetchAlbums] differ. *)

Module PersistentUrls.

(** [FETCH_SUCCESS] also clears [error]. *)
Definition albumReducer (state : State) (action : Action) : State :=
  match action with
  | FETCH_START => mkState (items state) loading (error state) (syncing state)
  | FETCH_SUCCESS payload => mkState payload succeeded None (syncing state)
  | FETCH_ERROR payload =>
      mkState (items state) failed (Some payload) (syncing state)
  | SYNC_START => mkState (items state) (status state) (error state) true
  | SYNC_END => mkState (items state) (status state) (error state) false
  | SET_ITEMS payload =>
      mkState payload (status state) (error state) (syncing state)
  end.

Definition dispatch (action : Action) (w : World) : World :=
  mkWorld (albumReducer (state w) action) (currentPath w) (newAlbumName w)
    (isCreatingAlbum w) (showAllNested w) (net w) (fetched w) (timeouts w)
    (random w) (drawn w).

(** [fetchAlbums]: [data.find(item => item.id === "1") ||
    data[data.length - 1]], and [catch] dispatches [FETCH_SUCCESS] with
    the empty tree. *)
Definition fetchAlbums (w : World) : World :=
  let w1 := dispatch FETCH_START w in
  match fetchWithRetry (mkRequest GET API_BASE NoBody) 3 500 w1 with
  | (Returned data, w2) =>
      match data with
      | None | Some [] => dispatch (FETCH_SUCCESS []) w2
      | Some records =>
          let remoteEntry :=
            match
              List.find (λ item, String.eqb (record_id item) "1") records
            with
            | Some item => Some item
            | None => last records
            end in
          dispatch (FETCH_SUCCESS (default [] (remoteEntry ≫= record_data))) w2
      end
  | (Thrown, w2) => dispatch (FETCH_SUCCESS []) w2
  end.

End PersistentUrls.

(** ** The retry helper of the copy editor *)

Module CopyEditor.

(** A promise that has settled. *)
Inductive Promise (A : Type) :=
  | Resolves (a : A)
  | Rejects (message : string).
Arguments Resolves {A} a.
Arguments Rejects {A} message.

(** The response that [apiCall] resolves to, with what [response.json()]
    settles to. *)
Record Response (J : Type) := mkResponse {
  resp_ok : bool;
  resp_status : nat;
  statusText : string;
  resp_json : Promise J
}.
Arguments mkResponse {J} _ _ _ _.
Arguments resp_ok {J} _.
Arguments resp_status {J} _.
Arguments statusText {J} _.
Arguments resp_json {J} _.

(** The environment of a call of [withExponentialBackoff]: how many times
    [apiCall] and [Math.random] were called, the messages given to
    [console.warn] and the delays awaited, oldest first.  A delay
    [(base, k)] is [base + r * 1000] for [r] the [k]-th value of
    [Math.random()]. *)
Record Env := mkEnv {
  calls : nat;
  randoms : nat;
  warned : list string;
  waited : list (nat * nat)
}.

(** How the function ends: it returns the parsed body, it returns
    [undefined] (the loop ran out), or it throws. *)
Inductive Outcome (J : Type) :=
  | Json (j : J)
  | Undefined
  | Throws (message : string).
Arguments Json {J} j.
Arguments Undefined {J}.
Arguments Throws {J} message.

Definition failure_message : string :=
  "Failed to connect to the AI service after multiple retries.".

(** The [try] block on what [apiCall()] settled to: the parsed body, or
    the message of the error that [catch] receives.  [attempt ===
    maxRetries - 1] and [attempt < maxRetries - 1] are written [attempt +
    1 = maxRetries] and [attempt + 1 < maxRetries]. *)
Definition attempt_try {J : Type} (attempt maxRetries : nat)
    (settled : Promise (Response J)) : Promise J :=
  match settled with
  | Rejects message => Rejects message
  | Resolves response =>
      if negb (resp_ok response) then
        if (resp_status response =? 429)%nat && (attempt + 1 <? maxRetries)%nat
        then
          Rejects ("Rate limit hit, retrying... (Attempt " +:+
                   pretty (attempt + 1) +:+ ")")
        else
          Rejects ("API error: " +:+ statusText response +:+ " (" +:+
                   pretty (resp_status response) +:+ ")")
      else resp_json response
  end.

(** The loop of [withExponentialBackoff] from [attempt] on; [apiCall k]
    is what the [k]-th call of [apiCall] settles to.  [fuel] bounds the
    iterations that are left. *)
Fixpoint attempts {J : Type} (apiCall : nat → Promise (Response J))
    (fuel attempt maxRetries : nat) (e : Env) : Outcome J * Env :=
  match fuel with
  | O => (Undefined, e)
  | S fuel' =>
      if (attempt <? maxRetries)%nat then
        let settled := apiCall (calls e) in
        let e1 := mkEnv (S (calls e)) (randoms e) (warned e) (waited e) in
        match attempt_try attempt maxRetries settled with
        | Resolves j => (Json j, e1)
        | Rejects message =>
            let e2 :=
              mkEnv (calls e1) (randoms e1) (warned e1 ++ [message])
                (waited e1) in
            if (attempt + 1 =? maxRetries)%nat then
              (Throws failure_message, e2)
            else
              let delay := (2 ^ attempt * 1000, randoms e2) in
              attempts apiCall fuel' (S attempt) maxRetries
                (mkEnv (calls e2) (S (randoms e2)) (warned e2)
                   (waited e2 ++ [delay]))
        end
      else (Undefined, e)
  end.

(** [withExponentialBackoff(apiCall, maxRetries)]: the loop runs at most
    [maxRetries] times. *)
Definition withExponentialBackoff {J : Type}
    (apiCall : nat → Promise (Response J)) (maxRetries : nat) (e : Env)
  : Outcome J * Env :=
  attempts apiCall maxRetries 0 maxRetries e.

(** What a settled call is worth to the caller: the parsed body of an
    [ok] response, or nothing. *)
Definition body_of {J : Type} (settled : Promise (Response J)) : option J :=
  match settled with
  | Resolves response =>
      if resp_ok response then
        match resp_json response with
        | Resolves j => Some j
        | Rejects _ => None
        end
      else None
  | Rejects _ => None
  end.

Definition fresh_env : Env := mkEnv 0 0 [] [].

(** A service that answers 500 three times and then serves a body. *)
Definition failing_service (k : nat) : Promise (Response string) :=
  if (k <? 3)%nat then
    Resolves (mkResponse false 500 "Internal Server Error" (Rejects "no body"))
  else Resolves (mkResponse true 200 "OK" (Resolves "body")).

(** A service that answers 429 twice, then 500, then serves a body. *)
Definition busy_service (k : nat) : Promise (Response string) :=
  if (k <? 2)%nat then
    Resolves (mkResponse false 429 "Too Many Requests" (Rejects "no body"))
  else if (k =? 2)%nat then
    Resolves (mkResponse false 500 "Internal Server Error" (Rejects "no body"))
  else Resolves (mkResponse true 200 "OK" (Resolves "body")).

End CopyEditor.

(* ================================================================== *)
(** * Properties *)

(** ** Induction over forests *)

(** Induction over a forest (a list of albums) and every album inside it. *)
Lemma forest_ind (Q : list Album → Prop) :
  Q [] →
  (∀ i n im r, Q r → Q (mkAlbum i n im None :: r)) →
  (∀ i n im subs r, Q subs → Q r → Q (mkAlbum i n im (Some subs) :: r)) →
  ∀ l, Q l.
Proof.
  intros Hnil Hleaf Hnode.
  assert (Hall : ∀ a, ∀ r, Q r → Q (a :: r)).
  { induction a as [i n im subs IH] using Album_nested_ind.
    intros r Hr. destruct subs as [subs|]; [|by apply Hleaf].
    apply Hnode; [|done]. simpl in IH.
    induction IH as [|x l Hx _ IHl]; [done|]. by apply Hx. }
  induction l as [|a r IHr]; [done|]. by apply Hall.
Qed.

(** ** Navigation *)

Lemma find_by_id_nil i : find_by_id i [] = None.
Proof. reflexivity. Qed.

Lemma getCurrentAlbum_snoc albums prefix i :
  getCurrentAlbum albums (prefix ++ [i]) =
  find_by_id i (snd (fold_left album_step prefix (None, albums))).
Proof.
  unfold getCurrentAlbum.
  destruct (prefix ++ [i]) eqn:E; [by destruct prefix|].
  rewrite <- E, fold_left_app. reflexivity.
Qed.

(** The list that [getCurrentAlbum] searches is the one that
    [getCurrentDirectory] shows, until a segment fails; from then on it is
    empty. *)
Lemma album_walk_dir_walk path :
  ∀ current lst dir,
    lst = dir ∨ lst = [] →
    let lst' := snd (fold_left album_step path (current, lst)) in
    lst' = getCurrentDirectory dir path ∨ lst' = [].
Proof.
  induction path as [|i rest IH]; intros current lst dir H; simpl; [done|].
  apply IH. unfold album_step; simpl.
  destruct H as [->| ->].
  - destruct (find_by_id i dir); simpl; auto.
  - right. reflexivity.
Qed.

Lemma getCurrentAlbum_loop_resolves path :
  ∀ current lst a,
    path ≠ [] →
    fst (fold_left album_step path (current, lst)) = Some a ↔
    resolves lst path a.
Proof.
  induction path as [|i rest IH]; intros current lst a Hne; [done|].
  simpl. unfold album_step at 2; simpl.
  destruct rest as [|j rest'].
  - simpl. split.
    + intros H. by constructor.
    + inversion 1; subst; [done|]. by inversion H5.
  - rewrite IH by done. split.
    + intros H. destruct (find_by_id i lst) as [b|] eqn:E; simpl in H.
      * by eapply resolves_step.
      * inversion H; subst; by rewrite find_by_id_nil in *.
    + inversion 1; subst. by rewrite H3.
Qed.

(** C2, as the code has it: [getCurrentAlbum] returns an album exactly when
    the whole path resolves, segment by segment, and then it is the album
    the path addresses; it returns no album for the empty path and as soon
    as one segment fails to resolve, whatever the prefix before it
    resolved to. *)
Theorem getCurrentAlbum_resolves albums path a :
  getCurrentAlbum albums path = Some a ↔ resolves albums path a.
Proof.
  destruct path as [|i rest].
  - simpl. split; [done | inversion 1].
  - unfold getCurrentAlbum. by apply getCurrentAlbum_loop_resolves.
Qed.

(** C2, refuted as stated: on the path [a / zz] the prefix [a] resolves to
    the album [a], which is what the deepest resolved album is, and
    [getCurrentAlbum] returns no album although the path is not empty. *)
Lemma getCurrentAlbum_partial_path :
  deepest_resolved None sample_forest ["a"; "zz"] = Some sample_root ∧
  getCurrentAlbum sample_forest ["a"; "zz"] = None.
Proof. split; reflexivity. Qed.

(** C3, as the code has it: when the final segment of the path does not
    resolve, no image is shown, and the folder cards are those that the
    path without its final segment shows. *)
Theorem unresolved_segment_view nested albums prefix i :
  find_by_id i (getCurrentDirectory albums prefix) = None →
  activePhotos nested albums (prefix ++ [i]) = [] ∧
  visibleAlbums nested albums (prefix ++ [i]) =
    visibleAlbums nested albums prefix.
Proof.
  intros Hnone. split.
  - unfold activePhotos. rewrite getCurrentAlbum_snoc.
    destruct (album_walk_dir_walk prefix None albums albums (or_introl eq_refl))
      as [-> | ->]; [by rewrite Hnone | done].
  - unfold visibleAlbums, getCurrentDirectory.
    rewrite fold_left_app. simpl.
    fold (getCurrentDirectory albums prefix). by rewrite Hnone.
Qed.

Lemma unresolved_segment_view_witness :
  find_by_id "zz" (getCurrentDirectory sample_forest ["a"]) = None ∧
  activePhotos false sample_forest (["a"] ++ ["zz"]) = [] ∧
  visibleAlbums false sample_forest (["a"] ++ ["zz"]) = [sample_leaf].
Proof.
  split; [reflexivity|].
  destruct (unresolved_segment_view false sample_forest ["a"] "zz" eq_refl)
    as [H1 H2].
  split; [exact H1 | rewrite H2; reflexivity].
Defined.

(** C3, refuted as stated: the final segment [zz] of the path [a / zz]
    does not resolve among the children of [a], and the view still shows
    a folder card. *)
Lemma unresolved_segment_shows_albums :
  find_by_id "zz" (getCurrentDirectory sample_forest ["a"]) = None ∧
  visibleAlbums false sample_forest ["a"; "zz"] ≠ [].
Proof. split; [reflexivity | discriminate]. Qed.

(** ** The state after a save *)

Lemma syncToBackend_try_state t w :
  state (snd (syncToBackend_try t w)) = state w.
Proof.
  unfold syncToBackend_try, fetch; simpl.
  destruct (net w _) as [|st j]; [done|].
  destruct (negb (ok st)); [|done]. simpl.
  by destruct (net w _).
Qed.

Lemma syncToBackend_state t w :
  state (snd (syncToBackend t w)) =
  mkState (items (state w)) (status (state w)) (error (state w)) false.
Proof.
  unfold syncToBackend.
  pose proof (syncToBackend_try_state t (dispatch SYNC_START w)) as H.
  destruct (syncToBackend_try t (dispatch SYNC_START w)) as [c w1].
  simpl in *. by rewrite H.
Qed.

Lemma persistChanges_items t w : items (state (persistChanges t w)) = t.
Proof. unfold persistChanges. by rewrite syncToBackend_state. Qed.

(** ** Deleting an album *)

Lemma deleteRecursive_item_eq i item :
  deleteRecursive_item i item =
  match subAlbums item with
  | Some subs => with_subAlbums item (Some (deleteRecursive i subs))
  | None => item
  end.
Proof.
  destruct item as [j n im [subs|]]; [|done]. simpl.
  unfold with_subAlbums; simpl. do 2 f_equal.
  induction subs as [|x rest IH]; simpl; [done|]. by rewrite IH.
Qed.

Lemma album_ids_cons a r :
  album_ids (a :: r) =
  album_id a :: album_ids (default [] (subAlbums a)) ++ album_ids r.
Proof.
  unfold album_ids, all_albums. simpl. rewrite map_app.
  by destruct a as [j n im [subs|]].
Qed.

Lemma deleteRecursive_cons i x rest :
  deleteRecursive i (x :: rest) =
  if String.eqb (album_id x) i then deleteRecursive i rest
  else deleteRecursive_item i x :: deleteRecursive i rest.
Proof. reflexivity. Qed.

Lemma deleteRecursive_absent i T :
  i ∉ album_ids T → deleteRecursive i T = T.
Proof.
  induction T as [|j n im r IHr|j n im subs r IHs IHr] using forest_ind;
    [done|..]; rewrite album_ids_cons, deleteRecursive_cons;
    rewrite deleteRecursive_item_eq; simpl; intros Hnotin;
    apply not_elem_of_cons in Hnotin as [Hne Hrest];
    apply String.eqb_neq in Hne; rewrite String.eqb_sym, Hne.
  - by rewrite IHr.
  - apply not_elem_of_app in Hrest as [Hs Hr].
    unfold with_subAlbums; simpl. by rewrite IHs, IHr.
Qed.

(** C5: deleting an album id that occurs nowhere in the forest leaves the
    forest as it was: the tree handed to [persistChanges], which becomes
    the new [items], is equal to the old one. *)
Theorem deleteAlbum_absent_id i w :
  i ∉ album_ids (items (state w)) →
  deleteRecursive i (items (state w)) = items (state w) ∧
  items (state (deleteAlbum i w)) = items (state w).
Proof.
  intros H. unfold deleteAlbum. rewrite persistChanges_items.
  split; by apply deleteRecursive_absent.
Qed.

Lemma deleteAlbum_absent_id_witness :
  ("zz" ∉ album_ids sample_forest) ∧
  items (state (deleteAlbum "zz" (sample_world sample_forest [] offline))) =
    sample_forest.
Proof.
  assert (H : "zz" ∉ album_ids sample_forest).
  { apply (bool_decide_unpack _). vm_compute. exact I. }
  split; [exact H|].
  exact (proj2 (deleteAlbum_absent_id "zz"
                  (sample_world sample_forest [] offline) H)).
Defined.

(** ** Deleting an image *)

Lemma filter_without_id imageId imgs :
  without_id imageId imgs (List.filter (keeps_image imageId) imgs).
Proof.
  induction imgs as [|img imgs IH]; simpl; [constructor|].
  unfold keeps_image at 1.
  destruct (String.eqb_spec (image_id img) imageId); simpl;
    by constructor.
Qed.

Lemma deleteFromRecursive_images_removed imageId T :
  Forall2 (images_removed imageId) T (deleteFromRecursive imageId T).
Proof.
  unfold deleteFromRecursive.
  induction T as [|j n im r IHr|j n im subs r IHs IHr] using forest_ind;
    [constructor|..]; simpl; (constructor; [|done]).
  - constructor; simpl; [done|done| |constructor].
    destruct im; constructor. apply filter_without_id.
  - constructor; simpl; [done|done| |by constructor].
    destruct im; constructor. apply filter_without_id.
Qed.

(** C10: [deleteImage] changes images lists only: the new [items] have the
    same albums, nested in the same way and in the same order, with their
    ids and names, and each album's images are its former images without
    those whose id is the given one: every image with that id is dropped
    and every other image is kept, in its place. *)
Theorem deleteImage_only_images imageId w :
  Forall2 (images_removed imageId)
    (items (state w)) (items (state (deleteImage imageId w))).
Proof.
  unfold deleteImage. rewrite persistChanges_items.
  apply deleteFromRecursive_images_removed.
Qed.

(** ** Inserting images *)

Lemma all_albums_cons a r :
  all_albums (a :: r) =
  a :: all_albums (default [] (subAlbums a)) ++ all_albums r.
Proof. by destruct a as [j n im [subs|]]. Qed.

Lemma handleFileUpload_item_eq target imgs item :
  handleFileUpload_item target imgs item =
  if String.eqb (album_id item) target then
    with_images item (Some (images_list item ++ imgs))
  else with_subAlbums item
         (handleFileUpload_updateRecursive target imgs <$> subAlbums item).
Proof.
  destruct item as [j n im [subs|]]; simpl; by destruct (String.eqb j target).
Qed.

Lemma handleFileUpload_absent target imgs T :
  target ∉ album_ids T → handleFileUpload_updateRecursive target imgs T = T.
Proof.
  unfold handleFileUpload_updateRecursive.
  induction T as [|j n im r IHr|j n im subs r IHs IHr] using forest_ind;
    [done|..]; rewrite album_ids_cons, map_cons, handleFileUpload_item_eq;
    simpl; intros Hnotin; apply not_elem_of_cons in Hnotin as [Hne Hrest];
    apply String.eqb_neq in Hne; rewrite String.eqb_sym, Hne.
  - by rewrite IHr.
  - apply not_elem_of_app in Hrest as [Hs Hr].
    unfold with_subAlbums, handleFileUpload_updateRecursive; simpl.
    by rewrite IHs, IHr.
Qed.

Lemma images_added_same target imgs l :
  target ∉ map album_id l → Forall2 (images_added target imgs) l l.
Proof.
  induction l as [|a l IH]; simpl; intros H; [constructor|].
  apply not_elem_of_cons in H as [Hne H].
  constructor; [|by apply IH].
  split; [done|]. apply String.eqb_neq in Hne.
  by rewrite String.eqb_sym, Hne.
Qed.

Lemma count_occ_zero_not_elem_of (l : list string) x :
  count_occ string_dec l x = 0 → x ∉ l.
Proof. intros H. rewrite list_elem_of_In. by apply count_occ_not_In in H. Qed.

Lemma handleFileUpload_images_added target imgs T :
  (count_occ string_dec (album_ids T) target ≤ 1)%nat →
  Forall2 (images_added target imgs)
    (all_albums T) (all_albums (handleFileUpload_updateRecursive target imgs T)).
Proof.
  unfold handleFileUpload_updateRecursive.
  induction T as [|j n im r IHr|j n im subs r IHs IHr] using forest_ind;
    [constructor|..];
    rewrite album_ids_cons, map_cons, !all_albums_cons,
      handleFileUpload_item_eq;
    unfold with_images, with_subAlbums, images_list;
    cbn [album_id album_name images subAlbums default fmap option_fmap
         option_map app];
    destruct (String.eqb_spec j target) as [->|Hne].
  - rewrite count_occ_cons_eq by done. intros Hle. simpl in Hle |- *.
    assert (Hr : target ∉ album_ids r)
      by (apply count_occ_zero_not_elem_of; lia).
    fold (handleFileUpload_updateRecursive target imgs r).
    rewrite handleFileUpload_absent by done.
    constructor; [split; simpl; [done | by rewrite String.eqb_refl]|].
    by apply images_added_same.
  - rewrite count_occ_cons_neq by done. intros Hle. simpl in Hle |- *.
    constructor; [split; simpl; [done|]|by apply IHr].
    apply String.eqb_neq in Hne. by rewrite Hne.
  - rewrite count_occ_cons_eq, count_occ_app by done. intros Hle. simpl in Hle |- *.
    assert (Hs : target ∉ album_ids subs)
      by (apply count_occ_zero_not_elem_of; lia).
    assert (Hr : target ∉ album_ids r)
      by (apply count_occ_zero_not_elem_of; lia).
    fold (handleFileUpload_updateRecursive target imgs r).
    rewrite handleFileUpload_absent by done.
    constructor; [split; simpl; [done | by rewrite String.eqb_refl]|].
    apply images_added_same. unfold album_ids in Hs, Hr.
    rewrite map_app. by apply not_elem_of_app.
  - rewrite count_occ_cons_neq, count_occ_app by done. intros Hle. simpl in Hle |- *.
    constructor.
    + split; simpl; [done|]. apply String.eqb_neq in Hne. by rewrite Hne.
    + apply Forall2_app; [apply IHs | apply IHr]; lia.
Qed.

Lemma newImages_of_spec files :
  ∀ w, length (fst (newImages_of files w)) = length files ∧
       map image_name (fst (newImages_of files w)) = map file_name files.
Proof.
  induction files as [|f rest IH]; intros w; simpl; [done|].
  destruct (IH (snd (random_id w))) as [H1 H2].
  unfold random_id in *; simpl in *.
  destruct (newImages_of rest _) as [imgs w2]. simpl in *.
  split; congruence.
Qed.

(** C6: with a path whose last id is the id of exactly one album of the
    forest, [handleFileUpload] on [k] files builds [k] new images, one per
    file and in the order of the files; in the new [items] the album with
    that id has its former images followed by the new ones, in that
    order, and every other album has the images it had. *)
Theorem handleFileUpload_adds_images files w target :
  last (currentPath w) = Some target →
  count_occ string_dec (album_ids (items (state w))) target = 1 →
  let newImages := (newImages_of files (simulateUpload w)).1 in
  length newImages = length files ∧
  map image_name newImages = map file_name files ∧
  Forall2 (images_added target newImages)
    (all_albums (items (state w)))
    (all_albums (items (state (handleFileUpload files w)))).
Proof.
  intros Hlast Hone newImages. subst newImages.
  destruct (newImages_of_spec files (simulateUpload w)) as [H1 H2].
  do 2 (split; [done|]). clear H1 H2.
  unfold handleFileUpload. rewrite Hlast.
  destruct files as [|f rest].
  - simpl. clear Hlast Hone.
    induction (all_albums (items (state w))) as [|a l IH]; constructor; [|done].
    split; [done|]. destruct (String.eqb _ _); [|done]. by rewrite app_nil_r.
  - destruct (newImages_of (f :: rest) (simulateUpload w)) as [imgs w2].
    rewrite persistChanges_items.
    apply handleFileUpload_images_added. lia.
Qed.

Lemma handleFileUpload_adds_images_witness :
  let w := sample_world sample_forest ["a"; "b"] offline in
  let files := [sample_file "x.png"; sample_file "y.png"] in
  let newImages := (newImages_of files (simulateUpload w)).1 in
  length newImages = 2 ∧
  map image_name newImages = ["x.png"; "y.png"] ∧
  Forall2 (images_added "b" newImages)
    (all_albums sample_forest)
    (all_albums (items (state (handleFileUpload files w)))).
Proof.
  exact (handleFileUpload_adds_images
           [sample_file "x.png"; sample_file "y.png"]
           (sample_world sample_forest ["a"; "b"] offline) "b"
           eq_refl eq_refl).
Defined.

(** ** Creating an album *)

(** [trim] strips the code points listed in [white_space] and no
    other. *)
Lemma is_whitespace_white_space cp :
  is_whitespace cp = true ↔ cp ∈ white_space.
Proof.
  split.
  - unfold is_whitespace.
    rewrite !orb_true_iff, !andb_true_iff, !N.eqb_eq, !N.leb_le. intros H.
    assert (Hcp : (cp = 0x9 ∨ cp = 0xA ∨ cp = 0xB ∨ cp = 0xC ∨ cp = 0xD ∨
                   cp = 0x20 ∨ cp = 0xA0 ∨ cp = 0x1680 ∨ cp = 0x2000 ∨
                   cp = 0x2001 ∨ cp = 0x2002 ∨ cp = 0x2003 ∨ cp = 0x2004 ∨
                   cp = 0x2005 ∨ cp = 0x2006 ∨ cp = 0x2007 ∨ cp = 0x2008 ∨
                   cp = 0x2009 ∨ cp = 0x200A ∨ cp = 0x2028 ∨ cp = 0x2029 ∨
                   cp = 0x202F ∨ cp = 0x205F ∨ cp = 0x3000 ∨ cp = 0xFEFF)%N)
      by lia.
    clear H.
    repeat (destruct Hcp as [->|Hcp];
            [apply (bool_decide_unpack _); vm_compute; exact I|]).
    subst cp. apply (bool_decide_unpack _). vm_compute. exact I.
  - unfold white_space. intros H.
    repeat (apply elem_of_cons in H as [->|H]; [reflexivity|]).
    by apply elem_of_nil in H.
Qed.

Lemma trimStart_white_space cp s :
  cp ∈ white_space → trimStart (utf8 cp +:+ s) = trimStart s.
Proof.
  unfold white_space. intros H.
  repeat (apply elem_of_cons in H as [->|H]; [reflexivity|]).
  by apply elem_of_nil in H.
Qed.

Lemma trimStart_whitespace_only s : whitespace_only s → trimStart s = "".
Proof.
  intros (cps & Hcps & ->).
  induction Hcps as [|cp cps Hcp _ IH]; [done|].
  cbn [utf8_string fold_right]. by rewrite trimStart_white_space.
Qed.

Lemma trim_whitespace_only s : whitespace_only s → trim s = "".
Proof. intros H. unfold trim. by rewrite trimStart_whitespace_only. Qed.

(** C8: [createAlbum] with a name that is empty or made of white space
    only returns at once: nothing of the component or of its environment
    changes; in particular the tree is the same and no request is sent. *)
Theorem createAlbum_blank_name w :
  whitespace_only (newAlbumName w) →
  createAlbum w = w ∧
  items (state (createAlbum w)) = items (state w) ∧
  fetched (createAlbum w) = fetched w.
Proof.
  intros H. unfold createAlbum. by rewrite trim_whitespace_only.
Qed.

Lemma createAlbum_blank_name_witness :
  let w := setNewAlbumName blank_name
             (sample_world sample_forest ["a"] offline) in
  whitespace_only (newAlbumName w) ∧
  items (state (createAlbum w)) = sample_forest ∧
  fetched (createAlbum w) = [].
Proof.
  assert (H : whitespace_only blank_name).
  { exists [0x20; 0x2003; 0x3000; 0xFEFF; 0x2028]%N. split; [|reflexivity].
    apply (bool_decide_unpack _). vm_compute. exact I. }
  split; [exact H|].
  exact (proj2 (createAlbum_blank_name
                  (setNewAlbumName blank_name
                     (sample_world sample_forest ["a"] offline))
                  H)).
Defined.

(** ** Saving *)

(** C9: [syncToBackend] first sends PUT [{ data }] to record 1.  It sends
    POST [{ id: "1", data }] next exactly when the PUT was answered with a
    status that is not 2xx, and nothing else.  However the requests end,
    it completes normally, the tree, the load status and the error of the
    state are what they were, and the tree that [persistChanges] has put
    in the state stays there. *)
Theorem syncToBackend_best_effort t w :
  let put := mkRequest PUT (API_BASE +:+ "/1") (DataBody t) in
  let post := mkRequest POST API_BASE (IdDataBody "1" t) in
  let answer := net w (length (fetched w)) in
  let w' := snd (syncToBackend t w) in
  fst (syncToBackend t w) = Returned () ∧
  items (state w') = items (state w) ∧
  status (state w') = status (state w) ∧
  error (state w') = error (state w) ∧
  items (state (persistChanges t w)) = t ∧
  ((fetched w' = fetched w ++ [put] ∧
    (answer = NetworkError ∨ ∃ st j, answer = Response st j ∧ ok st = true))
   ∨
   (fetched w' = fetched w ++ [put; post] ∧
    ∃ st j, answer = Response st j ∧ ok st = false)).
Proof.
  intros put post answer w'.
  split; [|rewrite persistChanges_items; subst w'; rewrite syncToBackend_state;
           simpl; repeat split].
  - unfold syncToBackend.
    by destruct (syncToBackend_try t (dispatch SYNC_START w)) as [[|] ?].
  - subst answer. unfold syncToBackend, syncToBackend_try, fetch; simpl.
    fold put. fold post.
    destruct (net w (length (fetched w))) as [|st j] eqn:E; simpl.
    + left. split; [done|]. by left.
    + destruct (ok st) eqn:Hok; simpl.
      * left. split; [done|]. right. eauto.
      * right. split; [|eauto].
        rewrite <- app_assoc. simpl.
        by destruct (net w (length (fetched w ++ [put_request t]))).
Qed.

(** ** Loading *)

Lemma server_error_thrown outcome :
  server_error outcome → fetchWithRetry_try outcome = Thrown.
Proof.
  intros (st & j & -> & Hok & Hne). simpl.
  apply Nat.eqb_neq in Hne. by rewrite Hne, Hok.
Qed.

(** When the first attempt and every retry fail, [fetchWithRetry] throws
    after [retries + 1] requests, having waited [backoff], [2 * backoff],
    [4 * backoff], ... between them. *)
Lemma fetchWithRetry_exhausted req retries :
  ∀ backoff w,
    (∀ k, k ≤ retries →
          fetchWithRetry_try (net w (length (fetched w) + k)) = Thrown) →
    let r := fetchWithRetry req retries backoff w in
    fst r = Thrown ∧
    state (snd r) = state w ∧
    fetched (snd r) = fetched w ++ replicate (S retries) req ∧
    timeouts (snd r) =
      timeouts w ++ map (λ k, backoff * 2 ^ k) (seq 0 retries).
Proof.
  induction retries as [|retries IH]; intros backoff w Hfail; simpl.
  - pose proof (Hfail 0 (le_n _)) as H0. rewrite Nat.add_0_r in H0.
    rewrite H0. simpl. by rewrite app_nil_r.
  - pose proof (Hfail 0 (Nat.le_0_l _)) as H0. rewrite Nat.add_0_r in H0.
    rewrite H0.
    set (w2 := setTimeout backoff (snd (fetch req w))).
    destruct (IH (backoff * 2) w2) as (H1 & H2 & H3 & H4).
    { intros k Hk. subst w2. simpl. rewrite length_app. simpl.
      rewrite <- Nat.add_assoc. apply Hfail. simpl. lia. }
    split; [done|]. split; [done|]. split.
    + etrans; [exact H3|]. subst w2. simpl. by rewrite <- app_assoc.
    + etrans; [exact H4|]. subst w2. simpl. rewrite <- app_assoc. simpl.
      do 2 f_equal; [lia|].
      rewrite <- seq_shift, map_map. apply map_ext. intros k. simpl. lia.
Qed.

(** C4, as the code has it: [fetchWithRetry] is called with three retries,
    so four requests are made; when all four are answered with a status
    of the 500 class, [fetchAlbums] ends in the failed status with its
    error message and the tree is the one from before.  The requests are
    four GETs of the collection, 500, 1000 and 2000 ms apart. *)
Theorem fetchAlbums_four_failures w :
  (∀ k, k < 4 → server_error (net w (length (fetched w) + k))) →
  let w' := fetchAlbums w in
  status (state w') = failed ∧
  error (state w') = Some fetch_error_message ∧
  items (state w') = items (state w) ∧
  fetched w' = fetched w ++ replicate 4 (mkRequest GET API_BASE NoBody) ∧
  timeouts w' = timeouts w ++ [500; 1000; 2000].
Proof.
  intros Hfail w'. subst w'. unfold fetchAlbums.
  destruct (fetchWithRetry_exhausted (mkRequest GET API_BASE NoBody) 3 500
              (dispatch FETCH_START w)) as (H1 & H2 & H3 & H4).
  { intros k Hk. apply server_error_thrown. simpl. apply Hfail. lia. }
  destruct (fetchWithRetry _ 3 500 _) as [c w2]. simpl in H1, H2, H3, H4.
  subst c. simpl. by rewrite H2, H3, H4.
Qed.

Lemma fetchAlbums_four_failures_witness :
  let w' := fetchAlbums (initial_world failing (λ _, "r")) in
  status (state w') = failed ∧
  error (state w') = Some fetch_error_message ∧
  items (state w') = [] ∧
  fetched w' = replicate 4 (mkRequest GET API_BASE NoBody) ∧
  timeouts w' = [500; 1000; 2000].
Proof.
  apply (fetchAlbums_four_failures (initial_world failing (λ _, "r"))).
  intros k _. exists 500, None. split; [reflexivity|].
  split; [reflexivity | discriminate].
Defined.

(** C4, refuted as stated: the store answers 500 to the first three GETs
    and [fetchAlbums] goes on to a fourth one; its answer is taken, so the
    load succeeds, no error is recorded and the tree is replaced. *)
Lemma fetchAlbums_three_failures_recover :
  let w := initial_world recovering (λ _, "r") in
  server_error (net w 0) ∧ server_error (net w 1) ∧ server_error (net w 2) ∧
  status (state (fetchAlbums w)) = succeeded ∧
  error (state (fetchAlbums w)) = None ∧
  items (state w) = [] ∧
  items (state (fetchAlbums w)) = sample_forest.
Proof.
  assert (H : server_error (Response 500 None)).
  { exists 500, None. split; [reflexivity|]. split; [reflexivity|discriminate]. }
  repeat split; try exact H; reflexivity.
Qed.

(** ** Albums as objects: reading *)

Lemma alloc_spec o (h : heap) :
  h !! (alloc o h).1 = None ∧
  (alloc o h).2 = <[(alloc o h).1 := o]> h ∧
  h ⊆ (alloc o h).2.
Proof.
  unfold alloc; simpl.
  assert (H : h !! fresh (dom h) = None)
    by (apply not_elem_of_dom, is_fresh).
  split; [done|]. split; [done|]. by apply insert_subseteq.
Qed.

Lemma alter_fresh_subseteq (f : AlbumObject → AlbumObject) l (h h' : heap) :
  h !! l = None → h ⊆ h' → h ⊆ alter f l h'.
Proof.
  intros Hl Hsub. apply map_subseteq_spec. intros k o Hk.
  rewrite lookup_alter_ne by (intros ->; congruence).
  by eapply lookup_weaken.
Qed.

Lemma read_album_S fuel (h : heap) l a :
  read_album (S fuel) h l = Some a ↔
  ∃ item subs,
    h !! l = Some item ∧
    match object_subAlbums item with
    | Some ls => Some <$> mapM (read_album fuel h) ls
    | None => Some None
    end = Some subs ∧
    a = mkAlbum (object_id item) (object_name item) (object_images item) subs.
Proof.
  simpl. split.
  - intros H. destruct (h !! l) as [item|]; simpl in H; [|done].
    destruct (match object_subAlbums item with
              | Some ls => Some <$> mapM (read_album fuel h) ls
              | None => Some None
              end) as [subs|] eqn:E; simpl in H; [|done].
    exists item, subs. by inversion H.
  - intros (item & subs & -> & Hs & ->). simpl. by rewrite Hs.
Qed.

Lemma read_album_heap_mono (h h' : heap) :
  h ⊆ h' →
  ∀ fuel l a, read_album fuel h l = Some a → read_album fuel h' l = Some a.
Proof.
  intros Hsub. induction fuel as [|fuel IH]; intros l a; [done|].
  rewrite !read_album_S. intros (item & subs & Hl & Hs & ->).
  exists item, subs. split; [by eapply lookup_weaken|]. split; [|done].
  destruct (object_subAlbums item) as [ls|]; [|done].
  destruct (mapM (read_album fuel h) ls) as [T|] eqn:E; [|done].
  apply mapM_Some in E.
  assert (E' : mapM (read_album fuel h') ls = Some T).
  { apply mapM_Some. eapply Forall2_impl; [exact E|]. eauto. }
  by rewrite E'.
Qed.

Lemma read_forest_heap_mono (h h' : heap) fuel lst T :
  h ⊆ h' → read_forest fuel h lst = Some T → read_forest fuel h' lst = Some T.
Proof.
  unfold read_forest. intros Hsub H. apply mapM_Some in H. apply mapM_Some.
  eapply Forall2_impl; [exact H|]. intros l a. by apply read_album_heap_mono.
Qed.

Lemma read_album_fuel_mono (h : heap) :
  ∀ fuel l a, read_album fuel h l = Some a → read_album (S fuel) h l = Some a.
Proof.
  induction fuel as [|fuel IH]; intros l a; [done|].
  rewrite (read_album_S (S fuel)), read_album_S.
  intros (item & subs & Hl & Hs & ->).
  exists item, subs. split; [done|]. split; [|done].
  destruct (object_subAlbums item) as [ls|]; [|done].
  destruct (mapM (read_album fuel h) ls) as [T|] eqn:E; [|done].
  apply mapM_Some in E.
  assert (E' : mapM (read_album (S fuel) h) ls = Some T).
  { apply mapM_Some. eapply Forall2_impl; [exact E|]. eauto. }
  by rewrite E'.
Qed.

Lemma read_subAlbums_mono (r r' : loc → option Album) o subs :
  (∀ l a, r l = Some a → r' l = Some a) →
  match o with
  | Some ls => Some <$> mapM r ls
  | None => Some None
  end = Some subs →
  match o with
  | Some ls => Some <$> mapM r' ls
  | None => Some None
  end = Some subs.
Proof.
  intros Hr. destruct o as [ls|]; [|done].
  destruct (mapM r ls) as [T|] eqn:E; [|done].
  apply mapM_Some in E. intros <-.
  assert (E' : mapM r' ls = Some T).
  { apply mapM_Some. eapply Forall2_impl; [exact E|]. eauto. }
  by rewrite E'.
Qed.

(** [lst.map(callback)] is "tree in, tree out" with [map f] when the
    callback is, with [f], on every album; [Inv] is what the callback
    needs of the heap that holds the tree. *)
Lemma mapH_tree_in_tree_out (callback : loc → heap → option (loc * heap))
    (f : Album → Album) (Inv : heap → Prop) fuel fuel' :
  (∀ h h' : heap, Inv h → h ⊆ h' → Inv h') →
  (∀ (h hbig : heap) l a,
     Inv h → h ⊆ hbig → read_album fuel h l = Some a →
     tree_in_tree_out h hbig (callback l hbig) (read_album fuel') (f a)) →
  ∀ lst (h hbig : heap) T,
    Inv h → h ⊆ hbig → read_forest fuel h lst = Some T →
    tree_in_tree_out h hbig (mapH callback lst hbig) (read_forest fuel')
      (map f T).
Proof.
  intros Hinv Hcb. unfold read_forest.
  induction lst as [|l rest IH]; intros h hbig T HI Hsub HT;
    apply mapM_Some in HT.
  - inversion HT; subst. exists [], hbig, h. repeat split; auto.
  - inversion HT as [|? a ? restT Ha Hrest]; subst.
    destruct (Hcb h hbig l a HI Hsub Ha)
      as (l' & hbig1 & h1 & Hc & Hh1 & Hb1 & Hbig1 & Hdom1 & Hr1).
    apply mapM_Some in Hrest.
    apply (read_forest_heap_mono h h1) in Hrest; [|done].
    destruct (IH h1 hbig1 restT (Hinv _ _ HI Hh1) Hb1 Hrest)
      as (rest' & hbig2 & h2 & Hm & Hh2 & Hb2 & Hbig2 & Hdom2 & Hr2).
    exists (l' :: rest'), hbig2, h2.
    split; [by simpl; rewrite Hc; simpl; rewrite Hm|].
    split; [by etrans|]. split; [done|]. split; [by etrans|]. split.
    + intros k Hk. destruct (Hdom2 k Hk) as [Hk1|Hk1]; [by apply Hdom1|].
      right. intros Hin. apply Hk1.
      by eapply (subseteq_dom hbig hbig1).
    + apply mapM_Some. constructor; [|by apply mapM_Some].
      by eapply read_album_heap_mono.
Qed.

#[local] Arguments read_album : simpl never.

(** An object literal after the sub-albums were rewritten. *)
Lemma alloc_tree_in_tree_out (h h1 hbig hb1 : heap) o fuel subs :
  h ⊆ h1 → h1 ⊆ hb1 → hbig ⊆ hb1 →
  (∀ k, k ∈ dom h1 → k ∈ dom h ∨ k ∉ dom hbig) →
  match object_subAlbums o with
  | Some ls => Some <$> mapM (read_album fuel h1) ls
  | None => Some None
  end = Some subs →
  tree_in_tree_out h hbig (Some (alloc o hb1)) (read_album (S fuel))
    (mkAlbum (object_id o) (object_name o) (object_images o) subs).
Proof.
  intros Hh1 Hb1 Hbig Hdom Hsubs.
  destruct (alloc_spec o hb1) as (Hfresh & Heq & Hsub).
  set (n := (alloc o hb1).1) in *.
  assert (Hn1 : h1 !! n = None).
  { destruct (h1 !! n) eqn:E; [|done].
    by rewrite (lookup_weaken _ _ _ _ E Hb1) in Hfresh. }
  exists n, (alloc o hb1).2, (<[n := o]> h1).
  split; [by destruct (alloc o hb1)|].
  split; [etrans; [exact Hh1 | by apply insert_subseteq]|].
  split; [rewrite Heq; by apply insert_mono|].
  split; [by etrans|]. split.
  - intros k Hk. apply elem_of_dom in Hk as [x Hx].
    destruct (decide (k = n)) as [->|Hne].
    + right. intros Hin. apply elem_of_dom in Hin as [y Hy].
      by rewrite (lookup_weaken _ _ _ _ Hy Hbig) in Hfresh.
    + rewrite lookup_insert_ne in Hx by done.
      apply Hdom. by apply elem_of_dom.
  - apply read_album_S. exists o, subs.
    split; [by rewrite lookup_insert_eq|]. split; [|done].
    eapply read_subAlbums_mono; [|exact Hsubs].
    apply read_album_heap_mono. by apply insert_subseteq.
Qed.

Lemma tree_in_tree_out_here (h hbig : heap) l fuel a :
  h ⊆ hbig → read_album fuel h l = Some a →
  tree_in_tree_out h hbig (Some (l, hbig)) (read_album fuel) a.
Proof. intros Hsub Hr. exists l, hbig, h. repeat split; auto. Qed.

Lemma handleFileUploadH_item_ok target imgs :
  ∀ fuel (h hbig : heap) l a,
    h ⊆ hbig → read_album fuel h l = Some a →
    tree_in_tree_out h hbig (handleFileUploadH_item fuel target imgs l hbig)
      (read_album fuel) (handleFileUpload_item target imgs a).
Proof.
  induction fuel as [|fuel IH]; intros h hbig l a Hsub Hread; [done|].
  pose proof Hread as Hread0.
  apply read_album_S in Hread as (item & subs & Hl & Hs & ->).
  rewrite handleFileUpload_item_eq. simpl.
  rewrite (lookup_weaken _ _ _ _ Hl Hsub). simpl.
  destruct (String.eqb (object_id item) target).
  - by apply (alloc_tree_in_tree_out h h hbig hbig
                (set_images _ item) fuel subs); auto.
  - destruct (object_subAlbums item) as [ls|] eqn:Els.
    + destruct (mapM (read_album fuel h) ls) as [T|] eqn:ET; [|done].
      injection Hs as <-.
      destruct (mapH_tree_in_tree_out _ _ (λ _, True) fuel fuel
                  (λ _ _ _ _, I) (λ h hbig l a _, IH h hbig l a)
                  ls h hbig T I Hsub ET)
        as (ls' & hb1 & h1 & Hm & Hh1 & Hb1 & Hbig1 & Hdom1 & Hr1).
      rewrite Hm. simpl.
      apply (alloc_tree_in_tree_out h h1 hbig hb1
               (set_subAlbums (Some ls') item) fuel
               (Some (map (handleFileUpload_item target imgs) T)));
        try done.
      simpl. unfold read_forest in Hr1. by rewrite Hr1.
    + injection Hs as <-. by apply tree_in_tree_out_here.
Qed.

Lemma read_album_fuel_le (h : heap) fuel fuel' l a :
  fuel ≤ fuel' → read_album fuel h l = Some a → read_album fuel' h l = Some a.
Proof.
  induction 1 as [|fuel' _ IH]; [done|].
  intros H. by apply read_album_fuel_mono, IH.
Qed.

Lemma createAlbum_item_eq target nv item :
  createAlbum_item target nv item =
  if String.eqb (album_id item) target then
    with_subAlbums item (Some (default [] (subAlbums item) ++ [nv]))
  else with_subAlbums item
         (createAlbum_updateRecursive target nv <$> subAlbums item).
Proof.
  destruct item as [j n im [subs|]]; simpl; by destruct (String.eqb j target).
Qed.

Lemma createAlbumH_item_ok target n nv :
  ∀ fuel (h hbig : heap) l a,
    read_album 1 h n = Some nv →
    h ⊆ hbig → read_album fuel h l = Some a →
    tree_in_tree_out h hbig (createAlbumH_item fuel target n l hbig)
      (read_album (S fuel)) (createAlbum_item target nv a).
Proof.
  induction fuel as [|fuel IH]; intros h hbig l a Hn Hsub Hread; [done|].
  pose proof Hread as Hread0.
  apply read_album_S in Hread as (item & subs & Hl & Hs & ->).
  rewrite createAlbum_item_eq. simpl.
  rewrite (lookup_weaken _ _ _ _ Hl Hsub). simpl.
  destruct (String.eqb (object_id item) target).
  - apply (alloc_tree_in_tree_out h h hbig hbig
             (set_subAlbums _ item) (S fuel)
             (Some (default [] subs ++ [nv]))); auto.
    simpl.
    assert (E : mapM (read_album (S fuel) h)
                  (default [] (object_subAlbums item) ++ [n]) =
                Some (default [] subs ++ [nv])); [|by rewrite E].
    apply mapM_Some, Forall2_app.
    + destruct (object_subAlbums item) as [ls|]; simpl in *.
      * destruct (mapM (read_album fuel h) ls) as [T|] eqn:ET; [|done].
        injection Hs as <-. simpl. apply mapM_Some in ET.
        eapply Forall2_impl; [exact ET|]. intros ? ?.
        apply read_album_fuel_mono.
      * injection Hs as <-. constructor.
    + constructor; [|constructor].
      eapply read_album_fuel_le; [|exact Hn]. lia.
  - destruct (object_subAlbums item) as [ls|] eqn:Els.
    + destruct (mapM (read_album fuel h) ls) as [T|] eqn:ET; [|done].
      injection Hs as <-.
      destruct (mapH_tree_in_tree_out _ _
                  (λ h : heap, read_album 1 h n = Some nv) fuel (S fuel)
                  (λ h h' Hh Hs, read_album_heap_mono h h' Hs 1 n nv Hh)
                  (λ h hbig l a Hh, IH h hbig l a Hh)
                  ls h hbig T Hn Hsub ET)
        as (ls' & hb1 & h1 & Hm & Hh1 & Hb1 & Hbig1 & Hdom1 & Hr1).
      rewrite Hm. simpl.
      apply (alloc_tree_in_tree_out h h1 hbig hb1
               (set_subAlbums (Some ls') item) (S fuel)
               (Some (map (createAlbum_item target nv) T)));
        try done.
      simpl. unfold read_forest in Hr1. by rewrite Hr1.
    + injection Hs as <-. apply tree_in_tree_out_here; [done|].
      by apply read_album_fuel_mono.
Qed.

(** The copy [{ ...item }] with its images filtered is one new object. *)
Lemma deleteFromRecursiveH_copy imageId item (hbig : heap) :
  let copy :=
    set_images (List.filter (keeps_image imageId) <$> object_images item)
      (mkObject (object_id item) (object_name item) (object_images item)
         (object_subAlbums item)) in
  match object_images item with
  | Some imgs =>
      alter (set_images (Some (List.filter (keeps_image imageId) imgs)))
        (alloc item hbig).1 (alloc item hbig).2
  | None => (alloc item hbig).2
  end = <[fresh (dom hbig) := copy]> hbig.
Proof.
  destruct item as [j n [imgs|] subs]; simpl; [|done].
  by rewrite alter_insert_eq.
Qed.

Lemma deleteFromRecursiveH_item_ok imageId :
  ∀ fuel (h hbig : heap) l a,
    h ⊆ hbig → read_album fuel h l = Some a →
    tree_in_tree_out h hbig (deleteFromRecursiveH_item fuel imageId l hbig)
      (read_album fuel) (deleteFromRecursive_item imageId a).
Proof.
  induction fuel as [|fuel IH]; intros h hbig l a Hsub Hread; [done|].
  apply read_album_S in Hread as (item & subs & Hl & Hs & ->).
  simpl. rewrite (lookup_weaken _ _ _ _ Hl Hsub). simpl.
  pose proof (deleteFromRecursiveH_copy imageId item hbig) as Hcopy.
  simpl in Hcopy. rewrite Hcopy. clear Hcopy.
  set (n := fresh (dom hbig)).
  set (copy := set_images _ _).
  assert (Hn : hbig !! n = None) by apply not_elem_of_dom, is_fresh.
  assert (Hnh : h !! n = None).
  { destruct (h !! n) eqn:E; [|done].
    by rewrite (lookup_weaken _ _ _ _ E Hsub) in Hn. }
  destruct (object_subAlbums item) as [ls|] eqn:Els.
  - destruct (mapM (read_album fuel h) ls) as [T|] eqn:ET; [|done].
    injection Hs as <-.
    assert (Hsub2 : h ⊆ <[n:=copy]> hbig)
      by (etrans; [exact Hsub | by apply insert_subseteq]).
    destruct (mapH_tree_in_tree_out _ _ (λ _, True) fuel fuel
                (λ _ _ _ _, I) (λ h hbig l a _, IH h hbig l a)
                ls h (<[n:=copy]> hbig) T I Hsub2 ET)
      as (ls' & hb3 & h3 & Hm & Hh3 & Hb3 & Hbig3 & Hdom3 & Hr3).
    rewrite Hm. simpl.
    assert (Hn3 : h3 !! n = None).
    { apply not_elem_of_dom. intros Hin.
      destruct (Hdom3 n Hin) as [H|H].
      - by apply not_elem_of_dom in Hnh.
      - apply H, elem_of_dom. by rewrite lookup_insert_eq. }
    assert (Hcopy3 : hb3 !! n = Some copy).
    { eapply lookup_weaken; [|exact Hbig3]. by rewrite lookup_insert_eq. }
    exists n, (alter (set_subAlbums (Some ls')) n hb3),
      (<[n := set_subAlbums (Some ls') copy]> h3).
    split; [done|].
    split; [etrans; [exact Hh3 | by apply insert_subseteq]|].
    split.
    { apply map_subseteq_spec. intros k o Hk.
      destruct (decide (k = n)) as [->|Hne].
      - rewrite lookup_insert_eq in Hk. injection Hk as <-.
        by rewrite lookup_alter_eq, Hcopy3.
      - rewrite lookup_insert_ne in Hk by done.
        rewrite lookup_alter_ne by done. by eapply lookup_weaken. }
    split.
    { apply alter_fresh_subseteq; [done|].
      etrans; [|exact Hbig3]. by apply insert_subseteq. }
    split.
    { intros k Hk. apply elem_of_dom in Hk as [x Hx].
      destruct (decide (k = n)) as [->|Hne].
      - right. by apply not_elem_of_dom.
      - rewrite lookup_insert_ne in Hx by done.
        destruct (Hdom3 k) as [H|H]; [by apply elem_of_dom|by left|].
        right. intros Hin. apply H.
        apply elem_of_dom in Hin as [y Hy]. apply elem_of_dom.
        exists y. by rewrite lookup_insert_ne. }
    apply read_album_S.
    exists (set_subAlbums (Some ls') copy),
      (Some (map (deleteFromRecursive_item imageId) T)).
    split; [by rewrite lookup_insert_eq|]. split.
    + simpl. unfold read_forest in Hr3.
      assert (E : mapM (read_album fuel (<[n:=set_subAlbums (Some ls') copy]> h3))
                    ls' = Some (map (deleteFromRecursive_item imageId) T)).
      { apply mapM_Some. apply mapM_Some in Hr3.
        eapply Forall2_impl; [exact Hr3|]. intros ? ?.
        apply read_album_heap_mono. by apply insert_subseteq. }
      by rewrite E.
    + subst copy. simpl. by destruct (object_images item).
  - injection Hs as <-.
    assert (Halloc : alloc copy hbig = (n, <[n:=copy]> hbig)) by done.
    rewrite <- Halloc.
    assert (Himgs : match object_images item with
                    | Some imgs => Some (List.filter (keeps_image imageId) imgs)
                    | None => None
                    end = object_images copy)
      by (subst copy; simpl; by destruct (object_images item)).
    rewrite Himgs.
    by apply (alloc_tree_in_tree_out h h hbig hbig copy fuel None); auto.
Qed.

(** ** Albums as objects: the input tree after a rewrite *)

Lemma tree_in_tree_out_top (h : heap) lst fuel fuel' T T'
    (result : option (list loc * heap)) :
  read_forest fuel h lst = Some T →
  tree_in_tree_out h h result (read_forest fuel') T' →
  ∃ next h',
    result = Some (next, h') ∧
    read_forest fuel' h' next = Some T' ∧
    read_forest fuel h' lst = Some T ∧
    h ⊆ h'.
Proof.
  intros HT (next & hbig' & h' & -> & Hh & Hb & Hbig & _ & Hr).
  exists next, hbig'. split; [done|].
  split; [exact (read_forest_heap_mono h' hbig' _ _ _ Hb Hr)|].
  split; [exact (read_forest_heap_mono h hbig' _ _ _ Hbig HT)|done].
Qed.

(** [deleteImage] is tree in, tree out: on the objects of a tree [T] it
    returns the objects of [deleteFromRecursive imageId T], and the array
    it was given still denotes [T]. *)
Lemma deleteImage_keeps_input fuel (h : heap) albums T imageId :
  read_forest fuel h albums = Some T →
  ∃ next h',
    deleteFromRecursiveH fuel imageId albums h = Some (next, h') ∧
    read_forest fuel h' next = Some (deleteFromRecursive imageId T) ∧
    read_forest fuel h' albums = Some T ∧
    h ⊆ h'.
Proof.
  intros HT. apply tree_in_tree_out_top; [done|].
  apply (mapH_tree_in_tree_out _ _ (λ _, True) fuel fuel); auto.
  intros ? ? ? ? _. apply deleteFromRecursiveH_item_ok.
Qed.

(** [handleFileUpload] is tree in, tree out. *)
Lemma handleFileUpload_keeps_input fuel (h : heap) albums T target imgs :
  read_forest fuel h albums = Some T →
  ∃ next h',
    handleFileUpload_updateRecursiveH fuel target imgs albums h =
      Some (next, h') ∧
    read_forest fuel h' next =
      Some (handleFileUpload_updateRecursive target imgs T) ∧
    read_forest fuel h' albums = Some T ∧
    h ⊆ h'.
Proof.
  intros HT. apply tree_in_tree_out_top; [done|].
  apply (mapH_tree_in_tree_out _ _ (λ _, True) fuel fuel); auto.
  intros ? ? ? ? _. apply handleFileUploadH_item_ok.
Qed.

(** [createAlbum] is tree in, tree out. *)
Lemma createAlbum_keeps_input fuel (h : heap) albums T rid name target :
  read_forest fuel h albums = Some T →
  let newAlbum := mkAlbum rid name (Some []) (Some []) in
  ∃ next h',
    createAlbumH fuel rid name target albums h = Some (next, h') ∧
    read_forest (S fuel) h' next =
      Some (match target with
            | None => T ++ [newAlbum]
            | Some t => createAlbum_updateRecursive t newAlbum T
            end) ∧
    read_forest fuel h' albums = Some T ∧
    h ⊆ h'.
Proof.
  intros HT newAlbum. unfold createAlbumH.
  set (o := mkObject rid name (Some []) (Some [])).
  destruct (alloc_spec o h) as (Hfresh & Heq & Hsub).
  destruct (alloc o h) as [n h1]. simpl in *. subst h1.
  assert (Hn : read_album 1 (<[n:=o]> h) n = Some newAlbum).
  { apply read_album_S. exists o, (Some []).
    by rewrite lookup_insert_eq. }
  pose proof (read_forest_heap_mono _ _ _ _ _ Hsub HT) as HT1.
  destruct target as [t|].
  - destruct (tree_in_tree_out_top (<[n:=o]> h) albums fuel (S fuel) T
                (createAlbum_updateRecursive t newAlbum T)
                (createAlbum_updateRecursiveH fuel t n albums (<[n:=o]> h))
                HT1) as (next & h' & H1 & H2 & H3 & H4).
    { apply (mapH_tree_in_tree_out _ _
               (λ h : heap, read_album 1 h n = Some newAlbum) fuel (S fuel));
        auto.
      - intros h0 h' Hh Hs. by eapply read_album_heap_mono.
      - intros ? ? ? ? ?. by apply createAlbumH_item_ok. }
    exists next, h'. split; [done|]. split; [done|]. split; [done|].
    by etrans.
  - exists (albums ++ [n]), (<[n:=o]> h). split; [done|].
    split; [|done].
    apply mapM_Some, Forall2_app.
    + apply mapM_Some in HT1. eapply Forall2_impl; [exact HT1|].
      intros ? ?. apply read_album_fuel_mono.
    + constructor; [|constructor].
      eapply read_album_fuel_le; [|exact Hn]. lia.
Qed.

(** ** Deleting an absent album, on objects *)

Lemma set_subAlbums_same o subs :
  object_subAlbums o = Some subs → set_subAlbums (Some subs) o = o.
Proof. destruct o; simpl. by intros ->. Qed.

Lemma deleteRecursiveH_item_S fuel i l (h : heap) :
  deleteRecursiveH_item (S fuel) i l h =
  item ← h !! l;
  if String.eqb (object_id item) i then Some (false, h)
  else
    match object_subAlbums item with
    | Some subs =>
        '(subs', h1) ← filterH (deleteRecursiveH_item fuel i) subs h;
        Some (true, alter (set_subAlbums (Some subs')) l h1)
    | None => Some (true, h)
    end.
Proof. reflexivity. Qed.

Lemma filterH_cons callback l rest (h : heap) :
  filterH callback (l :: rest) h =
  '(keep, h1) ← callback l h;
  '(rest', h2) ← filterH callback rest h1;
  Some (if keep : bool then l :: rest' else rest', h2).
Proof. reflexivity. Qed.

#[local] Arguments deleteRecursiveH_item : simpl never.

(** On the objects of a tree in which the id does not occur,
    [deleteRecursive] keeps every reference and every assignment
    [item.subAlbums = ...] stores the list that was there. *)
Lemma deleteRecursiveH_absent i :
  ∀ fuel (h : heap) lst T,
    read_forest fuel h lst = Some T → i ∉ album_ids T →
    deleteRecursiveH fuel i lst h = Some (lst, h).
Proof.
  unfold deleteRecursiveH, read_forest.
  induction fuel as [|fuel IH]; intros h lst T HT Hi.
  - destruct lst as [|l rest]; [done|].
    apply mapM_Some in HT. inversion HT; subst. done.
  - revert T HT Hi. induction lst as [|l rest IHrest]; intros T HT Hi; [done|].
    apply mapM_Some in HT. inversion HT as [|? a ? restT Ha Hrest]; subst.
    apply mapM_Some in Hrest.
    apply read_album_S in Ha as (item & subs & Hl & Hs & ->).
    rewrite album_ids_cons in Hi. simpl in Hi.
    apply not_elem_of_cons in Hi as [Hne Hi].
    apply not_elem_of_app in Hi as [Hi1 Hi2].
    apply String.eqb_neq in Hne. rewrite String.eqb_sym in Hne.
    rewrite filterH_cons, deleteRecursiveH_item_S, Hl. simpl. rewrite Hne.
    destruct (object_subAlbums item) as [ls|] eqn:Els.
    + destruct (mapM (read_album fuel h) ls) as [subsT|] eqn:ET; [|done].
      injection Hs as <-. simpl in Hi1.
      rewrite (IH h ls subsT ET Hi1). simpl.
      assert (Hh : alter (set_subAlbums (Some ls)) l h = h).
      { apply map_eq. intros k. destruct (decide (k = l)) as [->|Hk].
        - by rewrite lookup_alter_eq, Hl; simpl;
            rewrite set_subAlbums_same.
        - by rewrite lookup_alter_ne. }
      rewrite Hh. by rewrite (IHrest restT Hrest Hi2).
    + simpl. by rewrite (IHrest restT Hrest Hi2).
Qed.

(** ** Deleting an album, on objects *)

#[local] Arguments locations : simpl never.

Lemma locations_S fuel (h : heap) l :
  locations (S fuel) h l =
  l :: match h !! l ≫= object_subAlbums with
       | Some ls => locations_forest fuel h ls
       | None => []
       end.
Proof. reflexivity. Qed.

Lemma mapM_agree {A B} (f g : A → option B) l :
  (∀ x, x ∈ l → f x = g x) → mapM f l = mapM g l.
Proof.
  induction l as [|x l IH]; intros H; simpl; [done|].
  rewrite (H x) by constructor.
  rewrite IH; [done|]. intros y Hy. apply H. by constructor.
Qed.

Lemma flat_map_agree {A B} (f g : A → list B) l :
  (∀ x, x ∈ l → f x = g x) → flat_map f l = flat_map g l.
Proof.
  induction l as [|x l IH]; intros H; simpl; [done|].
  rewrite (H x) by constructor.
  rewrite IH; [done|]. intros y Hy. apply H. by constructor.
Qed.

Lemma elem_of_locations_forest fuel (h : heap) lst k l :
  l ∈ lst → k ∈ locations fuel h l → k ∈ locations_forest fuel h lst.
Proof.
  intros Hl Hk. unfold locations_forest.
  apply list_elem_of_In, in_flat_map. exists l.
  split; by apply list_elem_of_In.
Qed.

(** Reading depends on the visited objects only. *)
Lemma read_album_agree (h h' : heap) :
  ∀ fuel l,
    (∀ k, k ∈ locations fuel h l → h' !! k = h !! k) →
    read_album fuel h' l = read_album fuel h l ∧
    locations fuel h' l = locations fuel h l.
Proof.
  induction fuel as [|fuel IH]; intros l Hagree; [done|].
  rewrite !locations_S in *.
  assert (Hl : h' !! l = h !! l) by (apply Hagree; constructor).
  assert (Hsubs : ∀ ls, h !! l ≫= object_subAlbums = Some ls →
            ∀ c, c ∈ ls → read_album fuel h' c = read_album fuel h c ∧
                          locations fuel h' c = locations fuel h c).
  { intros ls Els c Hc. apply IH. intros k Hk. apply Hagree.
    rewrite Els. right. by eapply elem_of_locations_forest. }
  split.
  - unfold read_album; fold read_album. rewrite Hl.
    destruct (h !! l) as [item|]; simpl in *; [|done].
    destruct (object_subAlbums item) as [ls|]; [|done].
    erewrite (mapM_agree (read_album fuel h')); [done|].
    intros c Hc. by apply (Hsubs ls eq_refl).
  - rewrite Hl. f_equal.
    destruct (h !! l ≫= object_subAlbums) as [ls|]; [|done].
    apply flat_map_agree. intros c Hc. by apply (Hsubs ls eq_refl).
Qed.

Lemma read_forest_agree (h h' : heap) fuel lst :
  (∀ k, k ∈ locations_forest fuel h lst → h' !! k = h !! k) →
  read_forest fuel h' lst = read_forest fuel h lst ∧
  locations_forest fuel h' lst = locations_forest fuel h lst.
Proof.
  intros Hagree.
  assert (H : ∀ l, l ∈ lst →
            read_album fuel h' l = read_album fuel h l ∧
            locations fuel h' l = locations fuel h l).
  { intros l Hl. apply read_album_agree. intros k Hk. apply Hagree.
    by eapply elem_of_locations_forest. }
  split.
  - apply mapM_agree. intros l Hl. by apply H.
  - apply flat_map_agree. intros l Hl. by apply H.
Qed.

Lemma locations_forest_cons fuel (h : heap) l rest :
  locations_forest fuel h (l :: rest) =
  locations fuel h l ++ locations_forest fuel h rest.
Proof. reflexivity. Qed.

Lemma deleteRecursive_leaves_cons i a T :
  deleteRecursive_leaves i (a :: T) =
  (if String.eqb (album_id a) i then a else deleteRecursive_item i a)
    :: deleteRecursive_leaves i T.
Proof. reflexivity. Qed.

(** What [filter] with the callback of [deleteRecursive] does to an
    unshared forest, given what the callback does to an unshared album. *)
Lemma deleteRecursiveH_filter i fuel :
  (∀ (h : heap) l a,
     read_album fuel h l = Some a → NoDup (locations fuel h l) →
     ∃ h',
       deleteRecursiveH_item fuel i l h =
         Some (negb (String.eqb (album_id a) i), h') ∧
       (∀ k, k ∉ locations fuel h l → h' !! k = h !! k) ∧
       (∀ k, k ∈ locations fuel h' l → k ∈ locations fuel h l) ∧
       read_album fuel h' l =
         Some (if String.eqb (album_id a) i then a
               else deleteRecursive_item i a)) →
  ∀ lst (h : heap) T,
    read_forest fuel h lst = Some T → unshared fuel h lst →
    ∃ lst' h',
      deleteRecursiveH fuel i lst h = Some (lst', h') ∧
      (∀ k, k ∉ locations_forest fuel h lst → h' !! k = h !! k) ∧
      (∀ k, k ∈ locations_forest fuel h' lst → k ∈ locations_forest fuel h lst) ∧
      (∀ k, k ∈ locations_forest fuel h' lst' → k ∈ locations_forest fuel h lst) ∧
      read_forest fuel h' lst' = Some (deleteRecursive i T) ∧
      read_forest fuel h' lst = Some (deleteRecursive_leaves i T).
Proof.
  intros Hitem. unfold deleteRecursiveH, unshared.
  induction lst as [|l rest IH]; intros h T HT Hnd.
  - apply mapM_Some in HT. inversion HT; subst. by exists [], h.
  - apply mapM_Some in HT. inversion HT as [|? a ? restT Ha Hrest]; subst.
    apply mapM_Some in Hrest. fold (read_forest fuel h rest) in Hrest.
    rewrite locations_forest_cons in Hnd.
    apply NoDup_app in Hnd as (Hnd1 & Hdisj & Hnd2).
    destruct (Hitem h l a Ha Hnd1) as (h1 & Hcb & Hframe1 & Hlocs1 & Hread1).
    destruct (read_forest_agree h h1 fuel rest) as [Hr1 Hl1].
    { intros k Hk. apply Hframe1. intros Hk'. by apply (Hdisj k). }
    rewrite <- Hr1 in Hrest. rewrite <- Hl1 in Hnd2.
    destruct (IH h1 restT Hrest Hnd2)
      as (rest' & h2 & Hf & Hframe2 & Hlocs2 & Hlocs2' & Hread2 & Hleft2).
    destruct (read_album_agree h1 h2 fuel l) as [Hr2 Hl2].
    { intros k Hk. apply Hframe2. rewrite Hl1. intros Hk'.
      apply (Hdisj k); [by apply Hlocs1|done]. }
    exists (if negb (String.eqb (album_id a) i) then l :: rest' else rest'), h2.
    split; [by rewrite filterH_cons, Hcb; simpl; rewrite Hf|].
    split.
    { intros k Hk. rewrite locations_forest_cons in Hk.
      apply not_elem_of_app in Hk as [Hk1 Hk2].
      rewrite Hframe2 by (by rewrite Hl1). by apply Hframe1. }
    assert (Hin : ∀ k, k ∈ locations_forest fuel h2 (l :: rest) →
                       k ∈ locations_forest fuel h (l :: rest)).
    { intros k. rewrite !locations_forest_cons, !elem_of_app, Hl2.
      intros [Hk|Hk]; [left; by apply Hlocs1|right].
      rewrite <- Hl1. by apply Hlocs2. }
    split; [done|]. split.
    { intros k Hk. destruct (String.eqb (album_id a) i); cbn [negb] in Hk.
      - rewrite locations_forest_cons, elem_of_app. right.
        rewrite <- Hl1. by apply Hlocs2'.
      - rewrite locations_forest_cons, elem_of_app in Hk.
        rewrite locations_forest_cons, elem_of_app, <- Hl1.
        destruct Hk as [Hk|Hk]; [left|right; by apply Hlocs2'].
        rewrite Hl2 in Hk. by apply Hlocs1. }
    rewrite deleteRecursive_cons, deleteRecursive_leaves_cons.
    unfold read_forest in *. split.
    + destruct (String.eqb (album_id a) i); simpl; [done|].
      by rewrite Hr2, Hread1, Hread2.
    + simpl. by rewrite Hr2, Hread1, Hleft2.
Qed.

Lemma deleteRecursiveH_item_spec i :
  ∀ fuel (h : heap) l a,
    read_album fuel h l = Some a → NoDup (locations fuel h l) →
    ∃ h',
      deleteRecursiveH_item fuel i l h =
        Some (negb (String.eqb (album_id a) i), h') ∧
      (∀ k, k ∉ locations fuel h l → h' !! k = h !! k) ∧
      (∀ k, k ∈ locations fuel h' l → k ∈ locations fuel h l) ∧
      read_album fuel h' l =
        Some (if String.eqb (album_id a) i then a
              else deleteRecursive_item i a).
Proof.
  induction fuel as [|fuel IH]; intros h l a Hread Hnd; [done|].
  pose proof Hread as Hread0.
  apply read_album_S in Hread as (item & subs & Hl & Hs & ->).
  rewrite deleteRecursiveH_item_S, Hl. cbn [album_id mbind option_bind].
  destruct (String.eqb (object_id item) i); [by exists h|].
  rewrite deleteRecursive_item_eq. cbn [subAlbums negb].
  rewrite locations_S, Hl in Hnd. cbn [mbind option_bind] in Hnd.
  destruct (object_subAlbums item) as [ls|] eqn:Els;
    [|injection Hs as <-; by exists h].
  destruct (mapM (read_album fuel h) ls) as [subsT|] eqn:ET; [|done].
  injection Hs as <-.
  apply NoDup_cons in Hnd as [Hl_notin Hnd].
  destruct (deleteRecursiveH_filter i fuel (IH) ls h subsT ET Hnd)
    as (ls' & h1 & Hf & Hframe & _ & Hlocs' & Hread' & _).
  unfold deleteRecursiveH in Hf. rewrite Hf. cbn [mbind option_bind].
  set (h' := alter (set_subAlbums (Some ls')) l h1).
  assert (Hl1 : h1 !! l = Some item) by (by rewrite Hframe).
  assert (Hl' : h' !! l = Some (set_subAlbums (Some ls') item))
    by (subst h'; by rewrite lookup_alter_eq, Hl1).
  destruct (read_forest_agree h1 h' fuel ls') as [Hr Hlc].
  { intros k Hk. subst h'. apply lookup_alter_ne.
    intros ->. by apply Hl_notin, Hlocs'. }
  exists h'. split; [done|]. split; [|split].
  - intros k Hk. rewrite locations_S, Hl in Hk. cbn [mbind option_bind] in Hk.
    rewrite Els in Hk. apply not_elem_of_cons in Hk as [Hne Hk].
    subst h'. rewrite lookup_alter_ne by done. by apply Hframe.
  - intros k. rewrite !locations_S, Hl, Hl'.
    cbn [mbind option_bind set_subAlbums object_subAlbums]. rewrite Els.
    rewrite !elem_of_cons, Hlc. intros [->|Hk]; [by left|right].
    by apply Hlocs'.
  - apply read_album_S. exists (set_subAlbums (Some ls') item),
      (Some (deleteRecursive i subsT)).
    split; [done|]. split; [|done].
    cbn [set_subAlbums object_subAlbums].
    unfold read_forest in Hr, Hread'. by rewrite Hr, Hread'.
Qed.

(** [deleteAlbum] on objects, for a forest in which no album object is
    shared: [deleteRecursive([...albums])] returns the objects of
    [deleteRecursive i T], which is the tree the properties above take as
    its result, and it leaves the array it was given denoting
    [deleteRecursive_leaves i T]: every kept album of the input has lost
    the albums with the id below it. *)
Lemma deleteAlbum_on_objects fuel (h : heap) albums T i :
  read_forest fuel h albums = Some T → unshared fuel h albums →
  ∃ next h',
    deleteRecursiveH fuel i albums h = Some (next, h') ∧
    read_forest fuel h' next = Some (deleteRecursive i T) ∧
    read_forest fuel h' albums = Some (deleteRecursive_leaves i T).
Proof.
  intros HT Hun.
  destruct (deleteRecursiveH_filter i fuel
              (deleteRecursiveH_item_spec i fuel) albums h T HT Hun)
    as (next & h' & Hf & _ & _ & _ & Hread & Hleft).
  by exists next, h'.
Qed.

(** ** Storing a tree as objects *)

Lemma store_album_eq a (h : heap) :
  store_album a h =
  let '(subs, h1) :=
    match subAlbums a with
    | Some l => let '(ls, h') := store_forest l h in (Some ls, h')
    | None => (None, h)
    end in
  alloc (mkObject (album_id a) (album_name a) (images a) subs) h1.
Proof.
  destruct a as [j n im [subs|]]; simpl; [|done].
  assert (E : ∀ l h0,
    (fix store_list (l : list Album) (h : heap) : list loc * heap :=
       match l with
       | [] => ([], h)
       | x :: r =>
           let '(lx, h1) := store_album x h in
           let '(lr, h2) := store_list r h1 in
           (lx :: lr, h2)
       end) l h0 = store_forest l h0); [|by rewrite E].
  induction l as [|x r IH]; intros h0; simpl; [done|].
  destruct (store_album x h0) as [lx h1]. by rewrite IH.
Qed.

Lemma read_album_defined (h : heap) :
  ∀ fuel l a,
    read_album fuel h l = Some a →
    ∀ k, k ∈ locations fuel h l → is_Some (h !! k).
Proof.
  induction fuel as [|fuel IH]; intros l a Hread k Hk; [done|].
  apply read_album_S in Hread as (item & subs & Hl & Hs & ->).
  rewrite locations_S, Hl in Hk. cbn [mbind option_bind] in Hk.
  apply elem_of_cons in Hk as [->|Hk]; [by eexists|].
  destruct (object_subAlbums item) as [ls|]; [|by apply elem_of_nil in Hk].
  destruct (mapM (read_album fuel h) ls) as [T|] eqn:ET; [|done].
  apply mapM_Some in ET.
  apply list_elem_of_In, in_flat_map in Hk as (c & Hc & Hk).
  apply list_elem_of_In in Hc, Hk.
  apply list_elem_of_lookup in Hc as [n Hn].
  destruct (Forall2_lookup_l _ _ _ n c ET Hn) as (b & _ & Hb).
  by eapply IH.
Qed.

Lemma list_max_cons_le x l fuel :
  list_max (x :: l) ≤ fuel → x ≤ fuel ∧ list_max l ≤ fuel.
Proof. simpl. lia. Qed.

Lemma read_forest_defined (h : heap) fuel lst T :
  read_forest fuel h lst = Some T →
  ∀ k, k ∈ locations_forest fuel h lst → is_Some (h !! k).
Proof.
  intros HT k Hk. apply mapM_Some in HT.
  apply list_elem_of_In, in_flat_map in Hk as (c & Hc & Hk).
  apply list_elem_of_In in Hc, Hk.
  apply list_elem_of_lookup in Hc as [n Hn].
  destruct (Forall2_lookup_l _ _ _ n c HT Hn) as (b & _ & Hb).
  by eapply read_album_defined.
Qed.

Lemma lookup_None_weaken (h0 h : heap) k :
  h0 ⊆ h → h !! k = None → h0 !! k = None.
Proof.
  intros Hsub Hk. destruct (h0 !! k) eqn:E; [|done].
  by rewrite (lookup_weaken _ _ _ _ E Hsub) in Hk.
Qed.

Lemma store_forest_spec T :
  Forall (λ a, ∀ (h0 : heap) fuel,
            depth_album a ≤ fuel →
            let r := store_album a h0 in
            h0 ⊆ r.2 ∧ read_album fuel r.2 r.1 = Some a ∧
            NoDup (locations fuel r.2 r.1) ∧
            ∀ k, k ∈ locations fuel r.2 r.1 → h0 !! k = None) T →
  ∀ (h0 : heap) fuel,
    depth T ≤ fuel →
    let r := store_forest T h0 in
    h0 ⊆ r.2 ∧ read_forest fuel r.2 r.1 = Some T ∧
    unshared fuel r.2 r.1 ∧
    ∀ k, k ∈ locations_forest fuel r.2 r.1 → h0 !! k = None.
Proof.
  unfold unshared.
  induction 1 as [|x r Hx _ IH]; intros h0 fuel Hfuel; cbn [store_forest].
  { cbn [fst snd]. repeat split; [done|constructor|].
    intros k Hk. by apply elem_of_nil in Hk. }
  apply list_max_cons_le in Hfuel as [Hfx Hfr].
  specialize (Hx h0 fuel Hfx). cbv zeta in Hx.
  destruct (store_album x h0) as [lx h1].
  destruct Hx as (Hsub1 & Hread1 & Hnd1 & Hfresh1).
  specialize (IH h1 fuel Hfr). cbv zeta in IH.
  destruct (store_forest r h1) as [lr h2].
  destruct IH as (Hsub2 & Hread2 & Hnd2 & Hfresh2). cbn [fst snd] in *.
  destruct (read_album_agree h1 h2 fuel lx) as [_ Hlocs].
  { intros k Hk.
    destruct (read_album_defined h1 fuel lx x Hread1 k Hk) as [o Ho].
    by rewrite Ho, (lookup_weaken _ _ _ _ Ho Hsub2). }
  split; [by etrans|]. split; [|split].
  - unfold read_forest in *. simpl.
    by rewrite (read_album_heap_mono h1 h2 Hsub2 fuel lx x Hread1), Hread2.
  - rewrite locations_forest_cons, Hlocs. apply NoDup_app.
    split; [done|]. split; [|done].
    intros k Hk Hk'. apply Hfresh2 in Hk'.
    destruct (read_album_defined h1 fuel lx x Hread1 k Hk) as [o Ho].
    congruence.
  - intros k. rewrite locations_forest_cons, Hlocs, elem_of_app.
    intros [Hk|Hk]; [by apply Hfresh1|].
    eapply lookup_None_weaken; [exact Hsub1|by apply Hfresh2].
Qed.

Lemma store_album_spec a :
  ∀ (h0 : heap) fuel,
    depth_album a ≤ fuel →
    let r := store_album a h0 in
    h0 ⊆ r.2 ∧ read_album fuel r.2 r.1 = Some a ∧
    NoDup (locations fuel r.2 r.1) ∧
    ∀ k, k ∈ locations fuel r.2 r.1 → h0 !! k = None.
Proof.
  induction a as [j n im subs IH] using Album_nested_ind.
  intros h0 fuel Hfuel. rewrite store_album_eq.
  destruct fuel as [|fuel]; [simpl in Hfuel; lia|].
  cbn [depth_album subAlbums album_id album_name images] in *.
  apply Nat.succ_le_mono in Hfuel.
  destruct subs as [subs|]; cbn [default from_option id] in IH.
  - pose proof (store_forest_spec subs IH h0 fuel Hfuel) as Hsubs.
    cbv zeta in Hsubs. destruct (store_forest subs h0) as [ls h1].
    destruct Hsubs as (Hsub1 & Hread1 & Hnd1 & Hfresh1). cbn [fst snd] in *.
    set (o := mkObject j n im (Some ls)).
    destruct (alloc_spec o h1) as (Hfresh & Heq & Hsub2).
    destruct (alloc o h1) as [l h2]. cbn [fst snd] in *. subst h2.
    destruct (read_forest_agree h1 (<[l:=o]> h1) fuel ls) as [_ Hlocs].
    { intros k Hk.
      destruct (read_forest_defined h1 fuel ls subs Hread1 k Hk) as [x Hx].
      by rewrite Hx, (lookup_weaken _ _ _ _ Hx Hsub2). }
    assert (Hl : l ∉ locations_forest fuel h1 ls).
    { intros Hk.
      destruct (read_forest_defined h1 fuel ls subs Hread1 l Hk) as [x Hx].
      congruence. }
    split; [by etrans|]. split; [|split].
    + apply read_album_S. exists o, (Some subs).
      split; [by rewrite lookup_insert_eq|]. split; [|done]. simpl.
      pose proof (read_forest_heap_mono _ _ _ _ _ Hsub2 Hread1) as Hr.
      unfold read_forest in Hr. by rewrite Hr.
    + rewrite locations_S, lookup_insert_eq. simpl. rewrite Hlocs.
      by apply NoDup_cons.
    + intros k. rewrite locations_S, lookup_insert_eq. simpl. rewrite Hlocs.
      intros [->|Hk]%elem_of_cons; [|by apply Hfresh1].
      by eapply lookup_None_weaken.
  - set (o := mkObject j n im None).
    destruct (alloc_spec o h0) as (Hfresh & Heq & Hsub2).
    destruct (alloc o h0) as [l h2]. cbn [fst snd] in *. subst h2.
    split; [done|]. split; [|split].
    + apply read_album_S. exists o, None. by rewrite lookup_insert_eq.
    + rewrite locations_S, lookup_insert_eq. simpl.
      apply NoDup_singleton.
    + intros k. rewrite locations_S, lookup_insert_eq. simpl.
      by intros ->%list_elem_of_singleton.
Qed.

(** Every tree has its objects: stored as [JSON.parse] would make them,
    the array denotes the tree and no object is shared. *)
Lemma store_forest_unshared T (h0 : heap) :
  let r := store_forest T h0 in
  h0 ⊆ r.2 ∧ read_forest (depth T) r.2 r.1 = Some T ∧
  unshared (depth T) r.2 r.1.
Proof.
  destruct (store_forest_spec T) with (h0 := h0) (fuel := depth T)
    as (H1 & H2 & H3 & _); [|done|done].
  apply Forall_forall. intros a _. apply store_album_spec.
Qed.

(** [deleteAlbum] on the objects of any tree [T]: the call returns the
    objects of [deleteRecursive i T] and leaves the array it was given
    denoting [deleteRecursive_leaves i T]. *)
Lemma deleteAlbum_on_stored T i :
  let albums := (store_forest T ∅).1 in
  let h := (store_forest T ∅).2 in
  read_forest (depth T) h albums = Some T ∧
  ∃ next h',
    deleteRecursiveH (depth T) i albums h = Some (next, h') ∧
    read_forest (depth T) h' next = Some (deleteRecursive i T) ∧
    read_forest (depth T) h' albums = Some (deleteRecursive_leaves i T).
Proof.
  intros albums h.
  destruct (store_forest_unshared T ∅) as (_ & Hread & Hun).
  split; [done|]. by apply deleteAlbum_on_objects.
Qed.

(** C1 fails for [deleteAlbum].  The tree [Holidays / Beach] is stored as
    objects, none of them shared, and [deleteRecursive] is run on
    [[...albums]] to delete [Beach].  It returns the objects of the tree
    without [Beach]; and the array [albums] it was given, which denoted
    the whole tree before, denotes the tree without [Beach] afterwards:
    [item.subAlbums = ...] wrote to the album object of the input. *)
Theorem deleteAlbum_writes_to_input :
  let albums := (store_forest sample_forest ∅).1 in
  let h := (store_forest sample_forest ∅).2 in
  read_forest 2 h albums = Some sample_forest ∧
  unshared 2 h albums ∧
  ∃ next h',
    deleteRecursiveH 2 "b" albums h = Some (next, h') ∧
    read_forest 2 h' next = Some (deleteRecursive "b" sample_forest) ∧
    read_forest 2 h' albums = Some [with_subAlbums sample_root (Some [])] ∧
    read_forest 2 h' albums ≠ read_forest 2 h albums.
Proof.
  split; [by vm_compute|].
  split; [apply (bool_decide_unpack _); by vm_compute|].
  eexists _, _. split; [by vm_compute|].
  split; [by vm_compute|]. split; [by vm_compute|].
  vm_compute. discriminate.
Qed.

(** ** Identifiers *)

#[local] Arguments all_ids : simpl never.

Lemma all_ids_app l1 l2 : all_ids (l1 ++ l2) = all_ids l1 ++ all_ids l2.
Proof. unfold all_ids, all_albums. by rewrite !flat_map_app. Qed.

Lemma all_ids_cons a r :
  all_ids (a :: r) = [album_id a] ++ ids_below a ++ all_ids r.
Proof.
  unfold ids_below, all_ids. rewrite all_albums_cons. simpl.
  by rewrite flat_map_app, <- app_assoc.
Qed.

Lemma count_occ_singleton (x y : string) :
  count_occ string_dec (x :: nil) y ≤ 1.
Proof. simpl. destruct (string_dec x y); lia. Qed.

Lemma cons_as_app {A} (x : A) l : x :: l = [x] ++ l.
Proof. reflexivity. Qed.

(** Counting an identifier in lists put together from forests. *)
Ltac count_ids :=
  repeat first
    [ rewrite all_ids_cons | rewrite all_ids_app | rewrite count_occ_app
    | rewrite map_app | progress unfold ids_below, images_list
    | progress cbn [album_id album_name images subAlbums images_list default
                    from_option id with_images with_subAlbums] ].

Lemma at_most_refl l : at_most l l.
Proof. by intros x. Qed.

Lemma at_most_NoDup l1 l2 : at_most l1 l2 → NoDup l2 → NoDup l1.
Proof.
  intros Hle Hnd. apply NoDup_ListNoDup, (NoDup_count_occ string_dec).
  intros x. apply NoDup_ListNoDup in Hnd.
  pose proof (proj1 (NoDup_count_occ string_dec l2) Hnd x).
  specialize (Hle x). lia.
Qed.

Lemma at_most_elem_of l1 l2 x : at_most l1 l2 → x ∈ l1 → x ∈ l2.
Proof.
  intros Hle Hin. apply list_elem_of_In.
  apply list_elem_of_In, (count_occ_In string_dec) in Hin.
  apply (count_occ_In string_dec). specialize (Hle x). lia.
Qed.

Lemma album_ids_at_most_all_ids T : at_most (album_ids T) (all_ids T).
Proof.
  induction T as [|j n im r IHr|j n im subs r IHs IHr] using forest_ind;
    [by intros x|..]; intros x; rewrite album_ids_cons; count_ids;
    rewrite (cons_as_app j), !count_occ_app.
  - specialize (IHr x). simpl. lia.
  - specialize (IHr x). specialize (IHs x). lia.
Qed.

Lemma filter_ids_at_most imageId imgs :
  at_most (map image_id (List.filter (keeps_image imageId) imgs))
    (map image_id imgs).
Proof.
  intros x. induction imgs as [|img imgs IH]; simpl; [done|].
  destruct (keeps_image imageId img); simpl;
    destruct (string_dec (image_id img) x); lia.
Qed.

Lemma deleteRecursive_at_most i T :
  at_most (all_ids (deleteRecursive i T)) (all_ids T).
Proof.
  induction T as [|j n im r IHr|j n im subs r IHs IHr] using forest_ind;
    [by intros x|..]; intros x; rewrite deleteRecursive_cons;
    rewrite deleteRecursive_item_eq; cbn [album_id subAlbums];
    destruct (String.eqb j i); count_ids;
    specialize (IHr x); try specialize (IHs x); lia.
Qed.

Lemma deleteFromRecursive_at_most imageId T :
  at_most (all_ids (deleteFromRecursive imageId T)) (all_ids T).
Proof.
  unfold deleteFromRecursive.
  induction T as [|j n im r IHr|j n im subs r IHs IHr] using forest_ind;
    [by intros x|..]; intros x; rewrite map_cons;
    cbn [deleteFromRecursive_item album_id album_name images subAlbums];
    count_ids; specialize (IHr x); try specialize (IHs x);
    (destruct im as [imgs|]; cbn [default from_option id];
     [pose proof (filter_ids_at_most imageId imgs x)|]); lia.
Qed.

Lemma createAlbum_absent target nv T :
  target ∉ album_ids T → createAlbum_updateRecursive target nv T = T.
Proof.
  unfold createAlbum_updateRecursive.
  induction T as [|j n im r IHr|j n im subs r IHs IHr] using forest_ind;
    [done|..]; rewrite album_ids_cons, map_cons, createAlbum_item_eq;
    simpl; intros Hnotin; apply not_elem_of_cons in Hnotin as [Hne Hrest];
    apply String.eqb_neq in Hne; rewrite String.eqb_sym, Hne.
  - by rewrite IHr.
  - apply not_elem_of_app in Hrest as [Hs Hr].
    unfold with_subAlbums, createAlbum_updateRecursive; simpl.
    by rewrite IHs, IHr.
Qed.

Lemma createAlbum_at_most target nv T :
  count_occ string_dec (album_ids T) target ≤ 1 →
  at_most (all_ids (createAlbum_updateRecursive target nv T))
    (all_ids T ++ all_ids [nv]).
Proof.
  unfold createAlbum_updateRecursive.
  induction T as [|j n im r IHr|j n im subs r IHs IHr] using forest_ind;
    [by intros _ x; rewrite count_occ_app; simpl; lia|..];
    rewrite album_ids_cons, map_cons, createAlbum_item_eq;
    cbn [album_id subAlbums default from_option id fmap option_fmap option_map];
    destruct (String.eqb_spec j target) as [->|Hne].
  - rewrite count_occ_cons_eq by done. intros Hle x.
    fold (createAlbum_updateRecursive target nv r).
    rewrite createAlbum_absent
      by (apply count_occ_zero_not_elem_of; simpl in Hle; lia).
    count_ids. lia.
  - rewrite count_occ_cons_neq by done. intros Hle x.
    specialize (IHr Hle x). revert IHr. count_ids. lia.
  - rewrite count_occ_cons_eq, count_occ_app by done. intros Hle x.
    fold (createAlbum_updateRecursive target nv r).
    rewrite createAlbum_absent
      by (apply count_occ_zero_not_elem_of; simpl in Hle; lia).
    count_ids. lia.
  - rewrite count_occ_cons_neq, count_occ_app by done. intros Hle x.
    fold (createAlbum_updateRecursive target nv subs) in *.
    fold (createAlbum_updateRecursive target nv r) in *.
    destruct (count_occ string_dec (album_ids subs) target) eqn:Es.
    + rewrite (createAlbum_absent target nv subs)
        by (by apply count_occ_zero_not_elem_of).
      specialize (IHr ltac:(simpl in Hle; lia) x). revert IHr. count_ids. lia.
    + rewrite (createAlbum_absent target nv r)
        by (apply count_occ_zero_not_elem_of; simpl in Hle; lia).
      specialize (IHs ltac:(simpl in Hle; lia) x). revert IHs. count_ids. lia.
Qed.

Lemma handleFileUpload_at_most target imgs T :
  count_occ string_dec (album_ids T) target ≤ 1 →
  at_most (all_ids (handleFileUpload_updateRecursive target imgs T))
    (all_ids T ++ map image_id imgs).
Proof.
  unfold handleFileUpload_updateRecursive.
  induction T as [|j n im r IHr|j n im subs r IHs IHr] using forest_ind;
    [by intros _ x; rewrite count_occ_app; simpl; lia|..];
    rewrite album_ids_cons, map_cons, handleFileUpload_item_eq;
    cbn [album_id subAlbums default from_option id fmap option_fmap option_map];
    destruct (String.eqb_spec j target) as [->|Hne].
  - rewrite count_occ_cons_eq by done. intros Hle x.
    fold (handleFileUpload_updateRecursive target imgs r).
    rewrite handleFileUpload_absent
      by (apply count_occ_zero_not_elem_of; simpl in Hle; lia).
    count_ids. lia.
  - rewrite count_occ_cons_neq by done. intros Hle x.
    specialize (IHr Hle x). revert IHr. count_ids. lia.
  - rewrite count_occ_cons_eq, count_occ_app by done. intros Hle x.
    fold (handleFileUpload_updateRecursive target imgs r).
    rewrite handleFileUpload_absent
      by (apply count_occ_zero_not_elem_of; simpl in Hle; lia).
    count_ids. lia.
  - rewrite count_occ_cons_neq, count_occ_app by done. intros Hle x.
    fold (handleFileUpload_updateRecursive target imgs subs) in *.
    fold (handleFileUpload_updateRecursive target imgs r) in *.
    destruct (count_occ string_dec (album_ids subs) target) eqn:Es.
    + rewrite (handleFileUpload_absent target imgs subs)
        by (by apply count_occ_zero_not_elem_of).
      specialize (IHr ltac:(simpl in Hle; lia) x). revert IHr. count_ids. lia.
    + rewrite (handleFileUpload_absent target imgs r)
        by (apply count_occ_zero_not_elem_of; simpl in Hle; lia).
      specialize (IHs ltac:(simpl in Hle; lia) x). revert IHs. count_ids. lia.
Qed.

(** ** Identifiers drawn by a folder drop *)

Lemma all_ids_nil : all_ids [] = [].
Proof. reflexivity. Qed.

Lemma draws_nil random d : draws random d d = [].
Proof. unfold draws. by rewrite Nat.sub_diag. Qed.

Lemma draws_app random d1 d2 d3 :
  d1 ≤ d2 → d2 ≤ d3 →
  draws random d1 d3 = draws random d1 d2 ++ draws random d2 d3.
Proof.
  intros H12 H23. unfold draws. rewrite <- map_app. f_equal.
  replace (d3 - d1) with ((d2 - d1) + (d3 - d2)) by lia.
  rewrite seq_app. do 2 f_equal. lia.
Qed.

Lemma draws_first random d1 d2 :
  d1 < d2 → draws random d1 d2 = [random d1] ++ draws random (S d1) d2.
Proof.
  intros H. rewrite (draws_app random d1 (S d1) d2) by lia.
  f_equal. unfold draws. by replace (S d1 - d1) with 1 by lia.
Qed.

Lemma adds_drawn_ids_return : adds_drawn_ids (λ t w, (Returned t, w)).
Proof.
  intros t w. simpl. repeat split; auto.
  - by injection H as <-.
  - injection H as <-. intros x. rewrite draws_nil, app_nil_r. done.
Qed.

Lemma adds_drawn_ids_then p q :
  adds_drawn_ids p → adds_drawn_ids q →
  adds_drawn_ids
    (λ t w, match p t w with
            | (Returned t', w') => q t' w'
            | (Thrown, w') => (Thrown, w')
            end).
Proof.
  intros Hp Hq t w. specialize (Hp t w). simpl in *.
  destruct (p t w) as [[t1|] w1]; simpl in *.
  - destruct Hp as (Hs1 & Hr1 & Hd1 & Hp).
    destruct (Hp t1 eq_refl) as [Hid1 Hle1].
    specialize (Hq t1 w1). simpl in Hq.
    destruct (q t1 w1) as [c w2]; simpl in *.
    destruct Hq as (Hs2 & Hr2 & Hd2 & Hq).
    split; [congruence|]. split; [congruence|]. split; [lia|].
    intros t' ->. destruct (Hq t' eq_refl) as [Hid2 Hle2].
    split; [congruence|]. intros x.
    rewrite (draws_app (random w) (drawn w) (drawn w1) (drawn w2)) by done.
    specialize (Hle1 x). specialize (Hle2 x). rewrite Hr1 in Hle2.
    revert Hle1 Hle2. rewrite !count_occ_app. lia.
  - destruct Hp as (Hs1 & Hr1 & Hd1 & _). by repeat split.
Qed.

Lemma processEntry_directory_eq name entries targetList w :
  processEntry (DirectoryEntry name entries) targetList w =
  match subAlbums targetList with
  | None => (Thrown, w)
  | Some subs =>
      let '(folder, w1) :=
        match List.find (λ f, String.eqb (album_name f) name) subs with
        | Some folder => (folder, w)
        | None =>
            let '(rid, w1) := random_id w in
            (mkAlbum rid name (Some []) (Some []), w1)
        end in
      let '(filled, w2) := processEntries entries folder w1 in
      match filled with
      | Returned folder' =>
          (Returned
             (with_subAlbums targetList (Some (put_folder name folder' subs))),
           w2)
      | Thrown => (Thrown, w2)
      end
  end.
Proof.
  simpl. destruct (subAlbums targetList) as [subs|]; [|done].
  destruct (match List.find _ subs with Some _ => _ | None => _ end)
    as [folder w1].
  assert (E : ∀ es f w0,
    (fix each (entries : list Entry) (folder : Album) (w : World)
       : Completion Album * World :=
       match entries with
       | [] => (Returned folder, w)
       | childEntry :: rest =>
           match processEntry childEntry folder w with
           | (Returned folder', w') => each rest folder' w'
           | (Thrown, w') => (Thrown, w')
           end
       end) es f w0 = processEntries es f w0); [|by rewrite E].
  induction es as [|e es IH]; intros f w0; simpl; [done|].
  destruct (processEntry e f w0) as [[f'|] w']; [apply IH|done].
Qed.

Lemma put_folder_found name folder subs :
  List.find (λ f, String.eqb (album_name f) name) subs = Some folder →
  ∃ pre post,
    subs = pre ++ folder :: post ∧
    ∀ folder', put_folder name folder' subs = pre ++ folder' :: post.
Proof.
  induction subs as [|f rest IH]; simpl; [done|].
  destruct (String.eqb (album_name f) name) eqn:E.
  - intros [= ->]. by exists [], rest.
  - intros H. destruct (IH H) as (pre & post & -> & Hput).
    exists (f :: pre), post. split; [done|].
    intros folder'. by rewrite Hput.
Qed.

Lemma put_folder_new name folder' subs :
  List.find (λ f, String.eqb (album_name f) name) subs = None →
  put_folder name folder' subs = subs ++ [folder'].
Proof.
  induction subs as [|f rest IH]; simpl; [done|].
  destruct (String.eqb (album_name f) name); [done|].
  intros H. by rewrite IH.
Qed.

(** The case of a call that threw: nothing is claimed of its result. *)
Ltac thrown_case :=
  split; [done|]; split; [done|]; split; [done || lia|]; by intros ? [=].

Lemma processEntries_adds entries :
  Forall (λ e, adds_drawn_ids (processEntry e)) entries →
  adds_drawn_ids (processEntries entries).
Proof.
  induction 1 as [|e es He _ IH].
  - apply adds_drawn_ids_return.
  - exact (adds_drawn_ids_then _ _ He IH).
Qed.

Lemma processEntry_adds e : adds_drawn_ids (processEntry e).
Proof.
  induction e as [file|name entries IH] using Entry_nested_ind; intros t w.
  - simpl. destruct (String.prefix "image/" (file_type file));
      [|apply (adds_drawn_ids_return t w)].
    destruct (images t) as [imgs|] eqn:Eimgs; simpl.
    + split; [done|]. split; [done|]. split; [lia|].
      intros t' [= <-]. split; [done|]. intros x.
      rewrite (draws_first (random w) (drawn w) (S (drawn w))) by lia.
      rewrite draws_nil. count_ids. rewrite Eimgs.
      simpl. lia.
    + by repeat split.
  - rewrite processEntry_directory_eq.
    destruct (subAlbums t) as [subs|] eqn:Esubs; [|thrown_case].
    apply processEntries_adds in IH.
    destruct (List.find _ subs) as [folder|] eqn:Efind.
    + specialize (IH folder w). simpl in IH.
      destruct (processEntries entries folder w) as [[folder'|] w2];
        simpl in *; destruct IH as (Hs & Hr & Hd & IH);
        [|thrown_case].
      split; [done|]. split; [done|]. split; [done|].
      intros t' [= <-]. destruct (IH folder' eq_refl) as [Hid Hle].
      split; [done|]. intros x. specialize (Hle x). revert Hle.
      destruct (put_folder_found _ _ _ Efind) as (pre & post & -> & Hput).
      rewrite Hput. count_ids. rewrite Esubs. count_ids. rewrite Hid. lia.
    + simpl.
      match goal with
      | |- context [processEntries entries ?f ?w1] =>
          specialize (IH f w1); simpl in IH;
          destruct (processEntries entries f w1) as [[folder'|] w2]
      end; simpl in *; destruct IH as (Hs & Hr & Hd & IH);
        [|thrown_case].
      split; [done|]. split; [done|]. split; [lia|].
      intros t' [= <-]. destruct (IH folder' eq_refl) as [Hid Hle].
      split; [done|]. intros x. specialize (Hle x). revert Hle.
      rewrite (put_folder_new _ _ _ Efind).
      rewrite (draws_first (random w) (drawn w) (drawn w2)) by lia.
      count_ids. rewrite Esubs. count_ids. rewrite !all_ids_nil, Hid.
      simpl. lia.
Qed.

Lemma processItems_adds dropped : adds_drawn_ids (processItems dropped).
Proof.
  induction dropped as [|item rest IH].
  - apply adds_drawn_ids_return.
  - intros t w. simpl.
    destruct (if String.eqb (kind item) "file" then entry item else None)
      as [e|]; [|apply IH].
    exact (adds_drawn_ids_then _ _ (processEntry_adds e) IH t w).
Qed.

Lemma processAt_adds process :
  adds_drawn_ids process →
  ∀ position lst w,
    let r := processAt position process lst w in
    state r.2 = state w ∧ random r.2 = random w ∧ drawn w ≤ drawn r.2 ∧
    ∀ lst', r.1 = Returned lst' →
            at_most (all_ids lst')
              (all_ids lst ++ draws (random w) (drawn w) (drawn r.2)).
Proof.
  intros Hadds.
  assert (Hsame : ∀ lst w,
    state w = state w ∧ random w = random w ∧ drawn w ≤ drawn w ∧
    ∀ lst', Returned lst = Returned lst' →
            at_most (all_ids lst')
              (all_ids lst ++ draws (random w) (drawn w) (drawn w))).
  { intros lst w. repeat split; auto. intros lst' [= <-] x.
    by rewrite draws_nil, app_nil_r. }
  induction position as [|k deeper IH]; intros lst w; simpl; [apply Hsame|].
  destruct (lst !! k) as [a|] eqn:Ek; [|apply Hsame].
  pose proof (take_drop_middle lst k a Ek) as Hmid.
  pose proof (lookup_lt_Some _ _ _ Ek) as Hlt.
  destruct deeper as [|k' deeper'].
  - specialize (Hadds a w). simpl in Hadds.
    destruct (process a w) as [[a'|] w']; simpl in *;
      destruct Hadds as (Hs & Hr & Hd & Ha); [|thrown_case].
    split; [done|]. split; [done|]. split; [done|].
    intros lst' [= <-]. destruct (Ha a' eq_refl) as [Hid Hle].
    rewrite (insert_take_drop lst k a') by done.
    revert Hmid. generalize (take k lst) (drop (S k) lst).
    intros pre post <- x. specialize (Hle x). revert Hle.
    count_ids. rewrite Hid. lia.
  - destruct (subAlbums a) as [subs|] eqn:Esubs; [|apply Hsame].
    specialize (IH subs w). cbv zeta in IH.
    destruct (processAt (k' :: deeper') process subs w) as [[subs'|] w'];
      simpl in *; destruct IH as (Hs & Hr & Hd & Ha); [|thrown_case].
    split; [done|]. split; [done|]. split; [done|].
    intros lst' [= <-]. pose proof (Ha subs' eq_refl) as Hle.
    rewrite (insert_take_drop lst k _) by done.
    revert Hmid. generalize (take k lst) (drop (S k) lst).
    intros pre post <- x. specialize (Hle x). revert Hle.
    count_ids. rewrite Esubs. count_ids. lia.
Qed.

(** ** Identifiers along a sequence of operations *)

Lemma persistChanges_env t w :
  random (persistChanges t w) = random w ∧
  drawn (persistChanges t w) = drawn w.
Proof.
  unfold persistChanges, syncToBackend, syncToBackend_try, fetch; simpl.
  destruct (net w _) as [|st j]; [done|].
  destruct (negb (ok st)); [|done]. simpl.
  by destruct (net w _).
Qed.

Lemma simulateUpload_env w :
  state (simulateUpload w) = state w ∧
  random (simulateUpload w) = random w ∧
  drawn (simulateUpload w) = drawn w.
Proof. done. Qed.

Lemma newImages_of_ids files :
  ∀ w, let r := newImages_of files w in
       random r.2 = random w ∧
       drawn w ≤ drawn r.2 ∧
       map image_id r.1 = draws (random w) (drawn w) (drawn r.2).
Proof.
  induction files as [|f rest IH]; intros w; simpl.
  - by rewrite draws_nil.
  - match goal with
    | |- context [newImages_of rest ?w1] =>
        specialize (IH w1); cbv zeta in IH;
        destruct (newImages_of rest w1) as [imgs w2]
    end.
    simpl in *. destruct IH as (Hr & Hd & Hids).
    split; [done|]. split; [lia|].
    rewrite (draws_first (random w) (drawn w) (drawn w2)) by lia.
    simpl. by rewrite Hids.
Qed.

Lemma handleDrop_ids dropped w :
  let w' := handleDrop dropped w in
  random w' = random w ∧ drawn w ≤ drawn w' ∧
  at_most (all_ids (items (state w')))
    (all_ids (items (state w)) ++ draws (random w) (drawn w) (drawn w')).
Proof.
  assert (Hsame : at_most (all_ids (items (state w)))
            (all_ids (items (state w)) ++ draws (random w) (drawn w) (drawn w))).
  { intros x. by rewrite draws_nil, app_nil_r. }
  unfold handleDrop. destruct dropped as [dropped|]; [|done].
  destruct (drop_walk _ _ _ _) as [[position|]|]; [| |done].
  - destruct (processAt_adds _ (processItems_adds dropped) position
                (items (state w)) (simulateUpload w))
      as (Hs & Hr & Hd & Hle).
    destruct (processAt position _ _ _) as [[next|] w2]; simpl in *.
    + destruct (persistChanges_env next w2) as [-> ->].
      rewrite persistChanges_items. split; [done|]. split; [done|].
      by apply Hle.
    + rewrite Hs. split; [done|]. split; [done|]. intros x.
      specialize (Hsame x). revert Hsame.
      rewrite (draws_app (random w) (drawn w) (drawn w) (drawn w2)) by done.
      rewrite !count_occ_app. lia.
  - destruct (processItems_adds dropped
                (mkAlbum "" "" (Some []) (Some (items (state w))))
                (simulateUpload w)) as (Hs & Hr & Hd & Hle).
    destruct (processItems dropped _ _) as [[t|] w2]; simpl in *.
    + destruct (persistChanges_env (default [] (subAlbums t)) w2) as [-> ->].
      rewrite persistChanges_items. split; [done|]. split; [done|].
      destruct (Hle t eq_refl) as [_ Hle']. intros x.
      specialize (Hle' x). revert Hle'. count_ids. simpl. lia.
    + rewrite Hs. split; [done|]. split; [done|]. intros x.
      specialize (Hsame x). revert Hsame.
      rewrite (draws_app (random w) (drawn w) (drawn w) (drawn w2)) by done.
      rewrite !count_occ_app. lia.
Qed.

Lemma NoDup_all_ids_count T target :
  NoDup (all_ids T) → count_occ string_dec (album_ids T) target ≤ 1.
Proof.
  intros Hnd. apply NoDup_ListNoDup in Hnd.
  pose proof (proj1 (NoDup_count_occ string_dec _) Hnd target).
  pose proof (album_ids_at_most_all_ids T target). lia.
Qed.

(** Every operation leaves [Math.random] alone, consumes draws only, and
    on a forest with unique identifiers adds no identifier but those it
    drew. *)
Lemma perform_ids w op :
  let w' := perform w op in
  random w' = random w ∧ drawn w ≤ drawn w' ∧
  (NoDup (all_ids (items (state w))) →
   at_most (all_ids (items (state w')))
     (all_ids (items (state w)) ++ draws (random w) (drawn w) (drawn w'))).
Proof.
  assert (Hsame : at_most (all_ids (items (state w)))
            (all_ids (items (state w)) ++ draws (random w) (drawn w) (drawn w))).
  { intros x. by rewrite draws_nil, app_nil_r. }
  destruct op as [path name|path files|path dropped|i|imageId]; simpl.
  - unfold createAlbum. simpl.
    destruct (negb (truthy (trim name))); [done|]. simpl.
    match goal with
    | |- context [persistChanges ?t ?w1] =>
        destruct (persistChanges_env t w1) as [-> ->];
        rewrite (persistChanges_items t w1)
    end. simpl.
    split; [done|]. split; [lia|]. intros Hnd x.
    rewrite (draws_first (random w) (drawn w) (S (drawn w))) by lia.
    rewrite draws_nil.
    destruct (last path) as [target|].
    + pose proof (createAlbum_at_most target
                    (mkAlbum (random w (drawn w)) name (Some []) (Some []))
                    (items (state w)) (NoDup_all_ids_count _ target Hnd) x)
        as Hle.
      revert Hle. count_ids. rewrite !all_ids_nil. simpl. lia.
    + count_ids. rewrite !all_ids_nil. simpl. lia.
  - unfold handleFileUpload. simpl.
    destruct files as [|f rest]; [done|].
    destruct (last path) as [target|]; [|done].
    destruct (newImages_of_ids (f :: rest)
                (simulateUpload (setCurrentPath path w)))
      as (Hr & Hd & Hids).
    destruct (newImages_of (f :: rest) _) as [imgs w2]. simpl in *.
    destruct (persistChanges_env
                (handleFileUpload_updateRecursive target imgs (items (state w)))
                w2) as [-> ->].
    rewrite persistChanges_items. split; [done|]. split; [done|].
    intros Hnd. rewrite <- Hids.
    apply handleFileUpload_at_most. by apply NoDup_all_ids_count.
  - destruct (handleDrop_ids dropped (setCurrentPath path w)) as (Hr & Hd & Hle).
    by repeat split.
  - unfold deleteAlbum.
    destruct (persistChanges_env (deleteRecursive i (items (state w))) w)
      as [-> ->].
    rewrite persistChanges_items. split; [done|]. split; [done|].
    intros _ x. rewrite draws_nil, app_nil_r. apply deleteRecursive_at_most.
  - unfold deleteImage.
    destruct (persistChanges_env
                (deleteFromRecursive imageId (items (state w))) w) as [-> ->].
    rewrite persistChanges_items. split; [done|]. split; [done|].
    intros _ x. rewrite draws_nil, app_nil_r.
    apply deleteFromRecursive_at_most.
Qed.

Lemma draws_elem_of random d1 d2 x :
  x ∈ draws random d1 d2 ↔ ∃ k, d1 ≤ k ∧ k < d2 ∧ random k = x.
Proof.
  unfold draws. rewrite list_elem_of_fmap. split.
  - intros (k & -> & Hk). apply elem_of_seq in Hk. exists k.
    split; [lia|]. split; [lia|done].
  - intros (k & H1 & H2 & <-). exists k. split; [done|].
    apply elem_of_seq. lia.
Qed.

Lemma perform_unique w op :
  (∀ m n, random w m = random w n → m = n) →
  unique_drawn_ids w → unique_drawn_ids (perform w op).
Proof.
  intros Hinj [Hnd Hdrawn].
  destruct (perform_ids w op) as (Hr & Hd & Hle). specialize (Hle Hnd).
  split.
  - eapply at_most_NoDup; [exact Hle|]. apply NoDup_app.
    split; [done|]. split.
    + intros x Hx Hx'. destruct (Hdrawn x Hx) as (k & Hk & <-).
      apply draws_elem_of in Hx' as (k' & Hk1 & Hk2 & Heq).
      apply Hinj in Heq. lia.
    + unfold draws. apply NoDup_fmap_2; [|apply NoDup_seq].
      intros m n. apply Hinj.
  - intros i Hi. rewrite Hr.
    apply (at_most_elem_of _ _ _ Hle), elem_of_app in Hi as [Hi|Hi].
    + destruct (Hdrawn i Hi) as (k & Hk & <-). exists k. split; [lia|done].
    + apply draws_elem_of in Hi as (k & _ & Hk & <-). by exists k.
Qed.

Lemma run_unique ops :
  ∀ w, (∀ m n, random w m = random w n → m = n) →
       unique_drawn_ids w → unique_drawn_ids (run ops w).
Proof.
  induction ops as [|op ops IH]; intros w Hinj Hw; [done|].
  simpl. apply IH; [|by apply perform_unique].
  destruct (perform_ids w op) as (-> & _). exact Hinj.
Qed.

(** C7, as the code has it: identifiers are values of [Math.random] and
    nothing checks them, so they are unique as long as [Math.random]
    never yields the same value twice.  Under that condition, in every
    tree reached from the empty forest by creating albums, uploading
    images, dropping folders, deleting albums and deleting images, all
    identifiers of albums and of images are pairwise distinct. *)
Theorem unique_ids_when_draws_differ net random ops :
  (∀ m n, random m = random n → m = n) →
  NoDup (all_ids (items (state (run ops (initial_world net random))))).
Proof.
  intros Hinj.
  apply (run_unique ops (initial_world net random) Hinj).
  split; [constructor|]. intros i Hi. by apply elem_of_nil in Hi.
Qed.

Lemma numbered_id_inj m n : numbered_id m = numbered_id n → m = n.
Proof.
  unfold numbered_id. intros H.
  by apply (inj (String.app "id")), (inj pretty) in H.
Qed.

Lemma unique_ids_when_draws_differ_witness :
  NoDup (all_ids (items (state (run
    [CreateAlbum [] "Holidays";
     UploadImages ["id0"] [sample_file "x.png"; sample_file "y.png"];
     DropEntries ["id0"]
       (Some [mkItem "file"
                (Some (DirectoryEntry "Beach" [FileEntry (sample_file "z.png")]))]);
     DeleteImage "id1"]
    (initial_world offline numbered_id))))).
Proof. exact (unique_ids_when_draws_differ _ _ _ numbered_id_inj). Defined.

(** C7, refuted as stated: when [Math.random] yields the same value twice,
    creating two albums at the root gives two albums with one id. *)
Lemma createAlbum_twice_same_id :
  album_ids (items (state (run [CreateAlbum [] "A"; CreateAlbum [] "B"]
                             (initial_world offline stuck_id)))) = ["r"; "r"] ∧
  ¬ NoDup (all_ids (items (state (run [CreateAlbum [] "A"; CreateAlbum [] "B"]
                                    (initial_world offline stuck_id))))).
Proof.
  split; [by vm_compute|].
  vm_compute. intros H. apply NoDup_cons in H as [H _].
  apply H. constructor.
Qed.

(* ================================================================== *)
(** * Further properties of the component *)

(** ** Deleting albums and images: what is gone, what commutes *)

Lemma deleteRecursive_removes i T : i ∉ album_ids (deleteRecursive i T).
Proof.
  induction T as [|j n im r IHr|j n im subs r IHs IHr] using forest_ind;
    [apply not_elem_of_nil|..]; rewrite deleteRecursive_cons;
    cbn [album_id]; destruct (String.eqb_spec j i) as [->|Hne]; try done;
    rewrite album_ids_cons, deleteRecursive_item_eq;
    cbn [album_id subAlbums with_subAlbums default from_option id];
    apply not_elem_of_cons; (split; [congruence|]);
    apply not_elem_of_app; split; try done.
  apply not_elem_of_nil.
Qed.

Lemma items_deleteAlbum i w :
  items (state (deleteAlbum i w)) = deleteRecursive i (items (state w)).
Proof. unfold deleteAlbum. apply persistChanges_items. Qed.

Lemma items_deleteImage imageId w :
  items (state (deleteImage imageId w)) =
  deleteFromRecursive imageId (items (state w)).
Proof. unfold deleteImage. apply persistChanges_items. Qed.

(** X1: after [deleteAlbum(e, id)] no album of the tree has the id, at
    any depth, no identifier has been added, and deleting the same id
    again leaves the tree as it is. *)
Theorem deleteAlbum_removes_id i w :
  let T' := items (state (deleteAlbum i w)) in
  (i ∉ album_ids T') ∧
  at_most (all_ids T') (all_ids (items (state w))) ∧
  items (state (deleteAlbum i (deleteAlbum i w))) = T'.
Proof.
  intros T'. subst T'. rewrite !items_deleteAlbum.
  split; [apply deleteRecursive_removes|].
  split; [apply deleteRecursive_at_most|].
  apply deleteRecursive_absent, deleteRecursive_removes.
Qed.

Lemma deleteRecursive_comm i j T :
  deleteRecursive i (deleteRecursive j T) =
  deleteRecursive j (deleteRecursive i T).
Proof.
  induction T as [|k n im r IHr|k n im subs r IHs IHr] using forest_ind;
    [done|..]; rewrite !deleteRecursive_cons; cbn [album_id];
    destruct (String.eqb k j) eqn:Ej; destruct (String.eqb k i) eqn:Ei;
    rewrite ?deleteRecursive_cons, ?deleteRecursive_item_eq;
    cbn [album_id subAlbums with_subAlbums];
    rewrite ?Ei, ?Ej, ?deleteRecursive_item_eq;
    cbn [album_id album_name images subAlbums with_subAlbums];
    try congruence.
  unfold with_subAlbums; cbn [album_id album_name images]. congruence.
Qed.

(** X2: two deletions of albums give the same tree in either order. *)
Theorem deleteAlbum_commutes i j w :
  items (state (deleteAlbum i (deleteAlbum j w))) =
  items (state (deleteAlbum j (deleteAlbum i w))).
Proof. rewrite !items_deleteAlbum. apply deleteRecursive_comm. Qed.

Lemma image_ids_cons a r :
  image_ids (a :: r) =
  map image_id (images_list a) ++
  image_ids (default [] (subAlbums a)) ++ image_ids r.
Proof.
  unfold image_ids. rewrite all_albums_cons. simpl.
  by rewrite flat_map_app.
Qed.

Lemma deleteFromRecursive_cons imageId a r :
  deleteFromRecursive imageId (a :: r) =
  mkAlbum (album_id a) (album_name a)
    (List.filter (keeps_image imageId) <$> images a)
    (deleteFromRecursive imageId <$> subAlbums a)
  :: deleteFromRecursive imageId r.
Proof. by destruct a as [j n [imgs|] [subs|]]. Qed.

Lemma filter_removes_image imageId imgs :
  imageId ∉ map image_id (List.filter (keeps_image imageId) imgs).
Proof.
  induction imgs as [|img imgs IH]; simpl; [apply not_elem_of_nil|].
  unfold keeps_image at 1.
  destruct (String.eqb_spec (image_id img) imageId) as [E|E]; simpl; [done|].
  apply not_elem_of_cons. split; [congruence|done].
Qed.

Lemma filter_absent_image imageId imgs :
  imageId ∉ map image_id imgs →
  List.filter (keeps_image imageId) imgs = imgs.
Proof.
  induction imgs as [|img imgs IH]; simpl; [done|].
  intros [Hne Hrest]%not_elem_of_cons. unfold keeps_image at 1.
  apply String.eqb_neq in Hne. rewrite String.eqb_sym, Hne. simpl.
  by rewrite IH.
Qed.

Lemma deleteFromRecursive_removes imageId T :
  imageId ∉ image_ids (deleteFromRecursive imageId T).
Proof.
  induction T as [|j n im r IHr|j n im subs r IHs IHr] using forest_ind;
    [apply not_elem_of_nil|..];
    rewrite deleteFromRecursive_cons, image_ids_cons;
    cbn [album_id album_name images subAlbums images_list default
         from_option id fmap option_fmap option_map];
    rewrite !not_elem_of_app; (split; [|split; [|done]]);
    try apply not_elem_of_nil; try done;
    destruct im as [imgs|]; simpl;
    try apply filter_removes_image; apply not_elem_of_nil.
Qed.

Lemma deleteFromRecursive_absent imageId T :
  imageId ∉ image_ids T → deleteFromRecursive imageId T = T.
Proof.
  induction T as [|j n im r IHr|j n im subs r IHs IHr] using forest_ind;
    [done|..]; rewrite deleteFromRecursive_cons, image_ids_cons;
    cbn [album_id album_name images subAlbums images_list default
         from_option id fmap option_fmap option_map];
    rewrite !not_elem_of_app; intros (Him & Hs & Hr);
    rewrite IHr by done; try rewrite IHs by done;
    (destruct im as [imgs|]; simpl in *; [rewrite filter_absent_image|]);
    done.
Qed.

(** X3: after [deleteImage(e, imageId)] no album of the tree holds an
    image with the id, and deleting the same id again leaves the tree as
    it is. *)
Theorem deleteImage_removes_id imageId w :
  let T' := items (state (deleteImage imageId w)) in
  (imageId ∉ image_ids T') ∧
  items (state (deleteImage imageId (deleteImage imageId w))) = T'.
Proof.
  intros T'. subst T'. rewrite !items_deleteImage.
  split; [apply deleteFromRecursive_removes|].
  apply deleteFromRecursive_absent, deleteFromRecursive_removes.
Qed.

(** X4: [deleteImage] with an id that no image of the tree has gives a
    tree equal to the one before. *)
Theorem deleteImage_absent_id imageId w :
  imageId ∉ image_ids (items (state w)) →
  items (state (deleteImage imageId w)) = items (state w).
Proof.
  intros H. rewrite items_deleteImage. by apply deleteFromRecursive_absent.
Qed.

Lemma deleteImage_absent_id_witness :
  ("zz" ∉ image_ids sample_forest) ∧
  items (state (deleteImage "zz" (sample_world sample_forest [] offline))) =
    sample_forest.
Proof.
  assert (H : "zz" ∉ image_ids sample_forest).
  { apply (bool_decide_unpack _). vm_compute. exact I. }
  split; [exact H|].
  exact (deleteImage_absent_id "zz" (sample_world sample_forest [] offline) H).
Defined.

Lemma deleteFromRecursive_deleteRecursive imageId i T :
  deleteFromRecursive imageId (deleteRecursive i T) =
  deleteRecursive i (deleteFromRecursive imageId T).
Proof.
  induction T as [|j n im r IHr|j n im subs r IHs IHr] using forest_ind;
    [done|..];
    rewrite deleteRecursive_cons, (deleteFromRecursive_cons _ (mkAlbum _ _ _ _)),
      deleteRecursive_cons;
    cbn [album_id album_name images subAlbums];
    destruct (String.eqb j i); try done;
    rewrite !deleteRecursive_item_eq, deleteFromRecursive_cons;
    cbn [album_id album_name images subAlbums with_subAlbums fmap
         option_fmap option_map];
    unfold with_subAlbums; cbn [album_id album_name images];
    congruence.
Qed.

(** X5: deleting an album and deleting an image give the same tree in
    either order. *)
Theorem deleteAlbum_deleteImage_commute i imageId w :
  items (state (deleteImage imageId (deleteAlbum i w))) =
  items (state (deleteAlbum i (deleteImage imageId w))).
Proof.
  rewrite items_deleteImage, !items_deleteAlbum, items_deleteImage.
  apply deleteFromRecursive_deleteRecursive.
Qed.

(** ** Creating an album: where it goes, and undoing it *)

(** The album that [createAlbum] builds in [w]. *)
Lemma items_createAlbum w :
  truthy (trim (newAlbumName w)) = true →
  items (state (createAlbum w)) =
  let newAlbum :=
    mkAlbum (random w (drawn w)) (newAlbumName w) (Some []) (Some []) in
  match last (currentPath w) with
  | None => items (state w) ++ [newAlbum]
  | Some target => createAlbum_updateRecursive target newAlbum (items (state w))
  end.
Proof.
  intros Hname. unfold createAlbum. rewrite Hname. simpl.
  by rewrite persistChanges_items.
Qed.

Lemma deleteRecursive_app i l1 l2 :
  deleteRecursive i (l1 ++ l2) = deleteRecursive i l1 ++ deleteRecursive i l2.
Proof.
  induction l1 as [|a l1 IH]; [done|].
  rewrite <- app_comm_cons, !deleteRecursive_cons, IH.
  by destruct (String.eqb (album_id a) i).
Qed.

Lemma createAlbum_then_deleteRecursive target rid name T :
  rid ∉ album_ids T →
  Forall (λ a, album_id a = target → subAlbums a ≠ None) (all_albums T) →
  deleteRecursive rid
    (createAlbum_updateRecursive target
       (mkAlbum rid name (Some []) (Some [])) T) = T.
Proof.
  unfold createAlbum_updateRecursive.
  induction T as [|j n im r IHr|j n im subs r IHs IHr] using forest_ind;
    [done|..];
    rewrite album_ids_cons, all_albums_cons, map_cons, deleteRecursive_cons,
      createAlbum_item_eq;
    cbn [album_id album_name images subAlbums default from_option id app];
    intros [Hne Hids]%not_elem_of_cons [Ha Hall]%Forall_cons;
    apply not_elem_of_app in Hids as [Hs Hr];
    apply Forall_app in Hall as [Hsubs Hrest];
    apply String.eqb_neq in Hne;
    destruct (String.eqb_spec j target) as [->|Hjt];
    try (by destruct (Ha eq_refl));
    unfold with_subAlbums;
    cbn [album_id album_name images subAlbums fmap option_fmap option_map];
    rewrite String.eqb_sym, Hne, deleteRecursive_item_eq;
    unfold with_subAlbums;
    cbn [album_id album_name images subAlbums].
  - f_equal. by apply IHr.
  - rewrite deleteRecursive_app, (deleteRecursive_absent rid subs) by done.
    rewrite deleteRecursive_cons. cbn [album_id]. rewrite String.eqb_refl.
    cbn [app]. rewrite app_nil_r. f_equal. by apply IHr.
  - f_equal; [|by apply IHr]. f_equal. f_equal. by apply IHs.
Qed.

(** X6: creating an album and then deleting it gives back the tree from
    before, wherever the path points, provided the id that was drawn is
    not an id of the tree and the album the path ends in, if there is
    one, has a [subAlbums] array. *)
Theorem createAlbum_then_deleteAlbum w :
  truthy (trim (newAlbumName w)) = true →
  random w (drawn w) ∉ album_ids (items (state w)) →
  Forall (λ a, Some (album_id a) = last (currentPath w) → subAlbums a ≠ None)
    (all_albums (items (state w))) →
  items (state (deleteAlbum (random w (drawn w)) (createAlbum w))) =
  items (state w).
Proof.
  intros Hname Hfresh Hsubs.
  rewrite items_deleteAlbum, items_createAlbum by done. cbv zeta.
  destruct (last (currentPath w)) as [target|].
  - apply createAlbum_then_deleteRecursive; [done|].
    eapply Forall_impl; [exact Hsubs|]. intros a Ha Heq. apply Ha.
    by rewrite Heq.
  - rewrite deleteRecursive_app, deleteRecursive_absent by done.
    rewrite deleteRecursive_cons. cbn [album_id]. rewrite String.eqb_refl.
    simpl. by rewrite app_nil_r.
Qed.

Lemma createAlbum_then_deleteAlbum_witness :
  let w := setNewAlbumName "Trips"
             (sample_world sample_forest ["a"; "b"] offline) in
  items (state (deleteAlbum "id0" (createAlbum w))) = sample_forest.
Proof.
  apply (createAlbum_then_deleteAlbum
           (setNewAlbumName "Trips"
              (sample_world sample_forest ["a"; "b"] offline))).
  - reflexivity.
  - apply (bool_decide_unpack _). vm_compute. exact I.
  - repeat constructor; discriminate.
Defined.

(** ** Navigation: what the view shows *)

Lemma find_by_id_Some i lst a :
  find_by_id i lst = Some a → album_id a = i ∧ a ∈ lst.
Proof.
  unfold find_by_id. intros [Hin Heq]%find_some. split.
  - by apply String.eqb_eq.
  - by apply list_elem_of_In.
Qed.

Lemma getCurrentDirectory_cons T i rest :
  getCurrentDirectory T (i :: rest) =
  getCurrentDirectory
    (match find_by_id i T with
     | Some folder => default [] (subAlbums folder)
     | None => T
     end) rest.
Proof. reflexivity. Qed.

Lemma resolves_getCurrentDirectory T path a :
  resolves T path a → getCurrentDirectory T path = default [] (subAlbums a).
Proof.
  induction 1 as [lst i a H|lst i a rest b H _ IH];
    rewrite getCurrentDirectory_cons, H; [done | exact IH].
Qed.

Lemma album_walk_resolves T path a :
  resolves T path a →
  ∀ current,
    snd (fold_left album_step path (current, T)) = default [] (subAlbums a).
Proof.
  induction 1 as [lst i a H|lst i a rest b H _ IH]; intros current;
    cbn [fold_left].
  - unfold album_step. simpl. by rewrite H.
  - rewrite <- (IH (find_by_id i lst)). unfold album_step at 2. simpl.
    by rewrite H.
Qed.

Lemma resolves_last_id T path a :
  resolves T path a → last path = Some (album_id a).
Proof.
  induction 1 as [lst i a H|lst i a rest b H Hrest IH].
  - apply find_by_id_Some in H as [-> _]. reflexivity.
  - rewrite last_cons, IH. reflexivity.
Qed.

Lemma getCurrentAlbum_Some_resolves T path a :
  getCurrentAlbum T path = Some a → resolves T path a.
Proof.
  destruct path as [|i rest]; [done|]. unfold getCurrentAlbum.
  by intros H%getCurrentAlbum_loop_resolves.
Qed.

Lemma resolves_getCurrentAlbum T path a :
  resolves T path a → getCurrentAlbum T path = Some a.
Proof.
  intros H. destruct path as [|i rest]; [inversion H|].
  unfold getCurrentAlbum. by apply getCurrentAlbum_loop_resolves.
Qed.

(** X7: whenever [getCurrentAlbum] returns an album, its id is the last
    segment of the path, the folder cards that [getCurrentDirectory]
    yields are the sub-albums of that very album, and the photos shown are
    its images. *)
Theorem current_album_view T path a :
  getCurrentAlbum T path = Some a →
  last path = Some (album_id a) ∧
  visibleAlbums false T path = default [] (subAlbums a) ∧
  activePhotos false T path = map plain (images_list a).
Proof.
  intros H. pose proof (getCurrentAlbum_Some_resolves _ _ _ H) as Hres.
  split; [by eapply resolves_last_id|]. split.
  - by apply resolves_getCurrentDirectory.
  - unfold activePhotos. by rewrite H.
Qed.

Lemma current_album_view_witness :
  last ["a"; "b"] = Some "b" ∧
  visibleAlbums false sample_forest ["a"; "b"] = [] ∧
  activePhotos false sample_forest ["a"; "b"] = [plain (sample_image "p")].
Proof.
  exact (current_album_view sample_forest ["a"; "b"] sample_leaf eq_refl).
Defined.

(** X8: at the root or in an album that the path resolves to, clicking
    the card of an album (the first card with its id) enters that album:
    it becomes the current album, its sub-albums are the cards and its
    images the photos. *)
Theorem openAlbum_enters_album a w :
  currentPath w = [] ∨
    is_Some (getCurrentAlbum (items (state w)) (currentPath w)) →
  find_by_id (album_id a) (cards w) = Some a →
  let w' := openAlbum (album_id a) w in
  getCurrentAlbum (items (state w')) (currentPath w') = Some a ∧
  cards w' = default [] (subAlbums a) ∧
  photos w' = map plain (images_list a).
Proof.
  intros Hpath Hfind. unfold cards, photos, visibleAlbums in *.
  cbn [openAlbum setShowAllNested setCurrentPath state currentPath
       showAllNested].
  destruct (showAllNested w); [done|].
  assert (Hcur : getCurrentAlbum (items (state w))
                   (currentPath w ++ [album_id a]) = Some a).
  { rewrite getCurrentAlbum_snoc.
    destruct Hpath as [Hroot|[b Hb%getCurrentAlbum_Some_resolves]].
    - by rewrite Hroot in *.
    - by rewrite (album_walk_resolves _ _ _ Hb),
        <- (resolves_getCurrentDirectory _ _ _ Hb). }
  split; [done|]. split.
  - by apply resolves_getCurrentDirectory, getCurrentAlbum_Some_resolves.
  - unfold activePhotos. by rewrite Hcur.
Qed.

Lemma openAlbum_enters_album_witness :
  let w' := openAlbum "b" (sample_world sample_forest ["a"] offline) in
  getCurrentAlbum (items (state w')) (currentPath w') = Some sample_leaf ∧
  cards w' = [] ∧
  photos w' = [plain (sample_image "p")].
Proof.
  apply (openAlbum_enters_album sample_leaf
           (sample_world sample_forest ["a"] offline)).
  - right. by eexists.
  - reflexivity.
Defined.

Lemma album_walk_None path st :
  path ≠ [] →
  fst (fold_left album_step path st) = None →
  snd (fold_left album_step path st) = [].
Proof.
  intros Hne. destruct (exists_last Hne) as (p & j & ->).
  rewrite fold_left_app. simpl. unfold album_step. simpl. by intros ->.
Qed.

(** X9: once a non-empty path has stopped resolving, no id appended to it
    makes it resolve again: whatever card is clicked next, there is no
    current album and no photo. *)
Theorem unresolved_path_stays_unresolved nested T path i :
  path ≠ [] →
  getCurrentAlbum T path = None →
  getCurrentAlbum T (path ++ [i]) = None ∧
  activePhotos nested T (path ++ [i]) = [].
Proof.
  intros Hne Hnone.
  assert (H : getCurrentAlbum T (path ++ [i]) = None).
  { rewrite getCurrentAlbum_snoc, album_walk_None; [done..|].
    destruct path; [done|exact Hnone]. }
  split; [done|]. unfold activePhotos. by rewrite H.
Qed.

Lemma unresolved_path_stays_unresolved_witness :
  getCurrentAlbum sample_forest (["zz"] ++ ["a"]) = None ∧
  activePhotos false sample_forest (["zz"] ++ ["a"]) = [].
Proof.
  apply (unresolved_path_stays_unresolved false sample_forest ["zz"] "a");
    [discriminate | reflexivity].
Defined.

Lemma getCurrentAlbum_parent T path a :
  getCurrentAlbum T path = Some a →
  ∃ p, path = p ++ [album_id a] ∧
       find_by_id (album_id a) (getCurrentDirectory T p) = Some a.
Proof.
  intros H. assert (Hne : path ≠ []) by (by intros ->).
  destruct (exists_last Hne) as (p & j & ->). exists p.
  rewrite getCurrentAlbum_snoc in H.
  destruct (album_walk_dir_walk p None T T (or_introl eq_refl)) as [E|E];
    cbv zeta in E; rewrite E in H; [|done].
  destruct (find_by_id_Some _ _ _ H) as [-> _]. done.
Qed.

(** X10: [navigateUp] from an album lands where that album is one of the
    cards, and clicking that card leads back to the path that was left. *)
Theorem navigateUp_shows_left_album a w :
  getCurrentAlbum (items (state w)) (currentPath w) = Some a →
  let w' := navigateUp w in
  find_by_id (album_id a) (cards w') = Some a ∧
  currentPath (openAlbum (album_id a) w') = currentPath w.
Proof.
  intros (p & Hp & Hfind)%getCurrentAlbum_parent.
  unfold cards, visibleAlbums.
  cbn [navigateUp openAlbum setShowAllNested setCurrentPath state currentPath
       showAllNested].
  rewrite Hp, removelast_last. done.
Qed.

Lemma navigateUp_shows_left_album_witness :
  let w' := navigateUp (sample_world sample_forest ["a"; "b"] offline) in
  find_by_id "b" (cards w') = Some sample_leaf ∧
  currentPath (openAlbum "b" w') = ["a"; "b"].
Proof.
  exact (navigateUp_shows_left_album sample_leaf
           (sample_world sample_forest ["a"; "b"] offline) eq_refl).
Defined.

(** ** The view after an insertion *)

(** All that [persistChanges] does to the component and its
    environment. *)
Lemma persistChanges_world t w :
  ∃ reqs,
    (reqs = [put_request t] ∨ reqs = [put_request t; post_request t]) ∧
    persistChanges t w =
    mkWorld (mkState t (status (state w)) (error (state w)) false)
      (currentPath w) (newAlbumName w) (isCreatingAlbum w) (showAllNested w)
      (net w) (fetched w ++ reqs) (timeouts w) (random w) (drawn w).
Proof.
  unfold persistChanges, syncToBackend, syncToBackend_try, fetch; simpl.
  destruct (net w _) as [|st j]; [by exists [put_request t]; auto|].
  destruct (negb (ok st)); [|by exists [put_request t]; auto]. simpl.
  exists [put_request t; post_request t]. split; [by right|].
  destruct (net w _); simpl; by rewrite <- app_assoc.
Qed.

Lemma find_by_id_map (f : Album → Album) i lst :
  (∀ a, album_id (f a) = album_id a) →
  find_by_id i (map f lst) = f <$> find_by_id i lst.
Proof.
  intros Hf. unfold find_by_id.
  induction lst as [|a l IH]; simpl; [done|].
  rewrite Hf. by destruct (String.eqb (album_id a) i).
Qed.

(** A rewrite that maps over the forest, replaces the albums with the
    target id and otherwise descends, seen along a path that ends in the
    target id and repeats no id. *)
Lemma resolves_rewrite (f g : Album → Album) target :
  (∀ a, album_id (g a) = album_id a) →
  (∀ a, album_id a = target → f a = g a) →
  (∀ a, album_id a ≠ target →
        f a = with_subAlbums a (map f <$> subAlbums a)) →
  ∀ T path b,
    resolves T path b → NoDup path → last path = Some target →
    resolves (map f T) path (g b).
Proof.
  intros Hg Hhit Hmiss.
  assert (Hf : ∀ a, album_id (f a) = album_id a).
  { intros a. destruct (decide (album_id a = target)) as [E|E].
    - by rewrite Hhit, Hg.
    - by rewrite Hmiss. }
  induction 1 as [lst i a H|lst i a rest b H Hrest IH]; intros Hnd Hlast.
  - injection Hlast as ->. apply resolves_last.
    rewrite find_by_id_map, H by done. simpl.
    apply find_by_id_Some in H as [Hid _]. by rewrite Hhit.
  - apply NoDup_cons in Hnd as [Hi Hnd].
    pose proof (resolves_last_id _ _ _ Hrest) as Hlast'.
    rewrite last_cons, Hlast' in Hlast. rewrite Hlast' in IH.
    apply resolves_step with (f a).
    + by rewrite find_by_id_map, H.
    + pose proof (find_by_id_Some _ _ _ H) as [Hid _].
      assert (Hne : album_id a ≠ target).
      { rewrite Hid. intros ->. apply Hi.
        apply last_Some_elem_of. congruence. }
      rewrite (Hmiss a Hne).
      replace (default [] (subAlbums (with_subAlbums a (map f <$> subAlbums a))))
        with (map f (default [] (subAlbums a)))
        by (by destruct (subAlbums a)).
      by apply IH.
Qed.

Lemma createAlbum_resolves target nv T path b :
  resolves T path b → NoDup path → last path = Some target →
  resolves (createAlbum_updateRecursive target nv T) path
    (with_subAlbums b (Some (default [] (subAlbums b) ++ [nv]))).
Proof.
  apply (resolves_rewrite (createAlbum_item target nv)
           (λ b, with_subAlbums b (Some (default [] (subAlbums b) ++ [nv])))
           target); [done|..]; intros a Ha; rewrite createAlbum_item_eq.
  - by rewrite (proj2 (String.eqb_eq _ _) Ha).
  - by rewrite (proj2 (String.eqb_neq _ _) Ha).
Qed.

Lemma handleFileUpload_resolves target imgs T path b :
  resolves T path b → NoDup path → last path = Some target →
  resolves (handleFileUpload_updateRecursive target imgs T) path
    (with_images b (Some (images_list b ++ imgs))).
Proof.
  apply (resolves_rewrite (handleFileUpload_item target imgs)
           (λ b, with_images b (Some (images_list b ++ imgs)))
           target); [done|..]; intros a Ha; rewrite handleFileUpload_item_eq.
  - by rewrite (proj2 (String.eqb_eq _ _) Ha).
  - by rewrite (proj2 (String.eqb_neq _ _) Ha).
Qed.

(** X11: after [createAlbum] at the root, or in an album that a path
    without repeated ids resolves to, the view stays where it was, the new
    album (empty, with the drawn id and the name as typed) is the last
    folder card after the cards there were, and the photos are those there
    were. *)
Theorem createAlbum_shows_new_album w :
  truthy (trim (newAlbumName w)) = true →
  currentPath w = [] ∨
    (NoDup (currentPath w) ∧
     is_Some (getCurrentAlbum (items (state w)) (currentPath w))) →
  let w' := createAlbum w in
  let newAlbum :=
    mkAlbum (random w (drawn w)) (newAlbumName w) (Some []) (Some []) in
  currentPath w' = currentPath w ∧
  visibleAlbums false (items (state w')) (currentPath w') =
    visibleAlbums false (items (state w)) (currentPath w) ++ [newAlbum] ∧
  activePhotos false (items (state w')) (currentPath w') =
    activePhotos false (items (state w)) (currentPath w).
Proof.
  intros Hname Hpath w' newAlbum.
  assert (Hcp : currentPath w' = currentPath w).
  { subst w'. unfold createAlbum. rewrite Hname. simpl.
    match goal with
    | |- context [persistChanges ?t ?w1] =>
        destruct (persistChanges_world t w1) as (reqs & _ & ->)
    end.
    reflexivity. }
  split; [done|]. rewrite Hcp. subst w'.
  rewrite items_createAlbum by done. cbv zeta. fold newAlbum.
  unfold visibleAlbums.
  destruct Hpath as [Hroot|[Hnd [b Hb]]].
  - by rewrite Hroot.
  - apply getCurrentAlbum_Some_resolves in Hb.
    pose proof (resolves_last_id _ _ _ Hb) as Hlast. rewrite Hlast.
    pose proof (createAlbum_resolves _ newAlbum _ _ _ Hb Hnd Hlast) as Hb'.
    rewrite (resolves_getCurrentDirectory _ _ _ Hb),
      (resolves_getCurrentDirectory _ _ _ Hb').
    split; [done|]. unfold activePhotos.
    by rewrite (resolves_getCurrentAlbum _ _ _ Hb),
      (resolves_getCurrentAlbum _ _ _ Hb').
Qed.

Lemma createAlbum_shows_new_album_witness :
  let w := setNewAlbumName "Trips"
             (sample_world sample_forest ["a"] offline) in
  let w' := createAlbum w in
  currentPath w' = ["a"] ∧
  visibleAlbums false (items (state w')) (currentPath w') =
    [sample_leaf; mkAlbum "id0" "Trips" (Some []) (Some [])] ∧
  activePhotos false (items (state w')) (currentPath w') =
    [plain (sample_image "q")].
Proof.
  apply (createAlbum_shows_new_album
           (setNewAlbumName "Trips"
              (sample_world sample_forest ["a"] offline))).
  - reflexivity.
  - right. split; [|by eexists].
    apply (bool_decide_unpack _). vm_compute. exact I.
Defined.

Lemma items_handleFileUpload files w target :
  files ≠ [] →
  last (currentPath w) = Some target →
  items (state (handleFileUpload files w)) =
  handleFileUpload_updateRecursive target
    (newImages_of files (simulateUpload w)).1 (items (state w)).
Proof.
  intros Hfiles Hlast. unfold handleFileUpload. rewrite Hlast.
  destruct files as [|f rest]; [done|].
  destruct (newImages_of (f :: rest) (simulateUpload w)) as [imgs w2].
  by rewrite persistChanges_items.
Qed.

Lemma currentPath_handleFileUpload files w :
  currentPath (handleFileUpload files w) = currentPath w.
Proof.
  unfold handleFileUpload.
  destruct files as [|f rest]; [done|].
  destruct (last (currentPath w)) as [target|]; [|done].
  destruct (newImages_of (f :: rest) (simulateUpload w)) as [imgs w2] eqn:E.
  destruct (persistChanges_world
              (handleFileUpload_updateRecursive target imgs (items (state w)))
              w2) as (reqs & _ & ->).
  cbn [currentPath]. clear -E. revert w2 imgs w E.
  assert (H : ∀ files w, currentPath (newImages_of files w).2 = currentPath w).
  { clear. induction files as [|f files IH]; intros w; simpl; [done|].
    specialize (IH (random_id w).2). unfold random_id in *. simpl in *.
    by destruct (newImages_of files _). }
  intros w2 imgs w E. pose proof (H (f :: rest) (simulateUpload w)) as Hp.
  rewrite E in Hp. exact Hp.
Qed.

(** X12: after [handleFileUpload] in an album that a path without
    repeated ids resolves to, the view stays where it was, the photos
    shown are those there were followed by one photo per file, in the
    order of the files, and the folder cards are those there were. *)
Theorem handleFileUpload_shows_new_photos files w :
  NoDup (currentPath w) →
  is_Some (getCurrentAlbum (items (state w)) (currentPath w)) →
  let w' := handleFileUpload files w in
  let newImages := (newImages_of files (simulateUpload w)).1 in
  currentPath w' = currentPath w ∧
  map image_name newImages = map file_name files ∧
  activePhotos false (items (state w')) (currentPath w') =
    activePhotos false (items (state w)) (currentPath w) ++
    map plain newImages ∧
  visibleAlbums false (items (state w')) (currentPath w') =
    visibleAlbums false (items (state w)) (currentPath w).
Proof.
  intros Hnd [b Hb] w' newImages.
  pose proof (currentPath_handleFileUpload files w) as Hcp.
  split; [done|]. split; [apply newImages_of_spec|].
  fold w' in Hcp. rewrite Hcp.
  destruct (decide (files = [])) as [->|Hfiles].
  { subst w' newImages. simpl. by rewrite app_nil_r. }
  apply getCurrentAlbum_Some_resolves in Hb.
  pose proof (resolves_last_id _ _ _ Hb) as Hlast.
  subst w'. rewrite (items_handleFileUpload _ _ _ Hfiles Hlast).
  fold newImages.
  pose proof (handleFileUpload_resolves _ newImages _ _ _ Hb Hnd Hlast) as Hb'.
  unfold visibleAlbums, activePhotos.
  rewrite (resolves_getCurrentDirectory _ _ _ Hb),
    (resolves_getCurrentDirectory _ _ _ Hb'),
    (resolves_getCurrentAlbum _ _ _ Hb),
    (resolves_getCurrentAlbum _ _ _ Hb').
  split; [|done]. cbn [with_images images default from_option id].
  unfold images_list. by rewrite map_app.
Qed.

Lemma handleFileUpload_shows_new_photos_witness :
  let w := sample_world sample_forest ["a"; "b"] offline in
  let w' := handleFileUpload [sample_file "x.png"] w in
  currentPath w' = ["a"; "b"] ∧
  map image_name (newImages_of [sample_file "x.png"] (simulateUpload w)).1 =
    ["x.png"] ∧
  activePhotos false (items (state w')) (currentPath w') =
    [plain (sample_image "p");
     plain (mkImage "id0" "x.png" "blob:x.png" "2.5 KB")] ∧
  visibleAlbums false (items (state w')) (currentPath w') = [].
Proof.
  apply (handleFileUpload_shows_new_photos [sample_file "x.png"]
           (sample_world sample_forest ["a"; "b"] offline)).
  - apply (bool_decide_unpack _). vm_compute. exact I.
  - by eexists.
Defined.

(** X13: when the last id of the path is the id of no album of the tree,
    [createAlbum] and [handleFileUpload] leave the tree as it was and still
    go on as after an insertion: the typed name is cleared, the dialog is
    closed, identifiers are drawn and the unchanged tree is sent to the
    store. *)
Theorem insertion_at_missing_album w target :
  last (currentPath w) = Some target →
  target ∉ album_ids (items (state w)) →
  (truthy (trim (newAlbumName w)) = true →
   let w' := createAlbum w in
   items (state w') = items (state w) ∧
   newAlbumName w' = "" ∧ isCreatingAlbum w' = false ∧
   drawn w' = S (drawn w) ∧
   ∃ reqs, reqs ≠ [] ∧ fetched w' = fetched w ++ reqs ∧
           Forall (λ r, req_body r = DataBody (items (state w)) ∨
                        req_body r = IdDataBody "1" (items (state w))) reqs) ∧
  (∀ files, files ≠ [] →
   let w' := handleFileUpload files w in
   items (state w') = items (state w) ∧
   drawn w' = drawn w + length files ∧
   ∃ reqs, reqs ≠ [] ∧ fetched w' = fetched w ++ reqs ∧
           Forall (λ r, req_body r = DataBody (items (state w)) ∨
                        req_body r = IdDataBody "1" (items (state w))) reqs).
Proof.
  intros Hlast Habsent. split.
  - intros Hname. cbv zeta. rewrite items_createAlbum by done. cbv zeta.
    rewrite Hlast, createAlbum_absent by done. split; [done|].
    unfold createAlbum. rewrite Hname. cbn [negb random_id].
    rewrite Hlast, createAlbum_absent by done.
    match goal with
    | |- context [persistChanges ?t ?w1] =>
        destruct (persistChanges_world t w1) as (reqs & Hreqs & ->)
    end.
    cbn. do 3 (split; [done|]). exists reqs.
    destruct Hreqs as [-> | ->]; (split; [done|]); (split; [done|]);
      repeat (apply List.Forall_cons; [by (left + right)|]);
      by apply List.Forall_nil.
  - intros files Hfiles. cbv zeta.
    rewrite (items_handleFileUpload _ _ _ Hfiles Hlast),
      handleFileUpload_absent by done.
    split; [done|]. unfold handleFileUpload. rewrite Hlast.
    destruct files as [|f rest]; [done|].
    assert (H : ∀ files w,
      drawn (newImages_of files w).2 = drawn w + length files ∧
      fetched (newImages_of files w).2 = fetched w).
    { clear. induction files as [|f files IH]; intros w; simpl.
      - split; [lia|done].
      - specialize (IH (random_id w).2). unfold random_id in *. simpl in *.
        destruct (newImages_of files _). simpl in *. split; [lia|tauto]. }
    specialize (H (f :: rest) (simulateUpload w)).
    destruct (newImages_of (f :: rest) (simulateUpload w)) as [imgs w2].
    rewrite handleFileUpload_absent by done.
    destruct (persistChanges_world (items (state w)) w2)
      as (reqs & Hreqs & ->).
    cbn [drawn fetched fst snd] in *. destruct H as [Hd Hf].
    split; [exact Hd|]. exists reqs. rewrite Hf.
    destruct Hreqs as [-> | ->]; (split; [done|]); (split; [done|]);
      repeat (apply List.Forall_cons; [by (left + right)|]);
      by apply List.Forall_nil.
Qed.

Lemma insertion_at_missing_album_witness :
  let w := setNewAlbumName "Trips"
             (sample_world sample_forest ["a"; "zz"] offline) in
  items (state (createAlbum w)) = sample_forest ∧
  items (state (handleFileUpload [sample_file "x.png"] w)) = sample_forest.
Proof.
  destruct (insertion_at_missing_album
              (setNewAlbumName "Trips"
                 (sample_world sample_forest ["a"; "zz"] offline)) "zz")
    as [Hc Hu].
  - reflexivity.
  - apply (bool_decide_unpack _). vm_compute. exact I.
  - split.
    + exact (proj1 (Hc eq_refl)).
    + refine (proj1 (Hu [sample_file "x.png"] _)). discriminate.
Defined.

(** ** The photo viewer *)

Lemma rem_next k n :
  (0 ≤ k < n)%Z →
  Z.rem (k + 1 + n) n = (if (k + 1 =? n)%Z then 0 else k + 1)%Z.
Proof.
  intros Hk. destruct (Z.eqb_spec (k + 1) n) as [E|E]; symmetry.
  - apply (Z.rem_unique _ _ 2); lia.
  - apply (Z.rem_unique _ _ 1); lia.
Qed.

Lemma rem_prev k n :
  (0 ≤ k < n)%Z →
  Z.rem (k + -1 + n) n = (if (k =? 0)%Z then n - 1 else k - 1)%Z.
Proof.
  intros Hk. destruct (Z.eqb_spec k 0) as [E|E]; symmetry.
  - apply (Z.rem_unique _ _ 0); lia.
  - apply (Z.rem_unique _ _ 1); lia.
Qed.

(** X14: a key press leaves the viewer closed or on an index of the photos
    shown, whatever the key, when it was so before; it touches neither the
    tree nor the path and sends nothing to the store. *)
Theorem handleKeyDown_index_in_range key viewerIndex w :
  index_in_range viewerIndex w →
  let r := handleKeyDown key viewerIndex w in
  index_in_range r.1 r.2 ∧
  state r.2 = state w ∧ currentPath r.2 = currentPath w ∧
  fetched r.2 = fetched w.
Proof.
  intros Hin. unfold handleKeyDown.
  destruct (String.eqb key "Escape") eqn:Eesc.
  - apply String.eqb_eq in Eesc as ->.
    destruct viewerIndex as [k|]; by cbn.
  - destruct viewerIndex as [k|]; [|by cbn].
    assert (Hn : (Z.of_nat (length (photos w)) =? 0)%Z = false).
    { apply Z.eqb_neq. cbn in Hin. lia. }
    destruct (String.eqb key "ArrowRight");
      [|destruct (String.eqb key "ArrowLeft"); [|by cbn]];
      cbn [navigateViewer fst snd]; rewrite Hn;
      (split; [|done]); cbn [index_in_range] in *;
      [rewrite rem_next by done | rewrite rem_prev by done];
      match goal with |- context [(?a =? ?b)%Z] =>
        destruct (Z.eqb_spec a b) end; lia.
Qed.

Lemma handleKeyDown_index_in_range_witness :
  let w := sample_world sample_forest ["a"; "b"] offline in
  index_in_range (handleKeyDown "ArrowRight" (Some 0%Z) w).1 w.
Proof.
  refine (proj1 (handleKeyDown_index_in_range "ArrowRight" (Some 0%Z)
                   (sample_world sample_forest ["a"; "b"] offline) _)).
  cbn. lia.
Defined.

(** X15: on an index of the photos shown, ArrowRight and ArrowLeft undo
    each other; ArrowRight on the last photo shows the first one and
    ArrowLeft on the first photo shows the last one. *)
Theorem navigateViewer_next_prev k w :
  index_in_range (Some k) w →
  let n := Z.of_nat (length (photos w)) in
  navigateViewer (-1) (navigateViewer 1 (Some k) w) w = Some k ∧
  navigateViewer 1 (navigateViewer (-1) (Some k) w) w = Some k ∧
  navigateViewer 1 (Some (n - 1)%Z) w = Some 0%Z ∧
  navigateViewer (-1) (Some 0%Z) w = Some (n - 1)%Z.
Proof.
  intros Hk n. cbn [index_in_range] in Hk. fold n in Hk.
  assert (Hn : (n =? 0)%Z = false) by (apply Z.eqb_neq; lia).
  unfold navigateViewer. fold n. rewrite Hn.
  repeat split.
  - rewrite rem_next by done.
    destruct (Z.eqb_spec (k + 1) n); rewrite rem_prev by lia.
    + rewrite Z.eqb_refl. f_equal. lia.
    + destruct (Z.eqb_spec (k + 1) 0); [lia|]. f_equal. lia.
  - rewrite rem_prev by done.
    destruct (Z.eqb_spec k 0); rewrite rem_next by lia.
    + destruct (Z.eqb_spec (n - 1 + 1) n); [|lia]. by subst.
    + destruct (Z.eqb_spec (k - 1 + 1) n); [lia|]. f_equal. lia.
  - rewrite rem_next by lia. destruct (Z.eqb_spec (n - 1 + 1) n); [done|lia].
  - rewrite rem_prev by lia. done.
Qed.

Lemma navigateViewer_next_prev_witness :
  let w := handleFileUpload [sample_file "x.png"; sample_file "y.png"]
             (sample_world sample_forest ["a"; "b"] offline) in
  length (photos w) = 3 ∧
  navigateViewer 1 (Some 1%Z) w = Some 2%Z ∧
  navigateViewer (-1) (navigateViewer 1 (Some 1%Z) w) w = Some 1%Z ∧
  navigateViewer 1 (navigateViewer (-1) (Some 1%Z) w) w = Some 1%Z ∧
  navigateViewer 1 (Some 2%Z) w = Some 0%Z ∧
  navigateViewer (-1) (Some 0%Z) w = Some 2%Z.
Proof.
  split; [reflexivity|]. split; [reflexivity|].
  apply (navigateViewer_next_prev 1%Z
           (handleFileUpload [sample_file "x.png"; sample_file "y.png"]
              (sample_world sample_forest ["a"; "b"] offline))).
  cbn. lia.
Defined.

(** ** Loading: requests and waits *)

(** What a call of [fetchWithRetry] leaves behind: it made [k + 1]
    requests, [k] of which failed, and waited [backoff * 2 ^ i] before
    request [i + 1]; its completion is that of the last request, and it
    throws only when the retries are used up. *)
Lemma fetchWithRetry_trace req :
  ∀ retries backoff w,
    let r := fetchWithRetry req retries backoff w in
    ∃ k, k ≤ retries ∧
      r.2 = mkWorld (state w) (currentPath w) (newAlbumName w)
              (isCreatingAlbum w) (showAllNested w) (net w)
              (fetched w ++ replicate (S k) req)
              (timeouts w ++ map (λ i, backoff * 2 ^ i) (seq 0 k))
              (random w) (drawn w) ∧
      (∀ i, i < k →
            fetchWithRetry_try (net w (length (fetched w) + i)) = Thrown) ∧
      r.1 = fetchWithRetry_try (net w (length (fetched w) + k)) ∧
      (r.1 = Thrown → k = retries).
Proof.
  induction retries as [|retries IH]; intros backoff w; simpl;
    destruct (fetchWithRetry_try (net w (length (fetched w)))) as [d|] eqn:E.
  1-3: exists 0; rewrite Nat.add_0_r, E, app_nil_r; simpl;
    (split; [lia|]); (split; [by destruct w|]); (split; [lia|]);
    split; [done | try done].
  specialize (IH (backoff * 2)
    (setTimeout backoff
       (mkWorld (state w) (currentPath w) (newAlbumName w) (isCreatingAlbum w)
          (showAllNested w) (net w) (fetched w ++ [req]) (timeouts w)
          (random w) (drawn w)))).
  cbv zeta in IH. destruct IH as (k & Hk & Hw & Hfail & Hres & Hthrown).
  cbn [setTimeout state currentPath newAlbumName isCreatingAlbum showAllNested
       net fetched timeouts random drawn] in *.
  exists (S k). split; [lia|]. split; [|split; [|split]].
  - rewrite Hw. f_equal.
    + by rewrite <- app_assoc.
    + rewrite <- app_assoc. f_equal. cbn [seq map app].
      rewrite Nat.pow_0_r, Nat.mul_1_r. f_equal.
      rewrite <- seq_shift, map_map. apply map_ext. intros i.
      rewrite Nat.pow_succ_r'. lia.
  - intros [|i] Hi.
    + by rewrite Nat.add_0_r.
    + specialize (Hfail i ltac:(lia)). rewrite length_app in Hfail.
      simpl in Hfail. by replace (length (fetched w) + S i)
        with (length (fetched w) + 1 + i) by lia.
  - rewrite Hres, length_app. simpl. do 2 f_equal. lia.
  - intros Ht. by rewrite (Hthrown Ht).
Qed.

(** X16: [fetchAlbums] always settles: it sends between one and four GET
    requests for the collection and nothing else, waits 500, 1000 and
    2000 ms between them, and ends either [succeeded], with the error
    message the state had, or, after four requests, [failed] with the
    fixed message and the tree it had. *)
Theorem fetchAlbums_settles w :
  let w' := fetchAlbums w in
  ∃ k, k ≤ 3 ∧
    fetched w' = fetched w ++ replicate (S k) (mkRequest GET API_BASE NoBody) ∧
    timeouts w' = timeouts w ++ take k [500; 1000; 2000] ∧
    currentPath w' = currentPath w ∧ drawn w' = drawn w ∧
    syncing (state w') = syncing (state w) ∧
    ((status (state w') = succeeded ∧ error (state w') = error (state w)) ∨
     (status (state w') = failed ∧ k = 3 ∧
      error (state w') = Some fetch_error_message ∧
      items (state w') = items (state w))).
Proof.
  unfold fetchAlbums.
  destruct (fetchWithRetry_trace (mkRequest GET API_BASE NoBody) 3 500
              (dispatch FETCH_START w)) as (k & Hk & Hw & _ & _ & Hthrown).
  destruct (fetchWithRetry _ 3 500 _) as [c w2]. cbn [fst snd] in *.
  exists k. split; [done|]. subst w2.
  assert (Hwaits : map (λ i, 500 * 2 ^ i) (seq 0 k) = take k [500; 1000; 2000]).
  { do 4 (destruct k as [|k]; [reflexivity|]). lia. }
  rewrite Hwaits.
  destruct c as [[[|r records]|]|]; cbn; repeat (split; [done|]); auto.
Qed.

(** X17: a 404 to the first request is not retried: the load ends
    [succeeded] with the empty tree, whatever tree the state had, after
    that one request and without waiting. *)
Theorem fetchAlbums_not_found w json :
  net w (length (fetched w)) = Response 404 json →
  let w' := fetchAlbums w in
  state w' = mkState [] succeeded (error (state w)) (syncing (state w)) ∧
  fetched w' = fetched w ++ [mkRequest GET API_BASE NoBody] ∧
  timeouts w' = timeouts w.
Proof.
  intros Hnet. unfold fetchAlbums. cbn. by rewrite Hnet.
Qed.

Lemma fetchAlbums_not_found_witness :
  let w' := fetchAlbums (sample_world sample_forest []
                           (λ _, Response 404 None)) in
  state w' = mkState [] succeeded None false ∧
  fetched w' = [mkRequest GET API_BASE NoBody] ∧
  timeouts w' = [].
Proof.
  exact (fetchAlbums_not_found
           (sample_world sample_forest [] (λ _, Response 404 None)) None
           eq_refl).
Defined.

(** ** The nested view *)

Lemma fold_left_app_flat_map {A B} (g : A → list B) l :
  ∀ init, fold_left (λ acc x, acc ++ g x) l init = init ++ flat_map g l.
Proof.
  induction l as [|x l IH]; intros init; simpl.
  - by rewrite app_nil_r.
  - by rewrite IH, <- app_assoc.
Qed.

Lemma flat_map_flat_map {A B C} (f : B → list C) (g : A → list B) l :
  flat_map f (flat_map g l) = flat_map (λ x, flat_map f (g x)) l.
Proof.
  induction l as [|x l IH]; simpl; [done|].
  by rewrite flat_map_app, IH.
Qed.

Lemma map_flat_map {A B C} (f : B → C) (g : A → list B) l :
  map f (flat_map g l) = flat_map (λ x, map f (g x)) l.
Proof.
  induction l as [|x l IH]; simpl; [done|].
  by rewrite map_app, IH.
Qed.

Lemma getAllPhotosRecursive_images a :
  ∀ pathName,
    map photo_image (getAllPhotosRecursive a pathName) =
    flat_map images_list (albums_of a).
Proof.
  induction a as [j n im subs IH] using Album_nested_ind. intros pathName.
  cbn [getAllPhotosRecursive albums_of album_name images subAlbums flat_map].
  set (currentName := match pathName with
                      | EmptyString => n
                      | _ => pathName +:+ " / " +:+ n
                      end).
  assert (Hown : map photo_image (map (tagged currentName) (default [] im)) =
                 images_list (mkAlbum j n im subs)).
  { unfold images_list. cbn [images]. rewrite map_map. apply map_id. }
  destruct subs as [subs|]; cbn [default from_option id] in IH.
  - rewrite fold_left_app_flat_map, map_app, Hown. f_equal.
    rewrite map_flat_map, flat_map_flat_map.
    apply flat_map_agree. intros sub Hsub.
    rewrite Forall_forall in IH. by apply IH.
  - by rewrite Hown, app_nil_r.
Qed.

(** X18: in the nested view of the current album the photos are, in
    this order, its own images, which the plain view shows, and the images
    of every album below it, parents before children; each photo carries a
    folder name. *)
Theorem nested_view_photos T path a :
  getCurrentAlbum T path = Some a →
  map photo_image (activePhotos true T path) =
    map photo_image (activePhotos false T path) ++
    flat_map images_list (all_albums (default [] (subAlbums a))) ∧
  Forall (λ p, is_Some (folderName p)) (activePhotos true T path).
Proof.
  intros H. unfold activePhotos. rewrite H. split.
  - rewrite getAllPhotosRecursive_images, map_map. cbn [photo_image plain].
    rewrite map_id. destruct a as [j n im [subs|]]; reflexivity.
  - clear H. generalize "". 
    induction a as [j n im subs IH] using Album_nested_ind. intros pathName.
    cbn [getAllPhotosRecursive album_name images subAlbums].
    set (currentName := match pathName with
                        | EmptyString => n
                        | _ => pathName +:+ " / " +:+ n
                        end).
    assert (Hown : Forall (λ p, is_Some (folderName p))
                     (map (tagged currentName) (default [] im))).
    { apply Forall_forall. intros p Hp%list_elem_of_In.
      apply in_map_iff in Hp as (img & <- & _). by eexists. }
    destruct subs as [subs|]; [|done]. cbn [default from_option id] in IH.
    rewrite fold_left_app_flat_map. apply Forall_app. split; [done|].
    apply Forall_forall. intros p Hp%list_elem_of_In.
    apply in_flat_map in Hp as (sub & Hsub%list_elem_of_In & Hp%list_elem_of_In).
    rewrite Forall_forall in IH.
    specialize (IH sub Hsub currentName). rewrite Forall_forall in IH.
    by apply IH.
Qed.

Lemma nested_view_photos_witness :
  map photo_image (activePhotos true sample_forest ["a"]) =
    [sample_image "q"; sample_image "p"].
Proof.
  exact (proj1 (nested_view_photos sample_forest ["a"] sample_root eq_refl)).
Defined.

(** ** What is sent to the store *)

Lemma processEntries_fetched entries :
  Forall (λ e, ∀ t w, fetched (processEntry e t w).2 = fetched w) entries →
  ∀ t w, fetched (processEntries entries t w).2 = fetched w.
Proof.
  induction 1 as [|e es He _ IH]; intros t w; simpl; [done|].
  specialize (He t w).
  destruct (processEntry e t w) as [[t'|] w']; simpl in *; [|done].
  by rewrite IH.
Qed.

Lemma processEntry_fetched e :
  ∀ t w, fetched (processEntry e t w).2 = fetched w.
Proof.
  induction e as [file|name entries IH] using Entry_nested_ind; intros t w.
  - simpl. destruct (String.prefix "image/" (file_type file)); [|done].
    by destruct (images t).
  - rewrite processEntry_directory_eq.
    destruct (subAlbums t) as [subs|]; [|done].
    pose proof (processEntries_fetched _ IH) as IH'. clear IH.
    rename IH' into IH.
    destruct (List.find _ subs) as [folder|]; cbn [random_id].
    + specialize (IH folder w).
      by destruct (processEntries entries folder w) as [[f'|] w2].
    + match goal with
      | |- context [processEntries entries ?f ?w1] =>
          specialize (IH f w1);
          by destruct (processEntries entries f w1) as [[f'|] w2]
      end.
Qed.

Lemma processItems_fetched dropped :
  ∀ t w, fetched (processItems dropped t w).2 = fetched w.
Proof.
  induction dropped as [|item rest IH]; intros t w; simpl; [done|].
  destruct (if String.eqb (kind item) "file" then entry item else None)
    as [e|]; [|apply IH].
  pose proof (processEntry_fetched e t w) as He.
  destruct (processEntry e t w) as [[t'|] w']; simpl in *; [|done].
  by rewrite IH.
Qed.

(** ** Saves in flight *)

(** A save whose answers arrive before anything else happens is
    [persistChanges] as the handlers use it. *)
Lemma persistChanges_settled_at_once t w answered :
  let n := length (fetched w) in
  n ∉ answered → S n ∉ answered →
  world (interleave [Save t; Answer n; Answer (S n)] (mkSession w answered)) =
  persistChanges t w.
Proof.
  intros n Hn HSn. subst n.
  unfold interleave, persistChanges, syncToBackend, syncToBackend_try.
  cbn [fold_left step world settled persistChanges_issue fetch snd dispatch
       fetched net state].
  unfold settle at 2.
  cbn [world settled fetched net].
  rewrite bool_decide_eq_false_2 by done.
  rewrite list_lookup_middle by done.
  cbn [req_method req_body put_request].
  assert (HSn' : S (length (fetched w)) ∉ length (fetched w) :: answered).
  { apply not_elem_of_cons. split; [lia | done]. }
  destruct (net w (length (fetched w))) as [|st j].
  - unfold settle. cbn [world settled fetched dispatch].
    rewrite bool_decide_eq_false_2 by done.
    rewrite lookup_ge_None_2 by (rewrite length_app; simpl; lia).
    reflexivity.
  - destruct (negb (ok st)).
    + unfold settle.
      cbn [world settled fetched dispatch fetch snd net].
      rewrite bool_decide_eq_false_2 by done.
      rewrite list_lookup_middle by (rewrite length_app; simpl; lia).
      cbn [req_method req_body post_request].
      rewrite length_app. cbn [length]. rewrite Nat.add_1_r.
      by destruct (net w (S (length (fetched w)))).
    + unfold settle. cbn [world settled fetched dispatch].
      rewrite bool_decide_eq_false_2 by done.
      rewrite lookup_ge_None_2 by (rewrite length_app; simpl; lia).
      reflexivity.
Qed.



(** The last request of all need not carry the tree in the state: a first
    save whose PUT is answered 404 only after a second save has started
    sends its POST, with the older tree, last. *)
Lemma last_request_may_be_stale :
  let s' := interleave [Save sample_forest; Save []; Answer 0]
              (mkSession (initial_world empty_store numbered_id) []) in
  fetched (world s') =
    [put_request sample_forest; put_request []; post_request sample_forest] ∧
  items (state (world s')) = [].
Proof. split; reflexivity. Qed.

(** ** Dropping files outside an album *)

Lemma processItems_files dropped :
  Forall (λ item, ∀ e, entry item = Some e → ∃ file, e = FileEntry file)
    dropped →
  ∀ t w, is_Some (images t) →
    ∃ t', (processItems dropped t w).1 = Returned t' ∧
          subAlbums t' = subAlbums t ∧ is_Some (images t').
Proof.
  induction 1 as [|item rest Hitem _ IH]; intros t w Himgs; simpl.
  - by exists t.
  - destruct (String.eqb (kind item) "file"); [|by apply IH].
    destruct (entry item) as [e|]; [|by apply IH].
    destruct (Hitem e eq_refl) as [file ->]. simpl.
    destruct (String.prefix "image/" (file_type file)); [|by apply IH].
    destruct Himgs as [imgs Himgs]. rewrite Himgs. simpl.
    match goal with
    | |- context [processItems rest ?t1 ?w1] =>
        destruct (IH t1 w1) as (t' & Ht' & Hsubs & Himgs'); [by eexists|]
    end.
    by exists t'.
Qed.

(** X20: image files dropped while the path is empty, or while its last
    segment is not found, are put nowhere: the tree is the one there was,
    and it is sent to the store all the same. *)
Theorem handleDrop_files_outside_album dropped w :
  drop_walk (currentPath w) (Some (items (state w))) [] None =
    Returned None →
  Forall (λ item, ∀ e, entry item = Some e → ∃ file, e = FileEntry file)
    dropped →
  let w' := handleDrop (Some dropped) w in
  items (state w') = items (state w) ∧
  ∃ reqs, reqs ≠ [] ∧ fetched w' = fetched w ++ reqs ∧
          Forall (λ r, r = put_request (items (state w)) ∨
                       r = post_request (items (state w))) reqs.
Proof.
  intros Hwalk Hfiles. cbv zeta. unfold handleDrop. rewrite Hwalk.
  destruct (processItems_files dropped Hfiles
              (mkAlbum "" "" (Some []) (Some (items (state w))))
              (simulateUpload w)) as (t' & Ht' & Hsubs & _); [by eexists|].
  pose proof (processItems_fetched dropped
                (mkAlbum "" "" (Some []) (Some (items (state w))))
                (simulateUpload w)) as Hf.
  destruct (processItems dropped _ _) as [c w2]. cbn [fst snd] in *.
  subst c. rewrite Hsubs. cbn [subAlbums default from_option id].
  rewrite persistChanges_items. split; [done|].
  destruct (persistChanges_world (items (state w)) w2)
    as (reqs & Hreqs & ->).
  exists reqs. cbn [fetched]. rewrite Hf.
  destruct Hreqs as [-> | ->]; (split; [done|]); (split; [done|]);
    repeat (apply List.Forall_cons; [by (left + right)|]);
    by apply List.Forall_nil.
Qed.

Lemma handleDrop_files_outside_album_witness :
  items (state (handleDrop
                  (Some [mkItem "file" (Some (FileEntry (sample_file "x.png")))])
                  (sample_world sample_forest [] offline))) = sample_forest.
Proof.
  refine (proj1 (handleDrop_files_outside_album
                   [mkItem "file" (Some (FileEntry (sample_file "x.png")))]
                   (sample_world sample_forest [] offline) eq_refl _)).
  apply List.Forall_cons; [|by apply List.Forall_nil].
  intros e [= <-]. by eexists.
Defined.

(** ** The second album manager: loading *)

(** X21: the second album manager sends the same requests and waits as
    the first one and never reports a failed load: it always ends
    [succeeded] without error message; where the first one fails and
    keeps its tree, the second one shows the empty tree, and where the
    first one loads a tree that is not empty, the second one loads the
    same tree. *)
Theorem second_load_hides_failure w :
  let w1 := fetchAlbums w in
  let w2 := PersistentUrls.fetchAlbums w in
  fetched w2 = fetched w1 ∧ timeouts w2 = timeouts w1 ∧
  status (state w2) = succeeded ∧ error (state w2) = None ∧
  (status (state w1) = failed → items (state w2) = []) ∧
  (status (state w1) = succeeded → items (state w1) ≠ [] →
   items (state w2) = items (state w1)).
Proof.
  cbv zeta. unfold fetchAlbums, PersistentUrls.fetchAlbums.
  change (PersistentUrls.dispatch FETCH_START w) with (dispatch FETCH_START w).
  destruct (fetchWithRetry _ 3 500 _) as [[[[|r records]|]|] w2];
    try (by cbn).
  destruct (List.find _ (r :: records)) as [item|] eqn:E; by cbn.
Qed.

(** ** The retry helper of the copy editor *)

Lemma attempt_try_body_of {J} attempt maxRetries
    (settled : CopyEditor.Promise (CopyEditor.Response J)) :
  match CopyEditor.body_of settled with
  | Some j =>
      CopyEditor.attempt_try attempt maxRetries settled = CopyEditor.Resolves j
  | None =>
      ∃ message,
        CopyEditor.attempt_try attempt maxRetries settled =
        CopyEditor.Rejects message
  end.
Proof.
  destruct settled as [[[] st txt [j|m]]|m];
    cbn [CopyEditor.body_of CopyEditor.attempt_try CopyEditor.resp_ok
         CopyEditor.resp_json CopyEditor.resp_status CopyEditor.statusText
         negb];
    eauto; destruct ((st =? 429) && (attempt + 1 <? maxRetries)); eauto.
Qed.

Lemma attempts_all_fail {J} (apiCall : nat → CopyEditor.Promise (CopyEditor.Response J))
    maxRetries :
  ∀ n attempt e,
    attempt + n = maxRetries → 0 < n →
    (∀ i, i < n → CopyEditor.body_of (apiCall (CopyEditor.calls e + i)) = None) →
    let r := CopyEditor.attempts apiCall n attempt maxRetries e in
    r.1 = CopyEditor.Throws CopyEditor.failure_message ∧
    CopyEditor.calls r.2 = CopyEditor.calls e + n ∧
    CopyEditor.waited r.2 =
      CopyEditor.waited e ++
      map (λ i, (2 ^ (attempt + i) * 1000, CopyEditor.randoms e + i))
        (seq 0 (n - 1)) ∧
    length (CopyEditor.warned r.2) = length (CopyEditor.warned e) + n.
Proof.
  induction n as [|n IH]; intros attempt e Hsum Hpos Hfail; [lia|].
  cbn [CopyEditor.attempts].
  replace (attempt <? maxRetries) with true by (symmetry; apply Nat.ltb_lt; lia).
  pose proof (attempt_try_body_of attempt maxRetries
                (apiCall (CopyEditor.calls e))) as Htry.
  pose proof (Hfail 0 ltac:(lia)) as H0. rewrite Nat.add_0_r in H0.
  rewrite H0 in Htry. destruct Htry as [message ->].
  cbn [CopyEditor.calls CopyEditor.randoms CopyEditor.warned CopyEditor.waited].
  destruct (Nat.eqb_spec (attempt + 1) maxRetries) as [Elast|Emore].
  - assert (n = 0) as -> by lia. cbn.
    rewrite app_nil_r, length_app. simpl. repeat split; lia.
  - match goal with
    | |- context [CopyEditor.attempts apiCall n (S attempt) maxRetries ?e1] =>
        destruct (IH (S attempt) e1) as (Hr & Hc & Hw & Hl); [lia|lia|..]
    end.
    { intros i Hi. cbn [CopyEditor.calls].
      replace (S (CopyEditor.calls e) + i) with (CopyEditor.calls e + S i)
        by lia.
      apply Hfail. lia. }
    cbv zeta.
    cbn [CopyEditor.calls CopyEditor.randoms CopyEditor.warned
         CopyEditor.waited] in *.
    rewrite Hr, Hc, Hw, Hl, length_app. simpl length.
    split; [done|]. split; [lia|]. split; [|lia].
    rewrite <- app_assoc. f_equal.
    replace (S n - 1) with (S (n - 1)) by lia.
    cbn [seq map app]. rewrite !Nat.add_0_r. f_equal.
    rewrite <- seq_shift, map_map. apply map_ext. intros i.
    f_equal; [|lia]. f_equal. f_equal. lia.
Qed.

Lemma attempts_success {J} (apiCall : nat → CopyEditor.Promise (CopyEditor.Response J))
    maxRetries j :
  ∀ k n attempt e,
    attempt + n = maxRetries → k < n →
    (∀ i, i < k → CopyEditor.body_of (apiCall (CopyEditor.calls e + i)) = None) →
    CopyEditor.body_of (apiCall (CopyEditor.calls e + k)) = Some j →
    let r := CopyEditor.attempts apiCall n attempt maxRetries e in
    r.1 = CopyEditor.Json j ∧
    CopyEditor.calls r.2 = CopyEditor.calls e + k + 1 ∧
    CopyEditor.waited r.2 =
      CopyEditor.waited e ++
      map (λ i, (2 ^ (attempt + i) * 1000, CopyEditor.randoms e + i))
        (seq 0 k) ∧
    length (CopyEditor.warned r.2) = length (CopyEditor.warned e) + k.
Proof.
  induction k as [|k IH]; intros n attempt e Hsum Hk Hfail Hok;
    (destruct n as [|n]; [lia|]); cbn [CopyEditor.attempts];
    replace (attempt <? maxRetries) with true
      by (symmetry; apply Nat.ltb_lt; lia);
    pose proof (attempt_try_body_of attempt maxRetries
                  (apiCall (CopyEditor.calls e))) as Htry.
  - rewrite Nat.add_0_r in Hok. rewrite Hok in Htry. rewrite Htry. cbn.
    rewrite app_nil_r. repeat split; lia.
  - pose proof (Hfail 0 ltac:(lia)) as H0. rewrite Nat.add_0_r in H0.
    rewrite H0 in Htry. destruct Htry as [message ->].
    cbn [CopyEditor.calls CopyEditor.randoms CopyEditor.warned
         CopyEditor.waited].
    destruct (Nat.eqb_spec (attempt + 1) maxRetries) as [Elast|Emore]; [lia|].
    match goal with
    | |- context [CopyEditor.attempts apiCall n (S attempt) maxRetries ?e1] =>
        destruct (IH n (S attempt) e1) as (Hr & Hc & Hw & Hl); [lia|lia|..]
    end.
    { intros i Hi. cbn [CopyEditor.calls].
      replace (S (CopyEditor.calls e) + i) with (CopyEditor.calls e + S i)
        by lia.
      apply Hfail. lia. }
    { cbn [CopyEditor.calls].
      by replace (S (CopyEditor.calls e) + k) with (CopyEditor.calls e + S k)
        by lia. }
    cbv zeta.
    cbn [CopyEditor.calls CopyEditor.randoms CopyEditor.warned
         CopyEditor.waited] in *.
    rewrite Hr, Hc, Hw, Hl, length_app. simpl length.
    split; [done|]. split; [lia|]. split; [|lia].
    rewrite <- app_assoc. f_equal.
    cbn [seq map app]. rewrite !Nat.add_0_r. f_equal.
    rewrite <- seq_shift, map_map. apply map_ext. intros i.
    f_equal; [|lia]. f_equal. f_equal. lia.
Qed.

(** X22: when each of the [maxRetries] calls fails, whatever the failure
    (a rejection, any status that is not ok, a body that does not parse),
    [withExponentialBackoff] makes exactly [maxRetries] calls, waits
    before each call but the first, the [i]-th time [2 ^ i] seconds plus
    the jitter, warns once per call and throws its fixed message. *)
Theorem withExponentialBackoff_gives_up {J}
    (apiCall : nat → CopyEditor.Promise (CopyEditor.Response J))
    maxRetries e :
  0 < maxRetries →
  (∀ i, i < maxRetries →
        CopyEditor.body_of (apiCall (CopyEditor.calls e + i)) = None) →
  let r := CopyEditor.withExponentialBackoff apiCall maxRetries e in
  r.1 = CopyEditor.Throws CopyEditor.failure_message ∧
  CopyEditor.calls r.2 = CopyEditor.calls e + maxRetries ∧
  CopyEditor.waited r.2 =
    CopyEditor.waited e ++
    map (λ i, (2 ^ i * 1000, CopyEditor.randoms e + i))
      (seq 0 (maxRetries - 1)) ∧
  length (CopyEditor.warned r.2) = length (CopyEditor.warned e) + maxRetries.
Proof.
  intros Hpos Hfail.
  exact (attempts_all_fail apiCall maxRetries maxRetries 0 e eq_refl Hpos Hfail).
Qed.

Lemma withExponentialBackoff_gives_up_witness :
  let r := CopyEditor.withExponentialBackoff CopyEditor.busy_service 3
             CopyEditor.fresh_env in
  r.1 = CopyEditor.Throws CopyEditor.failure_message ∧
  CopyEditor.calls r.2 = 3 ∧
  CopyEditor.waited r.2 = [(1000, 0); (2000, 1)] ∧
  length (CopyEditor.warned r.2) = 3.
Proof.
  apply (withExponentialBackoff_gives_up CopyEditor.busy_service 3
           CopyEditor.fresh_env); [lia|].
  intros i Hi. do 3 (destruct i as [|i]; [reflexivity|]). lia.
Defined.

(** X23: when call [k] is the first that succeeds, and [k] is below
    [maxRetries], [withExponentialBackoff] returns its parsed body after
    [k + 1] calls and [k] waits of [2 ^ i] seconds plus the jitter. *)
Theorem withExponentialBackoff_first_success {J}
    (apiCall : nat → CopyEditor.Promise (CopyEditor.Response J))
    maxRetries e k j :
  k < maxRetries →
  (∀ i, i < k →
        CopyEditor.body_of (apiCall (CopyEditor.calls e + i)) = None) →
  CopyEditor.body_of (apiCall (CopyEditor.calls e + k)) = Some j →
  let r := CopyEditor.withExponentialBackoff apiCall maxRetries e in
  r.1 = CopyEditor.Json j ∧
  CopyEditor.calls r.2 = CopyEditor.calls e + k + 1 ∧
  CopyEditor.waited r.2 =
    CopyEditor.waited e ++
    map (λ i, (2 ^ i * 1000, CopyEditor.randoms e + i)) (seq 0 k) ∧
  length (CopyEditor.warned r.2) = length (CopyEditor.warned e) + k.
Proof.
  intros Hk Hfail Hok.
  exact (attempts_success apiCall maxRetries j k maxRetries 0 e eq_refl Hk
           Hfail Hok).
Qed.

Lemma withExponentialBackoff_first_success_witness :
  let r := CopyEditor.withExponentialBackoff CopyEditor.busy_service 5
             CopyEditor.fresh_env in
  r.1 = CopyEditor.Json "body" ∧
  CopyEditor.calls r.2 = 4 ∧
  CopyEditor.waited r.2 = [(1000, 0); (2000, 1); (4000, 2)] ∧
  length (CopyEditor.warned r.2) = 3.
Proof.
  apply (withExponentialBackoff_first_success CopyEditor.busy_service 5
           CopyEditor.fresh_env 3 "body"); [lia| |reflexivity].
  intros i Hi. do 3 (destruct i as [|i]; [reflexivity|]). lia.
Defined.

Lemma attempts_status_blind {J}
    (apiCall apiCall' : nat → CopyEditor.Promise (CopyEditor.Response J))
    maxRetries :
  (∀ k, CopyEditor.body_of (apiCall k) = CopyEditor.body_of (apiCall' k)) →
  ∀ fuel attempt e e',
    CopyEditor.calls e = CopyEditor.calls e' →
    CopyEditor.randoms e = CopyEditor.randoms e' →
    CopyEditor.waited e = CopyEditor.waited e' →
    let r := CopyEditor.attempts apiCall fuel attempt maxRetries e in
    let r' := CopyEditor.attempts apiCall' fuel attempt maxRetries e' in
    r.1 = r'.1 ∧ CopyEditor.calls r.2 = CopyEditor.calls r'.2 ∧
    CopyEditor.randoms r.2 = CopyEditor.randoms r'.2 ∧
    CopyEditor.waited r.2 = CopyEditor.waited r'.2.
Proof.
  intros Hsame. induction fuel as [|fuel IH]; intros attempt e e' Hc Hr Hw;
    cbn [CopyEditor.attempts]; [done|].
  destruct (attempt <? maxRetries); [|done].
  destruct e as [c r wn wt], e' as [c' r' wn' wt'].
  cbn [CopyEditor.calls CopyEditor.randoms CopyEditor.warned
       CopyEditor.waited] in *. subst c' r' wt'.
  pose proof (attempt_try_body_of attempt maxRetries (apiCall c)) as Htry.
  pose proof (attempt_try_body_of attempt maxRetries (apiCall' c)) as Htry'.
  rewrite Hsame in Htry.
  destruct (CopyEditor.body_of (apiCall' c)) as [j|].
  - rewrite Htry, Htry'. by cbn.
  - destruct Htry as [m ->], Htry' as [m' ->].
    destruct (attempt + 1 =? maxRetries); [by cbn|].
    by apply IH.
Qed.

(** X24: the status of a response that is not ok makes no difference to
    what the caller gets: two services whose calls succeed at the same
    times with the same bodies lead to the same outcome, the same number
    of calls and the same waits, so a 429 is retried exactly as any other
    failure is. *)
Theorem withExponentialBackoff_status_blind {J}
    (apiCall apiCall' : nat → CopyEditor.Promise (CopyEditor.Response J))
    maxRetries e :
  (∀ k, CopyEditor.body_of (apiCall k) = CopyEditor.body_of (apiCall' k)) →
  let r := CopyEditor.withExponentialBackoff apiCall maxRetries e in
  let r' := CopyEditor.withExponentialBackoff apiCall' maxRetries e in
  r.1 = r'.1 ∧ CopyEditor.calls r.2 = CopyEditor.calls r'.2 ∧
  CopyEditor.waited r.2 = CopyEditor.waited r'.2.
Proof.
  intros Hsame.
  destruct (attempts_status_blind apiCall apiCall' maxRetries Hsame
              maxRetries 0 e e eq_refl eq_refl eq_refl) as (H1 & H2 & _ & H4).
  by repeat split.
Qed.

Lemma withExponentialBackoff_status_blind_witness :
  (CopyEditor.withExponentialBackoff CopyEditor.busy_service 5
     CopyEditor.fresh_env).1 =
  (CopyEditor.withExponentialBackoff CopyEditor.failing_service 5
     CopyEditor.fresh_env).1.
Proof.
  refine (proj1 (withExponentialBackoff_status_blind CopyEditor.busy_service
                   CopyEditor.failing_service 5 CopyEditor.fresh_env _)).
  intros k. do 4 (destruct k as [|k]; [reflexivity|]). reflexivity.
Defined.

(** ** A drop removes nothing *)

Lemma keeps_ids_return : keeps_ids (λ t w, (Returned t, w)).
Proof.
  intros t w t' [= <-]. split; [done|]. split; apply at_most_refl.
Qed.

Lemma keeps_ids_then p q :
  keeps_ids p → keeps_ids q →
  keeps_ids
    (λ t w, match p t w with
            | (Returned t', w') => q t' w'
            | (Thrown, w') => (Thrown, w')
            end).
Proof.
  intros Hp Hq t w t'. specialize (Hp t w).
  destruct (p t w) as [[t1|] w1]; [|done].
  destruct (Hp t1 eq_refl) as (Hid1 & Hi1 & Hs1).
  intros H. destruct (Hq t1 w1 t' H) as (Hid2 & Hi2 & Hs2).
  split; [congruence|].
  split; intros x; [specialize (Hi1 x); specialize (Hi2 x)
                   |specialize (Hs1 x); specialize (Hs2 x)]; lia.
Qed.

Lemma processEntries_keeps entries :
  Forall (λ e, keeps_ids (processEntry e)) entries →
  keeps_ids (processEntries entries).
Proof.
  induction 1 as [|e es He _ IH].
  - apply keeps_ids_return.
  - exact (keeps_ids_then _ _ He IH).
Qed.

Lemma processEntry_keeps e : keeps_ids (processEntry e).
Proof.
  induction e as [file|name entries IH] using Entry_nested_ind; intros t w t'.
  - simpl. destruct (String.prefix "image/" (file_type file));
      [|apply (keeps_ids_return t w t')].
    destruct (images t) as [imgs|] eqn:Eimgs; [|done]. simpl.
    intros [= <-]. split; [done|]. split; [|apply at_most_refl].
    intros x. unfold images_list. cbn [with_images images]. rewrite Eimgs.
    cbn [default from_option id]. rewrite map_app, count_occ_app. lia.
  - rewrite processEntry_directory_eq.
    destruct (subAlbums t) as [subs|] eqn:Esubs; [|done].
    pose proof (processEntries_keeps _ IH) as Hkeeps. clear IH.
    destruct (List.find _ subs) as [folder|] eqn:Efind.
    + specialize (Hkeeps folder w).
      destruct (processEntries entries folder w) as [[folder'|] w2];
        [|done]. cbn [fst snd] in *.
      intros [= <-]. destruct (Hkeeps folder' eq_refl) as (Hid & Hi & Hs).
      split; [done|]. split; [apply at_most_refl|]. intros x.
      specialize (Hi x). specialize (Hs x). revert Hi Hs.
      destruct (put_folder_found _ _ _ Efind) as (pre & post & -> & Hput).
      cbn [with_subAlbums subAlbums default from_option id].
      rewrite Hput. count_ids. rewrite Hid. lia.
    + cbn [random_id].
      match goal with
      | |- context [processEntries entries ?f ?w1] =>
          specialize (Hkeeps f w1);
          destruct (processEntries entries f w1) as [[folder'|] w2]
      end; [|done]. cbn [fst snd] in *.
      intros [= <-]. split; [done|]. split; [apply at_most_refl|]. intros x.
      cbn [with_subAlbums subAlbums default from_option id].
      rewrite (put_folder_new _ _ _ Efind), all_ids_app, count_occ_app. lia.
Qed.

Lemma processItems_keeps dropped : keeps_ids (processItems dropped).
Proof.
  induction dropped as [|item rest IH].
  - apply keeps_ids_return.
  - intros t w. simpl.
    destruct (if String.eqb (kind item) "file" then entry item else None)
      as [e|]; [|apply IH].
    exact (keeps_ids_then _ _ (processEntry_keeps e) IH t w).
Qed.

Lemma processAt_keeps process :
  keeps_ids process →
  ∀ position lst w lst',
    (processAt position process lst w).1 = Returned lst' →
    at_most (all_ids lst) (all_ids lst').
Proof.
  intros Hkeeps.
  induction position as [|k deeper IH]; intros lst w lst'; simpl;
    [intros [= <-]; apply at_most_refl|].
  destruct (lst !! k) as [a|] eqn:Ek; [|intros [= <-]; apply at_most_refl].
  pose proof (take_drop_middle lst k a Ek) as Hmid.
  pose proof (lookup_lt_Some _ _ _ Ek) as Hlt.
  destruct deeper as [|k' deeper'].
  - specialize (Hkeeps a w).
    destruct (process a w) as [[a'|] w']; [|done]. cbn [fst snd] in *.
    intros [= <-]. destruct (Hkeeps a' eq_refl) as (Hid & Hi & Hs).
    rewrite (insert_take_drop lst k a') by done.
    revert Hmid. generalize (take k lst) (drop (S k) lst).
    intros pre post <- x. specialize (Hi x). specialize (Hs x).
    revert Hi Hs. count_ids. rewrite Hid. lia.
  - destruct (subAlbums a) as [subs|] eqn:Esubs; [|intros [= <-]; apply at_most_refl].
    specialize (IH subs w).
    destruct (processAt (k' :: deeper') process subs w) as [[subs'|] w'];
      [|done]. cbn [fst snd] in *.
    intros [= <-]. pose proof (IH subs' eq_refl) as Hle.
    rewrite (insert_take_drop lst k _) by done.
    revert Hmid. generalize (take k lst) (drop (S k) lst).
    intros pre post <- x. specialize (Hle x). revert Hle.
    count_ids. rewrite Esubs. count_ids. lia.
Qed.

(** X25: a drop removes nothing and invents nothing: whatever is dropped
    and wherever the path points, every identifier occurs in the new tree
    at least as often as in the old one, and at most as often as in the
    old one and among the identifiers drawn meanwhile. *)
Theorem handleDrop_keeps_ids dropped w :
  let w' := handleDrop dropped w in
  at_most (all_ids (items (state w))) (all_ids (items (state w'))) ∧
  at_most (all_ids (items (state w')))
    (all_ids (items (state w)) ++ draws (random w) (drawn w) (drawn w')).
Proof.
  cbv zeta. split; [|apply handleDrop_ids].
  unfold handleDrop. destruct dropped as [dropped|]; [|apply at_most_refl].
  destruct (drop_walk _ _ _ _) as [[position|]|]; [| |apply at_most_refl].
  - pose proof (processAt_keeps _ (processItems_keeps dropped) position
                  (items (state w)) (simulateUpload w)) as Hkeeps.
    destruct (processAt_adds _ (processItems_adds dropped) position
                (items (state w)) (simulateUpload w)) as (Hs & _).
    destruct (processAt position _ _ _) as [[next|] w2]; cbn [fst snd] in *.
    + rewrite persistChanges_items. by apply Hkeeps.
    + rewrite Hs. apply at_most_refl.
  - pose proof (processItems_keeps dropped
                  (mkAlbum "" "" (Some []) (Some (items (state w))))
                  (simulateUpload w)) as Hkeeps.
    destruct (processItems_adds dropped
                (mkAlbum "" "" (Some []) (Some (items (state w))))
                (simulateUpload w)) as (Hs & _).
    destruct (processItems dropped _ _) as [[t|] w2]; cbn [fst snd] in *.
    + rewrite persistChanges_items.
      by destruct (Hkeeps t eq_refl) as (_ & _ & Hsubs).
    + rewrite Hs. apply at_most_refl.
Qed.

(** ** Dropping on the current album *)

Lemma find_index_find i lst a :
  find_by_id i lst = Some a →
  ∃ k, find_index_by_id i lst = Some (k, a) ∧ lst !! k = Some a.
Proof.
  unfold find_by_id. induction lst as [|x l IH]; simpl; [done|].
  destruct (String.eqb (album_id x) i).
  - intros [= ->]. by exists 0.
  - intros H. destruct (IH H) as (k & -> & Hk). by exists (S k).
Qed.

Lemma find_by_id_insert i lst :
  ∀ k a a',
    find_index_by_id i lst = Some (k, a) → album_id a' = i →
    find_by_id i (<[k := a']> lst) = Some a'.
Proof.
  induction lst as [|x l IH]; intros k a a'; simpl; [done|].
  destruct (String.eqb (album_id x) i) eqn:E.
  - intros [= <- <-] Hid. unfold find_by_id. simpl.
    by rewrite Hid, String.eqb_refl.
  - destruct (find_index_by_id i l) as [[k' a0]|] eqn:E2; simpl; [|done].
    intros [= <- <-] Hid. unfold find_by_id. simpl. rewrite E.
    by apply (IH k' a0).
Qed.

Lemma processAt_deeper k k' deeper process lst w :
  processAt (k :: k' :: deeper) process lst w =
  match lst !! k with
  | None => (Returned lst, w)
  | Some a =>
      match subAlbums a with
      | None => (Returned lst, w)
      | Some subs =>
          match processAt (k' :: deeper) process subs w with
          | (Returned subs', w') =>
              (Returned (<[k := with_subAlbums a (Some subs')]> lst), w')
          | (Thrown, w') => (Thrown, w')
          end
      end
  end.
Proof. reflexivity. Qed.

(** Where the walk of [handleDrop] ends on a path that resolves, and what
    processing the album there does to the tree. *)
Lemma drop_into_resolved process T path a :
  resolves T path a →
  ∀ here found w,
    ∃ k deeper,
      drop_walk path (Some T) here found =
        Returned (Some (here ++ k :: deeper)) ∧
      match process a w with
      | (Returned a', w') =>
          album_id a' = album_id a →
          ∃ T', processAt (k :: deeper) process T w = (Returned T', w') ∧
                resolves T' path a'
      | (Thrown, w') => processAt (k :: deeper) process T w = (Thrown, w')
      end.
Proof.
  induction 1 as [lst i a H|lst i a1 rest b H Hrest IH]; intros here found w;
    destruct (find_index_find _ _ _ H) as (k & Hk & Hlk);
    pose proof (find_by_id_Some _ _ _ H) as [Hi _].
  - exists k, []. simpl. rewrite Hk, Hlk. split; [done|].
    destruct (process a w) as [[a'|] w']; [|done].
    intros Hid. eexists. split; [done|]. apply resolves_last.
    apply (find_by_id_insert _ _ _ _ _ Hk). congruence.
  - destruct (subAlbums a1) as [subs|] eqn:Esubs;
      [|inversion Hrest; subst; by rewrite find_by_id_nil in *].
    cbn [default from_option id] in *.
    destruct (IH (here ++ [k]) (Some (here ++ [k])) w)
      as (k' & deeper & Hwalk & Hproc).
    exists k, (k' :: deeper). split.
    + destruct rest as [|i' rest']; [inversion Hrest|].
      cbn [drop_walk]. rewrite Hk, Esubs.
      cbn [drop_walk] in Hwalk. rewrite Hwalk. by rewrite <- app_assoc.
    + rewrite processAt_deeper, Hlk, Esubs.
      destruct (process b w) as [[b'|] w'].
      * intros Hid. destruct (Hproc Hid) as (subs' & -> & Hres).
        eexists. split; [done|].
        apply resolves_step with (with_subAlbums a1 (Some subs')); [|done].
        by apply (find_by_id_insert _ _ _ _ _ Hk).
      * by rewrite Hproc.
Qed.

(** X26: what is dropped while the path resolves to an album goes into
    that album: the drop processes the items on it, and when that returns,
    the path resolves, in the new tree, to the album as the processing left
    it; when it throws, the tree stays as it was. *)
Theorem handleDrop_fills_current_album dropped w a :
  getCurrentAlbum (items (state w)) (currentPath w) = Some a →
  let w' := handleDrop (Some dropped) w in
  match (processItems dropped a (simulateUpload w)).1 with
  | Returned a' => getCurrentAlbum (items (state w')) (currentPath w) = Some a'
  | Thrown => items (state w') = items (state w)
  end.
Proof.
  intros Hres%getCurrentAlbum_Some_resolves. cbv zeta. unfold handleDrop.
  destruct (drop_into_resolved (processItems dropped) _ _ _ Hres [] None
              (simulateUpload w)) as (k & deeper & -> & Hproc).
  cbn [app].
  destruct (processItems_adds dropped a (simulateUpload w))
    as (Hs & _ & _ & Hid).
  destruct (processItems dropped a (simulateUpload w)) as [[a'|] w2];
    cbn [fst snd] in *.
  - destruct (Hproc (proj1 (Hid a' eq_refl))) as (T' & -> & Hres').
    rewrite persistChanges_items. by apply resolves_getCurrentAlbum.
  - rewrite Hproc. by rewrite Hs.
Qed.

Lemma handleDrop_fills_current_album_witness :
  let w := sample_world sample_forest ["a"; "b"] offline in
  getCurrentAlbum
    (items (state (handleDrop (Some [file_item (sample_file "x.png")]) w)))
    ["a"; "b"] =
  Some (mkAlbum "b" "Beach"
          (Some [sample_image "p";
                 mkImage "id0" "x.png" "blob:x.png" "2.5 KB"])
          (Some [])).
Proof.
  exact (handleDrop_fills_current_album [file_item (sample_file "x.png")]
           (sample_world sample_forest ["a"; "b"] offline) sample_leaf
           eq_refl).
Defined.

Lemma processItems_image_files files :
  Forall (λ file, String.prefix "image/" (file_type file) = true) files →
  ∀ a imgs w,
    images a = Some imgs →
    processItems (map file_item files) a w =
    (Returned (with_images a (Some (imgs ++ (newImages_of files w).1))),
     (newImages_of files w).2).
Proof.
  induction 1 as [|file rest Hfile _ IH]; intros a imgs w Himgs; simpl.
  - rewrite app_nil_r. destruct a as [j n im subs]. simpl in Himgs.
    by subst im.
  - rewrite Hfile, Himgs. cbn [random_id].
    erewrite IH by reflexivity.
    unfold random_id.
    destruct (newImages_of rest _) as [more w2]. cbn [fst snd].
    unfold with_images. cbn [album_id album_name subAlbums].
    by rewrite <- app_assoc.
Qed.

(** X27: image files dropped on an album whose path resolves without
    repeated ids, and which has an [images] array, show the same photos
    under that path as the same files chosen in the file dialog. *)
Theorem drop_as_upload files w a :
  files ≠ [] →
  Forall (λ file, String.prefix "image/" (file_type file) = true) files →
  NoDup (currentPath w) →
  getCurrentAlbum (items (state w)) (currentPath w) = Some a →
  is_Some (images a) →
  activePhotos false
    (items (state (handleDrop (Some (map file_item files)) w)))
    (currentPath w) =
  activePhotos false (items (state (handleFileUpload files w)))
    (currentPath w).
Proof.
  intros Hne Hfiles Hnd Ha [imgs Himgs].
  pose proof (getCurrentAlbum_Some_resolves _ _ _ Ha) as Hres.
  pose proof (resolves_last_id _ _ _ Hres) as Hlast.
  rewrite (items_handleFileUpload _ _ _ Hne Hlast).
  pose proof (handleFileUpload_resolves _
                (newImages_of files (simulateUpload w)).1 _ _ _
                Hres Hnd Hlast) as Hup.
  unfold activePhotos at 2. rewrite (resolves_getCurrentAlbum _ _ _ Hup).
  unfold handleDrop.
  destruct (drop_into_resolved (processItems (map file_item files)) _ _ _ Hres
              [] None (simulateUpload w)) as (k & deeper & -> & Hproc).
  cbn [app].
  rewrite (processItems_image_files files Hfiles a imgs _ Himgs) in Hproc.
  destruct (Hproc eq_refl) as (T' & -> & Hres').
  rewrite persistChanges_items. unfold activePhotos.
  rewrite (resolves_getCurrentAlbum _ _ _ Hres').
  unfold images_list. by rewrite Himgs.
Qed.

Lemma drop_as_upload_witness :
  let w := sample_world sample_forest ["a"; "b"] offline in
  activePhotos false
    (items (state (handleDrop (Some [file_item (sample_file "x.png")]) w)))
    ["a"; "b"] =
  activePhotos false
    (items (state (handleFileUpload [sample_file "x.png"] w))) ["a"; "b"].
Proof.
  apply (drop_as_upload [sample_file "x.png"]
           (sample_world sample_forest ["a"; "b"] offline) sample_leaf).
  - discriminate.
  - apply List.Forall_cons; [reflexivity | apply List.Forall_nil].
  - apply (bool_decide_unpack _). vm_compute. exact I.
  - reflexivity.
  - by eexists.
Defined.

(** ** The view after a deletion *)

Lemma album_id_deleteRecursive_item i x :
  album_id (deleteRecursive_item i x) = album_id x.
Proof. rewrite deleteRecursive_item_eq. by destruct (subAlbums x). Qed.

Lemma subAlbums_deleteRecursive_item i x :
  default [] (subAlbums (deleteRecursive_item i x)) =
  deleteRecursive i (default [] (subAlbums x)).
Proof. rewrite deleteRecursive_item_eq. by destruct x as [j n im [subs|]]. Qed.

Lemma find_by_id_deleteRecursive i j lst :
  j ≠ i →
  find_by_id j (deleteRecursive i lst) =
  deleteRecursive_item i <$> find_by_id j lst.
Proof.
  intros Hne. unfold find_by_id.
  induction lst as [|x l IH]; [done|].
  rewrite deleteRecursive_cons. cbn [List.find].
  destruct (String.eqb_spec (album_id x) i) as [Ei|Ei].
  - destruct (String.eqb_spec (album_id x) j) as [Ej|Ej]; [congruence|done].
  - cbn [List.find]. rewrite album_id_deleteRecursive_item.
    by destruct (String.eqb (album_id x) j).
Qed.

Lemma resolves_deleteRecursive i T path a :
  resolves T path a → i ∉ path →
  resolves (deleteRecursive i T) path (deleteRecursive_item i a).
Proof.
  induction 1 as [lst j a H|lst j a rest b H _ IH];
    intros [Hne Hrest]%not_elem_of_cons.
  - apply resolves_last. by rewrite find_by_id_deleteRecursive, H.
  - apply resolves_step with (deleteRecursive_item i a).
    + by rewrite find_by_id_deleteRecursive, H.
    + rewrite subAlbums_deleteRecursive_item. by apply IH.
Qed.

Lemma elem_of_album_ids a lst :
  a ∈ lst →
  album_id a ∈ album_ids lst ∧
  ∀ x, x ∈ album_ids (default [] (subAlbums a)) → x ∈ album_ids lst.
Proof.
  induction lst as [|y l IH]; [by intros ?%elem_of_nil|].
  rewrite album_ids_cons. intros [->|Hin]%elem_of_cons.
  - split; [by left|]. intros x Hx. right. apply elem_of_app. by left.
  - destruct (IH Hin) as [H1 H2]. split.
    + right. apply elem_of_app. by right.
    + intros x Hx. right. apply elem_of_app. right. by apply H2.
Qed.

Lemma resolves_album_ids T path a :
  resolves T path a → ∀ j, j ∈ path → j ∈ album_ids T.
Proof.
  induction 1 as [lst i a H|lst i a rest b H _ IH]; intros j Hj;
    destruct (find_by_id_Some _ _ _ H) as [Hid Hin];
    destruct (elem_of_album_ids _ _ Hin) as [Hhere Hbelow];
    apply elem_of_cons in Hj as [->|Hj]; try (by rewrite <- Hid).
  - by apply elem_of_nil in Hj.
  - by apply Hbelow, IH.
Qed.

(** X28: under a path that resolves, deleting an album whose id is not
    on the path keeps the view in place: the path resolves to the same
    album, pruned; its cards are the former cards without the deleted
    album, each pruned, and its photos are unchanged.  Deleting an id that
    is on the path leaves no current album and no photo. *)
Theorem deleteAlbum_view i w a :
  getCurrentAlbum (items (state w)) (currentPath w) = Some a →
  let T := items (state w) in
  let T' := items (state (deleteAlbum i w)) in
  (i ∉ currentPath w →
   getCurrentAlbum T' (currentPath w) = Some (deleteRecursive_item i a) ∧
   visibleAlbums false T' (currentPath w) =
     deleteRecursive i (visibleAlbums false T (currentPath w)) ∧
   activePhotos false T' (currentPath w) =
     activePhotos false T (currentPath w)) ∧
  (i ∈ currentPath w →
   getCurrentAlbum T' (currentPath w) = None ∧
   activePhotos false T' (currentPath w) = []).
Proof.
  intros Ha. cbv zeta. rewrite items_deleteAlbum.
  pose proof (getCurrentAlbum_Some_resolves _ _ _ Ha) as Hres. split.
  - intros Hni.
    pose proof (resolves_deleteRecursive i _ _ _ Hres Hni) as Hres'.
    split; [by apply resolves_getCurrentAlbum|]. unfold visibleAlbums. split.
    + by rewrite (resolves_getCurrentDirectory _ _ _ Hres'),
        (resolves_getCurrentDirectory _ _ _ Hres),
        subAlbums_deleteRecursive_item.
    + unfold activePhotos.
      rewrite (resolves_getCurrentAlbum _ _ _ Hres'), Ha.
      rewrite deleteRecursive_item_eq. by destruct (subAlbums a).
  - intros Hin.
    assert (Hnone : getCurrentAlbum (deleteRecursive i (items (state w)))
                      (currentPath w) = None).
    { destruct (getCurrentAlbum (deleteRecursive i (items (state w)))
                  (currentPath w)) as [b|] eqn:Eb; [|done].
      apply getCurrentAlbum_Some_resolves in Eb.
      destruct (deleteRecursive_removes i (items (state w))).
      by apply (resolves_album_ids _ _ _ Eb). }
    split; [done|]. unfold activePhotos. by rewrite Hnone.
Qed.

Lemma deleteAlbum_view_witness :
  let w := sample_world sample_forest ["a"] offline in
  getCurrentAlbum (items (state (deleteAlbum "b" w))) ["a"] =
    Some (mkAlbum "a" "Holidays" (Some [sample_image "q"]) (Some [])) ∧
  getCurrentAlbum (items (state (deleteAlbum "a" w))) ["a"] = None.
Proof.
  destruct (deleteAlbum_view "b"
              (sample_world sample_forest ["a"] offline) sample_root eq_refl)
    as [Hb _].
  destruct (deleteAlbum_view "a"
              (sample_world sample_forest ["a"] offline) sample_root eq_refl)
    as [_ Ha].
  split.
  - refine (proj1 (Hb _)). apply (bool_decide_unpack _). vm_compute. exact I.
  - refine (proj1 (Ha _)). apply (bool_decide_unpack _). vm_compute. exact I.
Defined.

Lemma resolves_map (f : Album → Album) T path a :
  (∀ x, album_id (f x) = album_id x) →
  (∀ x, default [] (subAlbums (f x)) = map f (default [] (subAlbums x))) →
  resolves T path a → resolves (map f T) path (f a).
Proof.
  intros Hid Hsubs.
  induction 1 as [lst j a H|lst j a rest b H _ IH].
  - apply resolves_last. by rewrite find_by_id_map, H.
  - apply resolves_step with (f a).
    + by rewrite find_by_id_map, H.
    + by rewrite Hsubs.
Qed.

Lemma filter_plain imageId imgs :
  map plain (List.filter (keeps_image imageId) imgs) =
  List.filter (λ p, keeps_image imageId (photo_image p)) (map plain imgs).
Proof.
  induction imgs as [|img l IH]; simpl; [done|].
  destruct (keeps_image imageId img); simpl; by rewrite IH.
Qed.

(** X29: under a path that resolves, deleting an image keeps the view in
    place: the path resolves to the same album without the images of that
    id, the photos shown are the former photos without those of that id,
    in the same order, and the cards are the former cards, each without
    the images of that id. *)
Theorem deleteImage_view imageId w a :
  getCurrentAlbum (items (state w)) (currentPath w) = Some a →
  let T := items (state w) in
  let T' := items (state (deleteImage imageId w)) in
  getCurrentAlbum T' (currentPath w) =
    Some (deleteFromRecursive_item imageId a) ∧
  activePhotos false T' (currentPath w) =
    List.filter (λ p, keeps_image imageId (photo_image p))
      (activePhotos false T (currentPath w)) ∧
  visibleAlbums false T' (currentPath w) =
    deleteFromRecursive imageId (visibleAlbums false T (currentPath w)).
Proof.
  intros Ha. cbv zeta. rewrite items_deleteImage.
  pose proof (getCurrentAlbum_Some_resolves _ _ _ Ha) as Hres.
  assert (Hres' : resolves (deleteFromRecursive imageId (items (state w)))
                    (currentPath w) (deleteFromRecursive_item imageId a)).
  { apply resolves_map; [| |done]; intros x;
      by destruct x as [j n im [subs|]]. }
  split; [by apply resolves_getCurrentAlbum|]. split.
  - unfold activePhotos.
    rewrite (resolves_getCurrentAlbum _ _ _ Hres'), Ha.
    destruct a as [j n [imgs|] subs]; [|done].
    cbn [deleteFromRecursive_item images default from_option id].
    apply filter_plain.
  - unfold visibleAlbums.
    rewrite (resolves_getCurrentDirectory _ _ _ Hres'),
      (resolves_getCurrentDirectory _ _ _ Hres).
    by destruct a as [j n im [subs|]].
Qed.

Lemma deleteImage_view_witness :
  let w := sample_world sample_forest ["a"; "b"] offline in
  activePhotos false (items (state (deleteImage "p" w))) ["a"; "b"] = [].
Proof.
  exact (proj1 (proj2 (deleteImage_view "p"
                         (sample_world sample_forest ["a"; "b"] offline)
                         sample_leaf eq_refl))).
Defined.
